(** * MCP 2.0 reference implementation: security, recovery and coordination

    A shallow embedding of the classes [SecurityFramework],
    [EnhancedErrorHandler] and [CollaborationManager] of the enhanced MCP
    implementation guide, and the properties of their methods.

    Conventions of the embedding.
    - An [async] method is a computation [Eff S A]: it takes the state of
      its object and returns a completion (a value or a thrown [Error.t])
      together with the state it leaves behind.  Mutations made before a
      [throw] stay in place, as in JavaScript.
    - Optional fields ([signature?], [context?], [userId?]) are [option]s.
    - [Map<string, V>] is [gmap string V]; arrays are lists.
    - Reads of the clock and of the random generator are inputs of the
      method that performs them; where a method reads the clock at several
      moments, the readings are taken one after the other from a clock
      [nat → Z].
    - Objects that are shared by reference (the state that is
      checkpointed, the tools of the registry) live in a store, and a
      reference is an address in it.
    - Collaborators whose code is not part of the classes (the crypto
      library, the sandbox backend, the event bus) are Section variables. *)

From stdpp Require Import base option list gmap strings numbers sorting pretty.
From Stdlib Require Import ZArith Bool.

Local Open Scope Z_scope.
Set Warnings "-register-all".

(* ===================================================================== *)
(** * Part I: definitions *)
(* ===================================================================== *)

(** ** JavaScript errors and completions *)

Module Error.
(** An [Error] object, as far as the code inspects it. *)
Record t := mk { name : string; message : string }.

(** [new Error(msg)] *)
Definition new (msg : string) : t := {| name := "Error"; message := msg |}.
End Error.

Inductive completion (A : Type) : Type :=
  | Return (a : A)
  | Throw (e : Error.t).
Arguments Return {A} a.
Arguments Throw {A} e.

Definition Eff (S A : Type) : Type := S → completion A * S.

Module Eff.
Section Ops.
Context {S : Type}.

Definition ret {A} (a : A) : Eff S A := λ s, (Return a, s).

Definition throw {A} (e : Error.t) : Eff S A := λ s, (Throw e, s).

Definition bind {A B} (m : Eff S A) (k : A → Eff S B) : Eff S B :=
  λ s, match m s with
       | (Return a, s') => k a s'
       | (Throw e, s') => (Throw e, s')
       end.

(** [try { body } catch (error) { handler }] *)
Definition try_catch {A} (body : Eff S A) (handler : Error.t → Eff S A)
    : Eff S A :=
  λ s, match body s with
       | (Return a, s') => (Return a, s')
       | (Throw e, s') => handler e s'
       end.

(** [try { body } finally { cleanup }]: the cleanup always runs; when it
    throws, its error replaces the completion of the body. *)
Definition try_finally {A} (body : Eff S A) (cleanup : Eff S unit)
    : Eff S A :=
  λ s, let '(c, s') := body s in
       match cleanup s' with
       | (Return _, s'') => (c, s'')
       | (Throw e, s'') => (Throw e, s'')
       end.

Definition get : Eff S S := λ s, (Return s, s).
Definition modify (f : S → S) : Eff S unit := λ s, (Return tt, f s).

(** A collaborator that does not touch the state of the object. *)
Definition lift {A} (c : completion A) : Eff S A := λ s, (c, s).
End Ops.
End Eff.

Declare Scope eff_scope.
Delimit Scope eff_scope with eff.
Notation "'let*' x := e 'in' k" := (Eff.bind e (λ x, k))
  (at level 10, x binder, e at level 100, k at level 200) : eff_scope.
Notation "e ;;; k" := (Eff.bind e (λ _, k))
  (at level 100, k at level 200, right associativity) : eff_scope.

(** ** Security framework *)

Module SecurityFramework.

Record CryptographicSignature := {
  algorithm : string;
  publicKey : string;
  signature_value : string  (* [signature.signature] *)
}.

Record OperationContext := {
  sessionId : string;
  userId : option string;
  timestamp : string;
  correlationId : string;
  parentOperation : option string
}.

(** The fields of [EnhancedMessage] that [authenticateRequest] reads; the
    JSON-RPC payload travels as [params]. *)
Record EnhancedMessage := {
  id : option string;
  method : option string;
  params : option string;
  signature : option CryptographicSignature;
  context : option OperationContext
}.

Inductive ActionType := read | write | execute | delete.

Record Action := { type : ActionType }.

Record Permission := {
  resource : string;
  actions : list Action;
  auditRequired : bool
}.

Inductive RiskLevel := low | medium | high | critical.

Record AuthenticationResult := {
  authenticated : bool;
  permissions : list string;
  riskLevel : RiskLevel;
  requiresAudit : bool
}.

(** [{ timestamp, event, details: { error, context } }] *)
Record AuditEntry := {
  entry_timestamp : string;
  event : string;
  details_error : string;
  details_context : option OperationContext
}.

Inductive SandboxType := container | vm | wasm | process.

Record ResourceLimits := {
  memory_mb : Z;
  cpu_percent : Z;
  disk_mb : Z;
  network_bandwidth_kbps : Z;
  execution_time_seconds : Z
}.

Record SandboxConfiguration := {
  config_id : string;
  config_type : SandboxType;
  resources : ResourceLimits;
  capabilities : list string
}.

(** [new SandboxEnvironment(config)] *)
Record SandboxEnvironment := { sandbox_config : SandboxConfiguration }.

(** The private members of the class. *)
Record State := {
  this_permissions : gmap string (list Permission);
  this_sandboxes : gmap string SandboxEnvironment;
  this_auditLog : list AuditEntry
}.

Definition is_execute (a : Action) : bool :=
  match type a with execute => true | _ => false end.

Definition is_write_or_delete (a : Action) : bool :=
  match type a with write | delete => true | _ => false end.

Definition calculateRiskLevel (permissions : list Permission) : RiskLevel :=
  let hasWriteAccess :=
    existsb (λ p, existsb is_write_or_delete (actions p)) permissions in
  let hasExecuteAccess :=
    existsb (λ p, existsb is_execute (actions p)) permissions in
  if hasExecuteAccess then critical
  else if hasWriteAccess then high
  else medium.

Definition push_audit (e : AuditEntry) (s : State) : State :=
  {| this_permissions := this_permissions s;
     this_sandboxes := this_sandboxes s;
     this_auditLog := this_auditLog s ++ [e] |}.

Definition set_sandbox (k : string) (sb : SandboxEnvironment) (s : State)
    : State :=
  {| this_permissions := this_permissions s;
     this_sandboxes := <[k := sb]> (this_sandboxes s);
     this_auditLog := this_auditLog s |}.

Definition delete_sandbox (k : string) (s : State) : State :=
  {| this_permissions := this_permissions s;
     this_sandboxes := base.delete k (this_sandboxes s);
     this_auditLog := this_auditLog s |}.

(** A [Verify] object of the crypto library: payload, public key and
    signature to the answer of [verify], which throws on a key it cannot
    read. *)
Definition Verify : Type := string → string → string → completion bool.

Section Methods.
(** [JSON.stringify(message)]; it throws on values it cannot encode. *)
Variable JSON_stringify : EnhancedMessage → completion string.
(** [crypto.createVerify(algorithm)] of the crypto library: it throws on
    an algorithm it does not know, and otherwise returns a [Verify] object,
    given here by what [update(payload)] followed by [verify(publicKey,
    signature, 'base64')] answers on it. *)
Variable crypto_createVerify : string → completion Verify.
(** [this.getPermissions]: called by [authenticateRequest], its body is
    not part of the class as published.  It reads the permission map. *)
Variable getPermissions :
  option string → gmap string (list Permission)
  → completion (list Permission).
(** [sandbox.initialize()], delegated to the isolation backend. *)
Variable initialize : SandboxConfiguration → completion unit.

Local Open Scope eff_scope.

Definition verifySignature (sig : CryptographicSignature)
    (message : EnhancedMessage) : Eff State bool :=
  let* verify := Eff.lift (crypto_createVerify (algorithm sig)) in
  let* payload := Eff.lift (JSON_stringify message) in
  Eff.lift (verify payload (publicKey sig) (signature_value sig)).

(** [now] is the value of [new Date().toISOString()] in the handler. *)
Definition authenticateRequest (now : string) (message : EnhancedMessage)
    : Eff State AuthenticationResult :=
  let context := context message in
  match signature message with
  | None =>
      Eff.ret {| authenticated := true;
                 permissions := ["read:public"];
                 riskLevel := medium;
                 requiresAudit := true |}
  | Some signature =>
      Eff.try_catch
        (let* isValid := verifySignature signature message in
         if negb isValid then Eff.throw (Error.new "Invalid signature")
         else
           let* this := Eff.get in
           let* permissions :=
             Eff.lift (getPermissions (context ≫= userId)
                         (this_permissions this)) in
           Eff.ret {| authenticated := true;
                      permissions := map resource permissions;
                      riskLevel := calculateRiskLevel permissions;
                      requiresAudit := existsb auditRequired permissions |})
        (λ error,
           Eff.modify (push_audit
             {| entry_timestamp := now;
                event := "authentication_failed";
                details_error := Error.message error;
                details_context := context |}) ;;;
           Eff.throw error)
  end.

Definition createSandbox (config : SandboxConfiguration)
    : Eff State string :=
  let sandbox := {| sandbox_config := config |} in
  Eff.lift (initialize config) ;;;
  Eff.modify (set_sandbox (config_id config) sandbox) ;;;
  Eff.ret (config_id config).
End Methods.

(** Modelled from the spec: [destroySandbox] is called by the workflow
    example (in a [finally]) but the class as published does not define
    it.  Spec, SandboxManager: "[destroySandbox(sandboxId)] is idempotent:
    destroying an already-destroyed or unknown id is a no-op, not an
    error".  A registered sandbox is removed from the registry. *)
Definition destroySandbox (sandboxId : string) : Eff State unit :=
  λ this,
    match this_sandboxes this !! sandboxId with
    | None => (Return tt, this)
    | Some _ => (Return tt, delete_sandbox sandboxId this)
    end.

End SecurityFramework.

(** ** The JavaScript object heap and [structuredClone] *)

Module Heap.

Definition loc := positive.

Inductive prim :=
  | PUndefined
  | PNull
  | PBoolean (b : bool)
  | PNumber (n : Z)
  | PString (s : string)
  | PSymbol (description : string).

(** A value is a primitive or a reference to an object. *)
Inductive value :=
  | VPrim (p : prim)
  | VRef (l : loc).

(** An object is its list of own properties (arrays included, with their
    indices as keys); functions are kept apart because the structured
    clone algorithm refuses them, as it refuses the symbols among the
    primitives. *)
Inductive cell :=
  | CObject (fields : list (string * value))
  | CFunction.

Abbreviation heap := (gmap loc cell).
Abbreviation memory := (gmap loc loc).

(** [obj[k] = v] on the object at [l]: replaces the property in place or
    appends it. *)
Fixpoint set_field (k : string) (v : value) (fs : list (string * value))
    : list (string * value) :=
  match fs with
  | [] => [(k, v)]
  | (k', v') :: fs' =>
      if String.eqb k k' then (k, v) :: fs' else (k', v') :: set_field k v fs'
  end.

Definition write (l : loc) (k : string) (v : value) (h : heap) : heap :=
  match h !! l with
  | Some (CObject fs) => <[l := CObject (set_field k v fs)]> h
  | _ => h
  end.

(** What a reader sees when it walks [n] levels down from [v]. *)
Inductive view :=
  | SeenPrim (p : prim)
  | SeenObject (fields : list (string * view))
  | SeenFunction
  | SeenNothing        (* no object at that address *)
  | SeenBelow.         (* deeper than the walk goes *)

Fixpoint observe (n : nat) (h : heap) (v : value) : view :=
  match v with
  | VPrim p => SeenPrim p
  | VRef l =>
      match n with
      | O => SeenBelow
      | S n' =>
          match h !! l with
          | None => SeenNothing
          | Some CFunction => SeenFunction
          | Some (CObject fs) =>
              SeenObject (map (λ kv, (kv.1, observe n' h kv.2)) fs)
          end
      end
  end.

(** Reachability through properties. *)
Inductive reachable (h : heap) : value → loc → Prop :=
  | reach_here l : reachable h (VRef l) l
  | reach_field l fs k v l' :
      h !! l = Some (CObject fs) → (k, v) ∈ fs → reachable h v l' →
      reachable h (VRef l) l'.

(** *** The structured clone algorithm

    The algorithm walks the input once.  Its [memory] maps every object
    already visited to its copy, so that shared and cyclic structure is
    copied once; each copy is a newly allocated object whose properties
    are filled in one after the other.  The input is read from [src], the
    heap at the time of the call. *)

Inductive outcome (A : Type) :=
  | Done (a : A)
  | DataCloneError
  | OutOfFuel.
Arguments Done {A} a.
Arguments DataCloneError {A}.
Arguments OutOfFuel {A}.

Definition append_field (l : loc) (k : string) (v : value) (h : heap)
    : heap :=
  match h !! l with
  | Some (CObject fs) => <[l := CObject (fs ++ [(k, v)])]> h
  | _ => h
  end.

Fixpoint clone_fields
    (rec : value → memory * heap → outcome (value * (memory * heap)))
    (target : loc) (fields : list (string * value)) (st : memory * heap)
    : outcome (memory * heap) :=
  match fields with
  | [] => Done st
  | (k, v) :: rest =>
      match rec v st with
      | Done (v', (mem, h)) =>
          clone_fields rec target rest (mem, append_field target k v' h)
      | DataCloneError => DataCloneError
      | OutOfFuel => OutOfFuel
      end
  end.

Definition is_symbol (p : prim) : bool :=
  match p with PSymbol _ => true | _ => false end.

Fixpoint clone (fuel : nat) (src : heap) (v : value) (st : memory * heap)
    {struct fuel} : outcome (value * (memory * heap)) :=
  match v with
  | VPrim p => if is_symbol p then DataCloneError else Done (VPrim p, st)
  | VRef l =>
      match st.1 !! l with
      | Some l' => Done (VRef l', st)
      | None =>
          match src !! l with
          | None => DataCloneError
          | Some CFunction => DataCloneError
          | Some (CObject fields) =>
              match fuel with
              | O => OutOfFuel
              | S fuel' =>
                  let l' := fresh (dom st.2) in
                  match clone_fields (clone fuel' src) l' fields
                          (<[l := l']> st.1, <[l' := CObject []]> st.2) with
                  | Done st' => Done (VRef l', st')
                  | DataCloneError => DataCloneError
                  | OutOfFuel => OutOfFuel
                  end
              end
          end
      end
  end.

Definition data_clone_error : Error.t :=
  {| Error.name := "DataCloneError";
     Error.message := "value could not be cloned" |}.

(** [structuredClone(v)] in heap [h].  One unit of fuel per object of the
    heap is enough (lemma [clone_fuel_enough]), so the last branch is
    never taken. *)
Definition structuredClone (v : value) (h : heap)
    : option (completion value * heap) :=
  match clone (S (size h)) h v (∅, h) with
  | Done (v', (_, h')) => Some (Return v', h')
  | DataCloneError => Some (Throw data_clone_error, h)
  | OutOfFuel => None
  end.

End Heap.

(** ** Enhanced error handling *)

Module EnhancedErrorHandler.
Import Heap.

Inductive BreakerState := closed | open | half_open.

Record CircuitBreaker := {
  service : string;
  breaker_state : BreakerState;
  failure_threshold : Z;
  recovery_timeout : Z;
  current_failures : Z
}.

Record Checkpoint := {
  id : string;
  timestamp : string;
  operation_id : string;            (* [operation] *)
  state_snapshot : value;
  dependencies : list string
}.

(** What the retry loop does to the outside world. *)
Inductive Effect :=
  | Invoked               (* [await strategy.operation()] *)
  | Slept (ms : Z).       (* [await this.sleep(ms)] *)

(** The private members of the class, the object heap the caller's [state]
    lives in, and the calls made so far. *)
Record World := {
  this_circuitBreakers : gmap string CircuitBreaker;
  this_checkpoints : gmap string Checkpoint;
  heap_of : heap;
  trace : list Effect
}.

(** A recovery strategy.  [operation] is a closure; [operation k] is the
    completion of its call number [k] (counting from 0) in this run. *)
Record RecoveryStrategy := {
  type : string;
  maxAttempts : option Z;
  baseDelay : option Z;
  backoffStrategy : option string;
  operation : nat → completion unit
}.

(** [x || d] on an optional number: [undefined] and [0] are falsy. *)
Definition or_default (x : option Z) (d : Z) : Z :=
  match x with
  | Some n => if n =? 0 then d else n
  | None => d
  end.

Definition is_invoked (e : Effect) : bool :=
  match e with Invoked => true | Slept _ => false end.

Definition invocations (t : list Effect) : nat :=
  length (List.filter is_invoked t).

Definition log (e : Effect) (w : World) : World :=
  {| this_circuitBreakers := this_circuitBreakers w;
     this_checkpoints := this_checkpoints w;
     heap_of := heap_of w;
     trace := trace w ++ [e] |}.

Definition invoke (op : nat → completion unit) : Eff World unit :=
  λ w, (op (invocations (trace w)), log Invoked w).

Definition sleep (ms : Z) : Eff World unit :=
  λ w, (Return tt, log (Slept ms) w).

Definition calculateBackoffDelay (attempt baseDelay : Z)
    (strategy : option string) : Z :=
  match strategy with
  | Some s =>
      if String.eqb s "exponential" then baseDelay * 2 ^ (attempt - 1)
      else if String.eqb s "linear" then baseDelay * attempt
      else baseDelay
  | None => baseDelay
  end.

(** The [for] loop of [retryWithBackoff], from [attempt] on.  [None] when
    [fuel] iterations were not enough to leave the loop. *)
Fixpoint retry_loop (fuel : nat) (strategy : RecoveryStrategy)
    (maxAttempts baseDelay attempt : Z) (w : World)
    : option (completion bool * World) :=
  if attempt <=? maxAttempts then
    match fuel with
    | O => None
    | S fuel' =>
        match invoke (operation strategy) w with
        | (Return _, w1) => Some (Return true, w1)
        | (Throw error, w1) =>
            if attempt =? maxAttempts then Some (Throw error, w1)
            else
              let delay :=
                calculateBackoffDelay attempt baseDelay
                  (backoffStrategy strategy) in
              let '(_, w2) := sleep delay w1 in
              retry_loop fuel' strategy maxAttempts baseDelay (attempt + 1) w2
        end
    end
  else Some (Return false, w).

Definition retryWithBackoff (strategy : RecoveryStrategy) (w : World)
    : option (completion bool * World) :=
  let maxAttempts := or_default (maxAttempts strategy) 3 in
  let baseDelay := or_default (baseDelay strategy) 1000 in
  retry_loop (S (Z.to_nat maxAttempts)) strategy maxAttempts baseDelay 1 w.

Section Methods.
(** [executeFallback] and [rollbackToCheckpoint] are called by
    [attemptRecovery]; their bodies are not part of the class as
    published. *)
Variable executeFallback : RecoveryStrategy → Eff World bool.
Variable rollbackToCheckpoint : RecoveryStrategy → Eff World bool.

Definition attemptRecovery (strategy : RecoveryStrategy) (w : World)
    : option (completion bool * World) :=
  if String.eqb (type strategy) "retry" then retryWithBackoff strategy w
  else if String.eqb (type strategy) "fallback" then
    Some (executeFallback strategy w)
  else if String.eqb (type strategy) "rollback" then
    Some (rollbackToCheckpoint strategy w)
  else Some (Return false, w).
End Methods.

(** [`cp_${Date.now()}_${Math.random().toString(36).substr(2, 9)}`] *)
Definition generateCheckpointId (date_now random : string) : string :=
  "cp_" +:+ date_now +:+ "_" +:+ random.

Definition store_checkpoint (cp : Checkpoint) (h : heap) (w : World)
    : World :=
  {| this_circuitBreakers := this_circuitBreakers w;
     this_checkpoints := <[id cp := cp]> (this_checkpoints w);
     heap_of := h;
     trace := trace w |}.

(** [date_now], [random] and [iso_now] are the readings of [Date.now()],
    [Math.random()] and [new Date().toISOString()]. *)
Definition createCheckpoint (date_now random iso_now : string)
    (operationId : string) (state : value) (w : World)
    : option (completion string * World) :=
  match structuredClone state (heap_of w) with
  | None => None
  | Some (Throw e, _) => Some (Throw e, w)
  | Some (Return snapshot, h') =>
      let checkpoint :=
        {| id := generateCheckpointId date_now random;
           timestamp := iso_now;
           operation_id := operationId;
           state_snapshot := snapshot;
           dependencies := [] |} in
      Some (Return (id checkpoint), store_checkpoint checkpoint h' w)
  end.

End EnhancedErrorHandler.

(** ** Cross-system collaboration *)

Module CollaborationManager.

Inductive LockType := shared | exclusive.

(** Times are milliseconds since the epoch. *)
Record ResourceLock := {
  resource_id : string;
  lock_type : LockType;
  holder : string;
  acquired_at : Z;
  expires_at : Z;
  renewable : bool
}.

Record CollaborativeOperation := {
  id : string;
  source : string;
  resources : list string
}.

Record SystemEvent := {
  event_id : string;
  type : string;
  event_source : string;
  timestamp : Z;
  correlation_id : string
}.

(** The calls the coordinator makes, in order. *)
Inductive Step :=
  | Acquired (resource : string)     (* [distributedLock.acquire] granted *)
  | Refused (resource : string)      (* [distributedLock.acquire] threw *)
  | Released (resource : string)     (* [distributedLock.release] returned *)
  | ReleaseFailed (resource : string)
  | Published (type : string)        (* [eventBus.publish] was called *)
  | Executed.                        (* [executeWithCoordination] was called *)

Definition lock_conflict_error : Error.t :=
  {| Error.name := "LockConflictError";
     Error.message := "resource is locked" |}.

Definition not_holder_error : Error.t :=
  {| Error.name := "NotHolderError";
     Error.message := "caller does not hold the lock" |}.

(** Modelled from the spec: the class [DistributedLockManager] is used by
    [CollaborationManager] and defined nowhere.  Spec, DistributedLockManager:
    "[acquire(request)] fails with [LockConflictError] if an incompatible lock
    (exclusive vs. any; shared vs. exclusive) is currently held and not
    expired; otherwise grants a lease"; "expired, unrenewed leases are
    reclaimable by any subsequent acquirer"; "[release(resourceId, holder)]
    fails with [NotHolderError] if the caller is not the current holder".
    The lock table is the list of leases granted and not yet released. *)
Definition incompatible (held requested : LockType) : bool :=
  match held, requested with
  | shared, shared => false
  | _, _ => true
  end.

Definition expired (now : Z) (lk : ResourceLock) : bool :=
  expires_at lk <=? now.

Definition on_resource (r : string) (lk : ResourceLock) : bool :=
  String.eqb (resource_id lk) r.

Definition conflicts (now : Z) (request lk : ResourceLock) : bool :=
  on_resource (resource_id request) lk && negb (expired now lk)
  && incompatible (lock_type lk) (lock_type request).

Definition held_by (r h : string) (lk : ResourceLock) : bool :=
  on_resource r lk && String.eqb (holder lk) h.

Fixpoint remove_first (p : ResourceLock → bool) (t : list ResourceLock)
    : list ResourceLock :=
  match t with
  | [] => []
  | lk :: t' => if p lk then t' else lk :: remove_first p t'
  end.

Definition lock_acquire (now : Z) (request : ResourceLock)
    (table : list ResourceLock) : completion ResourceLock * list ResourceLock :=
  if existsb (conflicts now request) table then
    (Throw lock_conflict_error, table)
  else
    (Return request,
     request :: List.filter
                  (λ lk, negb (on_resource (resource_id request) lk
                               && expired now lk)) table).

Definition lock_release (r h : string) (table : list ResourceLock)
    : completion unit * list ResourceLock :=
  if existsb (held_by r h) table then
    (Return tt, remove_first (held_by r h) table)
  else (Throw not_holder_error, table).

Section Methods.
(** The state of the event bus and of whatever the operation runs on. *)
Variable Ext : Type.
Variable OperationResult : Type.
(** The clock: [clock k] is its reading number [k], counting from 0, in
    milliseconds.  Every [new Date()] and [Date.now()] is a reading of its
    own; nothing is assumed of the readings. *)
Variable clock : nat → Z.
(** [eventBus.publish(event)].  The lock manager is distributed: while the
    coordinator awaits the event bus or the execution, the other systems
    and the operation itself act on the lock table, so both calls are given
    the lock table along with [Ext]. *)
Variable publish :
  SystemEvent → list ResourceLock * Ext
  → completion unit * (list ResourceLock * Ext).
(** [this.executeWithCoordination(operation)]: called by
    [coordinateOperation], its body is not part of the class as published. *)
Variable executeWithCoordination :
  CollaborativeOperation → list ResourceLock * Ext
  → completion OperationResult * (list ResourceLock * Ext).
(** [process.env.SYSTEM_ID || 'unknown_system'] *)
Variable systemId : string.

Record World := {
  lock_table : list ResourceLock;
  steps : list Step;
  ext : Ext;
  clock_reads : nat       (* the number of readings of the clock so far *)
}.

Definition step (s : Step) (w : World) : World :=
  {| lock_table := lock_table w; steps := steps w ++ [s]; ext := ext w;
     clock_reads := clock_reads w |}.

Definition with_table (t : list ResourceLock) (w : World) : World :=
  {| lock_table := t; steps := steps w; ext := ext w;
     clock_reads := clock_reads w |}.

Definition collaborator {A}
    (f : list ResourceLock * Ext → completion A * (list ResourceLock * Ext))
    : Eff World A :=
  λ w, let '(c, (t, e)) := f (lock_table w, ext w) in
       (c, {| lock_table := t; steps := steps w; ext := e;
              clock_reads := clock_reads w |}).

(** [Date.now()], and [new Date()] *)
Definition Date_now : Eff World Z :=
  λ w, (Return (clock (clock_reads w)),
        {| lock_table := lock_table w; steps := steps w; ext := ext w;
           clock_reads := S (clock_reads w) |}).

Local Open Scope eff_scope.

(** [await this.distributedLock.acquire(request)]; the lock manager decides
    at the time it reads when the request reaches it. *)
Definition distributedLock_acquire (request : ResourceLock)
    : Eff World ResourceLock :=
  let* now := Date_now in
  λ w, match lock_acquire now request (lock_table w) with
       | (Return lk, t) =>
           (Return lk, step (Acquired (resource_id request)) (with_table t w))
       | (Throw e, t) =>
           (Throw e, step (Refused (resource_id request)) (with_table t w))
       end.

(** [await this.distributedLock.release(resource_id, holder)] *)
Definition distributedLock_release (r h : string) : Eff World unit :=
  λ w, match lock_release r h (lock_table w) with
       | (Return _, t) => (Return tt, step (Released r) (with_table t w))
       | (Throw e, t) => (Throw e, step (ReleaseFailed r) (with_table t w))
       end.

(** The request built in the loop of [acquireLocks]: [acquired_at] is the
    reading of [new Date()] and [now] that of [Date.now()]. *)
Definition lock_request (acquired_at now : Z) (resource : string)
    : ResourceLock :=
  {| resource_id := resource;
     lock_type := exclusive;
     holder := systemId;
     acquired_at := acquired_at;
     expires_at := now + 300000;
     renewable := true |}.

(** The loop of [acquireLocks], with the array [locks] built so far. *)
Fixpoint acquireLocks_from (locks : list ResourceLock)
    (resources : list string) : Eff World (list ResourceLock) :=
  match resources with
  | [] => Eff.ret locks
  | resource :: rest =>
      let* acquired_at := Date_now in
      let* now := Date_now in
      let* lock :=
        distributedLock_acquire (lock_request acquired_at now resource) in
      acquireLocks_from (locks ++ [lock]) rest
  end.

Definition acquireLocks (resources : list string)
    : Eff World (list ResourceLock) :=
  acquireLocks_from [] resources.

Fixpoint releaseLocks (locks : list ResourceLock) : Eff World unit :=
  match locks with
  | [] => Eff.ret tt
  | lock :: rest =>
      distributedLock_release (resource_id lock) (holder lock) ;;;
      releaseLocks rest
  end.

Definition publish_event (ev : SystemEvent) : Eff World unit :=
  λ w, collaborator (publish ev) (step (Published (type ev)) w).

Definition execute (op : CollaborativeOperation) : Eff World OperationResult :=
  λ w, collaborator (executeWithCoordination op) (step Executed w).

(** [evt1] and [evt2] are the two results of [generateEventId()]. *)
Definition coordinateOperation (evt1 evt2 : string)
    (operation : CollaborativeOperation) : Eff World OperationResult :=
  let* locks := acquireLocks (resources operation) in
  Eff.try_finally
    (let* started_at := Date_now in
     publish_event {| event_id := evt1;
                      type := "operation_started";
                      event_source := source operation;
                      timestamp := started_at;
                      correlation_id := id operation |} ;;;
     let* result := execute operation in
     let* completed_at := Date_now in
     publish_event {| event_id := evt2;
                      type := "operation_completed";
                      event_source := source operation;
                      timestamp := completed_at;
                      correlation_id := id operation |} ;;;
     Eff.ret result)
    (releaseLocks locks).

End Methods.

Definition acquired_resources (t : list Step) : list string :=
  omap (λ s, match s with Acquired r => Some r | _ => None end) t.

Definition released_resources (t : list Step) : list string :=
  omap (λ s, match s with Released r => Some r | _ => None end) t.

End CollaborationManager.

(** ** The properties, in the words of the design document *)

Module SecurityFrameworkSpec.
Import SecurityFramework.

(** The permission list grants the action [t]. *)
Definition grants (t : ActionType) (perms : list Permission) : Prop :=
  ∃ p a, p ∈ perms ∧ a ∈ actions p ∧ type a = t.

(** The unsigned-request result. *)
Definition public_read_only : AuthenticationResult :=
  {| authenticated := true;
     permissions := ["read:public"];
     riskLevel := medium;
     requiresAudit := true |}.

(** The invalid-signature rule as the design document words it: the call
    fails with an [AuthError]. *)
Definition raises_AuthError {A} (r : completion A * State) : Prop :=
  ∃ e, r.1 = Throw e ∧ Error.name e = "AuthError".

(** The duplicate-id rule as the design document words it: creation fails
    and the registered sandbox stays. *)
Definition rejects_duplicates
    (initialize : SandboxConfiguration → completion unit) : Prop :=
  ∀ config this old,
    this_sandboxes this !! config_id config = Some old →
    ∃ e this',
      createSandbox initialize config this = (Throw e, this') ∧
      this_sandboxes this' !! config_id config = Some old.

End SecurityFrameworkSpec.

Module EnhancedErrorHandlerSpec.
Import Heap EnhancedErrorHandler.

(** The delay before the attempt that follows attempt number [attempt]. *)
Definition claimed_delay (backoff : option string) (baseDelay attempt : Z)
    : Z :=
  if decide (backoff = Some "exponential") then baseDelay * 2 ^ (attempt - 1)
  else if decide (backoff = Some "linear") then baseDelay * attempt
  else baseDelay.

(** The calls of a run in which the attempts [attempt], ..., [attempt +
    failures - 1] fail and are each followed by a sleep, and one more
    attempt ends the run. *)
Fixpoint expected_trace (backoff : option string) (baseDelay attempt : Z)
    (failures : nat) : list Effect :=
  match failures with
  | O => [Invoked]
  | S n =>
      Invoked :: Slept (claimed_delay backoff baseDelay attempt)
      :: expected_trace backoff baseDelay (attempt + 1) n
  end.

Definition with_trace (t : list Effect) (w : World) : World :=
  {| this_circuitBreakers := this_circuitBreakers w;
     this_checkpoints := this_checkpoints w;
     heap_of := heap_of w;
     trace := t |}.

Definition fails (c : completion unit) : Prop := ∃ e, c = Throw e.

(** The retry rule as the design document words it, for a strategy of type
    [retry] in world [w]: when every call of the operation fails, the
    operation is called [maxAttempts] times (3 when the strategy gives
    none) and the last failure is thrown. *)
Definition retries_then_rethrows
    (attemptRecovery : RecoveryStrategy → World
                       → option (completion bool * World))
    (s : RecoveryStrategy) (w : World) : Prop :=
  (∀ k, fails (operation s k)) →
  ∃ e w',
    attemptRecovery s w = Some (Throw e, w') ∧
    Z.of_nat (invocations (trace w')) =
      Z.of_nat (invocations (trace w)) + default 3 (maxAttempts s).

End EnhancedErrorHandlerSpec.

Module HeapSpec.
Import Heap.

(** The copy of [v] under the memory [mem]. *)
Definition rename (mem : memory) (v : value) : value :=
  match v with
  | VPrim p => VPrim p
  | VRef l => match mem !! l with Some l' => VRef l' | None => VRef l end
  end.

Definition rename_field (mem : memory) (kv : string * value)
    : string * value :=
  (kv.1, rename mem kv.2).

(** [v] is a primitive other than a symbol, or an object that has a
    copy. *)
Definition covered (mem : memory) (v : value) : Prop :=
  match v with
  | VPrim p => is_symbol p = false
  | VRef l => is_Some (mem !! l)
  end.

(** The object at [l'] in [h] is the copy of the object at [l] in [src]:
    same keys, and every property value replaced by its copy. *)
Definition copied (src : heap) (mem : memory) (h : heap) (l l' : loc)
    : Prop :=
  ∃ fs,
    src !! l = Some (CObject fs) ∧
    h !! l' = Some (CObject (map (rename_field mem) fs)) ∧
    Forall (λ kv, covered mem kv.2) fs.

(** What one run of the algorithm on [v] does to its state: the memory
    grows; the objects that were there are not written to; [v] gets a copy;
    and every object that enters the memory is copied to a new address. *)
Definition clone_ok (src : heap) (st : memory * heap) (v : value)
    (r : value * (memory * heap)) : Prop :=
  st.1 ⊆ r.2.1 ∧
  (∀ l, l ∈ dom st.2 → r.2.2 !! l = st.2 !! l) ∧
  covered r.2.1 v ∧
  r.1 = rename r.2.1 v ∧
  (∀ l l', r.2.1 !! l = Some l' → st.1 !! l = None →
           (l' ∉ dom st.2) ∧ copied src r.2.1 r.2.2 l l').

(** [h2] is a later heap than [h1], itself later than [h0], in which the
    objects allocated between [h0] and [h1] are as in [h1]: whatever was
    done since [h1] was done to objects that already existed in [h0], or to
    objects allocated after [h1]. *)
Definition mutated_outside (h0 h1 h2 : heap) : Prop :=
  ∀ l, l ∈ dom h1 → l ∉ dom h0 → h2 !! l = h1 !! l.

End HeapSpec.

Module CollaborationManagerSpec.
Import CollaborationManager.

(** Lexicographic order on resource ids. *)
Definition lexicographic (l : list string) : Prop :=
  Sorted (λ a b, String.leb a b = true) l.

(** The locking rule as the design document words it: whatever the order
    of declaration, the locks are acquired in lexicographic order of their
    resource ids. *)
Definition acquires_in_lexicographic_order {Ext : Type} (clock : nat → Z)
    (systemId : string) : Prop :=
  ∀ resources (w : World Ext) locks w',
    acquireLocks Ext clock systemId resources w = (Return locks, w') →
    ∃ acquired,
      acquired_resources (steps Ext w')
        = acquired_resources (steps Ext w) ++ acquired ∧
      lexicographic acquired.

(** The release rule as the design document words it, for one run of the
    coordinator that went from [w] to [w']: every lock acquired during the
    run has been released, once. *)
Definition releases_what_it_acquired {Ext : Type} (w w' : World Ext) : Prop :=
  ∃ run,
    steps Ext w' = steps Ext w ++ run ∧
    released_resources run ≡ₚ acquired_resources run.

End CollaborationManagerSpec.

(** ** Concrete inputs used by the examples below *)

Module Examples.
Import SecurityFramework.

Definition unsigned_message : EnhancedMessage :=
  {| id := Some "1"; method := Some "tools/list"; params := None;
     signature := None; context := None |}.

Definition a_signature : CryptographicSignature :=
  {| algorithm := "RSA-SHA256"; publicKey := "pk"; signature_value := "c2ln" |}.

Definition a_context : OperationContext :=
  {| sessionId := "sess_1"; userId := Some "alice"; timestamp := "t0";
     correlationId := "corr_1"; parentOperation := None |}.

Definition signed_message : EnhancedMessage :=
  {| id := Some "2"; method := Some "tools/call"; params := None;
     signature := Some a_signature; context := Some a_context |}.

Definition stringify : EnhancedMessage → completion string :=
  λ _, Return "{}".

Definition verifier_accepts : string → completion Verify :=
  λ _, Return (λ _ _ _, Return true).

Definition verifier_rejects : string → completion Verify :=
  λ _, Return (λ _ _ _, Return false).

Definition lookup_permissions
    : option string → gmap string (list Permission)
      → completion (list Permission) :=
  λ user table,
    match user with
    | Some u => Return (default [] (table !! u))
    | None => Return []
    end.

Definition alice_permissions : list Permission :=
  [ {| resource := "files"; actions := [ {| type := read |}; {| type := write |} ];
       auditRequired := false |};
    {| resource := "tools"; actions := [ {| type := execute |} ];
       auditRequired := true |} ].

Definition limits : ResourceLimits :=
  {| memory_mb := 512; cpu_percent := 50; disk_mb := 100;
     network_bandwidth_kbps := 1000; execution_time_seconds := 300 |}.

Definition container_config : SandboxConfiguration :=
  {| config_id := "sb-1"; config_type := container; resources := limits;
     capabilities := ["compute"] |}.

Definition vm_config : SandboxConfiguration :=
  {| config_id := "sb-1"; config_type := vm; resources := limits;
     capabilities := ["compute"; "file_read"] |}.

Definition initialize_ok : SandboxConfiguration → completion unit :=
  λ _, Return tt.

Definition empty_state : State :=
  {| this_permissions := ∅; this_sandboxes := ∅; this_auditLog := [] |}.

Definition alice_state : State :=
  {| this_permissions := {[ "alice" := alice_permissions ]};
     this_sandboxes := {[ "sb-1" := {| sandbox_config := container_config |} ]};
     this_auditLog := [] |}.

Definition always_fails : nat → completion unit :=
  λ k, Throw (Error.new ("attempt " +:+ pretty k +:+ " failed")).

Definition fails_twice : nat → completion unit :=
  λ k, if (k <? 2)%nat then Throw (Error.new "busy") else Return tt.

Definition exponential_retry : EnhancedErrorHandler.RecoveryStrategy :=
  {| EnhancedErrorHandler.type := "retry";
     EnhancedErrorHandler.maxAttempts := Some 3;
     EnhancedErrorHandler.baseDelay := Some 100;
     EnhancedErrorHandler.backoffStrategy := Some "exponential";
     EnhancedErrorHandler.operation := always_fails |}.

Definition negative_retry : EnhancedErrorHandler.RecoveryStrategy :=
  {| EnhancedErrorHandler.type := "retry";
     EnhancedErrorHandler.maxAttempts := Some (-1);
     EnhancedErrorHandler.baseDelay := Some 100;
     EnhancedErrorHandler.backoffStrategy := Some "exponential";
     EnhancedErrorHandler.operation := always_fails |}.

Definition no_recovery
    : EnhancedErrorHandler.RecoveryStrategy
      → Eff EnhancedErrorHandler.World bool :=
  λ _, Eff.ret false.

Definition empty_world : EnhancedErrorHandler.World :=
  {| EnhancedErrorHandler.this_circuitBreakers := ∅;
     EnhancedErrorHandler.this_checkpoints := ∅;
     EnhancedErrorHandler.heap_of := ∅;
     EnhancedErrorHandler.trace := [] |}.

(** A clock that advances by one millisecond from one reading to the
    next. *)
Definition ticking : nat → Z := λ k, 1000 + Z.of_nat k.

(** A clock whose first seven readings are one millisecond apart, and which
    has moved by more than the five minutes of a lease at the eighth. *)
Definition slow_run : nat → Z :=
  λ k, if (k <? 7)%nat then 1000 + Z.of_nat k else 400000 + Z.of_nat k.

Definition quiet_bus
    : CollaborationManager.SystemEvent
      → list CollaborationManager.ResourceLock * ()
      → completion () * (list CollaborationManager.ResourceLock * ()) :=
  λ _ x, (Return tt, x).

(** A bus that accepts [operation_started] and throws on every other event. *)
Definition bus_down_at_completion
    : CollaborationManager.SystemEvent
      → list CollaborationManager.ResourceLock * ()
      → completion () * (list CollaborationManager.ResourceLock * ()) :=
  λ ev x,
    if String.eqb (CollaborationManager.type ev) "operation_started"
    then (Return tt, x)
    else (Throw (Error.new "bus unavailable"), x).

Definition run_ok
    : CollaborationManager.CollaborativeOperation
      → list CollaborationManager.ResourceLock * ()
      → completion string * (list CollaborationManager.ResourceLock * ()) :=
  λ _ x, (Return "done", x).

Definition run_fails
    : CollaborationManager.CollaborativeOperation
      → list CollaborationManager.ResourceLock * ()
      → completion string * (list CollaborationManager.ResourceLock * ()) :=
  λ _ x, (Throw (Error.new "execution failed"), x).

(** The lease that [instance-2] has on [b], from time 0 to 300000. *)
Definition lease_of_instance_2 : CollaborationManager.ResourceLock :=
  {| CollaborationManager.resource_id := "b";
     CollaborationManager.lock_type := CollaborationManager.exclusive;
     CollaborationManager.holder := "instance-2";
     CollaborationManager.acquired_at := 0;
     CollaborationManager.expires_at := 300000;
     CollaborationManager.renewable := true |}.

(** The lease that [instance-2] gets on [b] once that of the coordinator
    has run out. *)
Definition later_lease_of_instance_2 : CollaborationManager.ResourceLock :=
  {| CollaborationManager.resource_id := "b";
     CollaborationManager.lock_type := CollaborationManager.exclusive;
     CollaborationManager.holder := "instance-2";
     CollaborationManager.acquired_at := 350000;
     CollaborationManager.expires_at := 650000;
     CollaborationManager.renewable := true |}.

(** An execution that outlasts the leases: meanwhile the lease on [b] has
    expired and [instance-2] has been granted the lock. *)
Definition run_outlasts_lease
    : CollaborationManager.CollaborativeOperation
      → list CollaborationManager.ResourceLock * ()
      → completion string * (list CollaborationManager.ResourceLock * ()) :=
  λ _ x,
    (Return "done",
     (later_lease_of_instance_2
        :: List.filter
             (λ lk, negb (CollaborationManager.on_resource "b" lk)) x.1,
      x.2)).

Definition idle : CollaborationManager.World () :=
  {| CollaborationManager.lock_table := [];
     CollaborationManager.steps := [];
     CollaborationManager.ext := tt;
     CollaborationManager.clock_reads := 0 |}.

(** Nothing is going on here, and [instance-2] holds [b]. *)
Definition b_held_elsewhere : CollaborationManager.World () :=
  {| CollaborationManager.lock_table := [lease_of_instance_2];
     CollaborationManager.steps := [];
     CollaborationManager.ext := tt;
     CollaborationManager.clock_reads := 0 |}.

Definition op_b_a : CollaborationManager.CollaborativeOperation :=
  {| CollaborationManager.id := "op-1";
     CollaborationManager.source := "instance-1";
     CollaborationManager.resources := ["b"; "a"] |}.

Definition op_a_a : CollaborationManager.CollaborativeOperation :=
  {| CollaborationManager.id := "op-2";
     CollaborationManager.source := "instance-1";
     CollaborationManager.resources := ["a"; "a"] |}.

Definition op_a_b : CollaborationManager.CollaborativeOperation :=
  {| CollaborationManager.id := "op-3";
     CollaborationManager.source := "instance-1";
     CollaborationManager.resources := ["a"; "b"] |}.

(** [{ count: 1, items: <ref 2> }] with [items = { first: "a", owner: <ref 1> }]:
    two objects that point to each other. *)
Definition live_heap : Heap.heap :=
  {[ (1%positive) :=
       Heap.CObject [("count", Heap.VPrim (Heap.PNumber 1));
                     ("items", Heap.VRef 2%positive)];
     (2%positive) :=
       Heap.CObject [("first", Heap.VPrim (Heap.PString "a"));
                     ("owner", Heap.VRef 1%positive)] ]}.

Definition live_world : EnhancedErrorHandler.World :=
  {| EnhancedErrorHandler.this_circuitBreakers := ∅;
     EnhancedErrorHandler.this_checkpoints := ∅;
     EnhancedErrorHandler.heap_of := live_heap;
     EnhancedErrorHandler.trace := [] |}.

End Examples.

(** ** Further methods of the classes *)

Module SandboxExecution.
Import SecurityFramework.

Section Methods.
(** What the operation run in the sandbox returns. *)
Variable Result : Type.
(** [sandbox.execute(operation)], delegated to the isolation backend; the
    operation is a closure and may itself use the framework. *)
Variable sandbox_execute :
  SandboxEnvironment → Eff State Result → Eff State Result.

Definition executeInSandbox (sandboxId : string)
    (operation : Eff State Result) : Eff State Result :=
  λ this,
    match this_sandboxes this !! sandboxId with
    | None =>
        (Throw (Error.new ("Sandbox " +:+ sandboxId +:+ " not found")), this)
    | Some sandbox => sandbox_execute sandbox operation this
    end.
End Methods.

(** The order [low < medium < high < critical] of the risk levels. *)
Definition risk_rank (r : RiskLevel) : nat :=
  match r with low => 0 | medium => 1 | high => 2 | critical => 3 end.

Definition risk_max (r1 r2 : RiskLevel) : RiskLevel :=
  if (risk_rank r1 <? risk_rank r2)%nat then r2 else r1.

End SandboxExecution.

Module RetryAccounting.
Import EnhancedErrorHandler.

(** The time spent in [sleep], in milliseconds. *)
Fixpoint slept (t : list Effect) : Z :=
  match t with
  | [] => 0
  | Invoked :: t' => slept t'
  | Slept ms :: t' => ms + slept t'
  end.

Definition sleeps (t : list Effect) : nat :=
  length (List.filter (λ e, negb (is_invoked e)) t).

End RetryAccounting.

Module CheckpointStore.
Import Heap EnhancedErrorHandler.

(** Every object that [v] reaches exists. *)
Definition closed (h : heap) (v : value) : Prop :=
  ∀ l, reachable h v l → l ∈ dom h.

(** [v'] is [v] itself or the value of a property of an object that [v]
    reaches. *)
Definition holds (h : heap) (v v' : value) : Prop :=
  v' = v ∨
  ∃ l fs k, reachable h v l ∧ h !! l = Some (CObject fs) ∧ (k, v') ∈ fs.

(** What the structured clone algorithm refuses: a symbol, a function (and
    an address where there is no object). *)
Definition uncloneable (h : heap) (v : value) : Prop :=
  match v with
  | VPrim p => is_symbol p = true
  | VRef l => h !! l = None ∨ h !! l = Some CFunction
  end.

(** [v] is, or reaches, something the structured clone algorithm refuses. *)
Definition reaches_uncloneable (h : heap) (v : value) : Prop :=
  ∃ v', holds h v v' ∧ uncloneable h v'.

(** The stored snapshots reach existing objects only, and no object is
    reached by the snapshots of two checkpoints. *)
Definition isolated (w : World) : Prop :=
  (∀ i cp, this_checkpoints w !! i = Some cp →
           closed (heap_of w) (state_snapshot cp)) ∧
  (∀ i j cp cq l,
     this_checkpoints w !! i = Some cp → this_checkpoints w !! j = Some cq →
     i ≠ j →
     reachable (heap_of w) (state_snapshot cp) l →
     ¬ reachable (heap_of w) (state_snapshot cq) l).

End CheckpointStore.


(** ** Intelligent tool discovery *)

Module IntelligentToolRegistry.

Record ToolSemantics := {
  ontology : string;
  categories : list string;
  capabilities : list string;
  side_effects : list string;
  idempotent : bool;
  deterministic : bool
}.

(** The fields of [EnhancedTool] that the registry reads or writes;
    [inputSchema] is the JSON schema, [performance] the metrics object. *)
Record EnhancedTool := {
  name : string;
  description : string;
  inputSchema : option string;
  semantics : option ToolSemantics;
  performance : option string
}.

Record WorkflowStep := {
  tool : string;
  inputs : string;
  outputs : string;
  conditions : list string;
  retry_policy : string
}.

Record ErrorHandling := {
  strategy : string;
  max_retries : Z;
  timeout_seconds : Z
}.

Record RollbackStrategy := {
  automatic : bool;
  preserve_intermediate_results : bool
}.

Record ToolWorkflow := {
  workflow_id : string;
  workflow_name : string;
  workflow_description : string;
  steps : list WorkflowStep;
  error_handling : ErrorHandling;
  rollback_strategy : RollbackStrategy
}.

(** A reference to a tool object. *)
Definition ref := positive.

(** The private maps of the class, and the tool objects: [this.tools] holds
    references to the objects that the callers passed to [registerTool],
    not copies of them. *)
Record State := {
  this_tools : gmap string ref;
  this_workflows : gmap string ToolWorkflow;
  objects : gmap ref EnhancedTool
}.

(** [this.tools.set(k, tool)] *)
Definition set_tool (k : string) (tool : ref) (s : State) : State :=
  {| this_tools := <[k := tool]> (this_tools s);
     this_workflows := this_workflows s;
     objects := objects s |}.

Definition set_workflow (wf : ToolWorkflow) (s : State) : State :=
  {| this_tools := this_tools s;
     this_workflows := <[workflow_id wf := wf]> (this_workflows s);
     objects := objects s |}.

(** [this.tools.get(k)], as far as its fields go. *)
Definition get_tool (s : State) (k : string) : option EnhancedTool :=
  this_tools s !! k ≫= λ tool, objects s !! tool.

(** [tool.semantics = sem] and [tool.performance = perf], on the object
    itself. *)
Definition with_semantics (sem : ToolSemantics) (t : EnhancedTool)
    : EnhancedTool :=
  {| name := name t; description := description t;
     inputSchema := inputSchema t;
     semantics := Some sem; performance := performance t |}.

Definition with_performance (perf : string) (t : EnhancedTool)
    : EnhancedTool :=
  {| name := name t; description := description t;
     inputSchema := inputSchema t;
     semantics := semantics t; performance := Some perf |}.

(** The object after the two assignments. *)
Definition enriched (sem : ToolSemantics) (perf : string) (t : EnhancedTool)
    : EnhancedTool :=
  with_performance perf (with_semantics sem t).

Definition assign (tool : ref) (f : EnhancedTool → EnhancedTool) (s : State)
    : State :=
  {| this_tools := this_tools s;
     this_workflows := this_workflows s;
     objects := alter f tool (objects s) |}.

Definition type_error : Error.t :=
  {| Error.name := "TypeError";
     Error.message := "Cannot read properties of undefined (reading 'name')" |}.

(** Reading a field of [tool]; a reference without an object stands for
    [undefined], on which the first read, that of [tool.name], throws. *)
Definition deref (tool : ref) : Eff State EnhancedTool :=
  λ s, match objects s !! tool with
       | Some t => (Return t, s)
       | None => (Throw type_error, s)
       end.

(** [!tool.name || !tool.inputSchema]: the empty name and the missing
    schema are falsy. *)
Definition validateLegacyCompatibility (tool : EnhancedTool)
    : completion unit :=
  if String.eqb (name tool) "" || negb (bool_decide (is_Some (inputSchema tool)))
  then Throw (Error.new
         "Tool missing required legacy fields for backwards compatibility")
  else Return tt.

(** [`wf_${Date.now()}_${Math.random().toString(36).substr(2, 9)}`] *)
Definition generateWorkflowId (date_now random : string) : string :=
  "wf_" +:+ date_now +:+ "_" +:+ random.

Section Methods.
(** The analyses that [enrichSemantics], [registerTool] and
    [composeWorkflow] call; their bodies are not part of the class as
    published.  They are given the fields of the tool as they are at the
    time of the call.  They may throw; they write neither to the two maps
    nor to the tool objects. *)
Variable getRelevantOntology : EnhancedTool → completion string.
Variable inferCategories : EnhancedTool → completion (list string).
Variable extractCapabilities : EnhancedTool → completion (list string).
Variable analyzeSideEffects : EnhancedTool → completion (list string).
Variable isIdempotent : EnhancedTool → completion bool.
Variable isDeterministic : EnhancedTool → completion bool.
Variable initializeMetrics : string → completion string.
Variable Graph : Type.
Variable buildDependencyGraph : list string → completion Graph.
Variable topologicalSort : Graph → completion (list string).
Variable inferInputMappings :
  option EnhancedTool → list WorkflowStep → completion string.
Variable inferOutputMappings : option EnhancedTool → completion string.
Variable generateConditions : option EnhancedTool → completion (list string).
Variable generateRetryPolicy : option EnhancedTool → completion string.

Local Open Scope eff_scope.

Definition enrichSemantics (tool : EnhancedTool) : Eff State ToolSemantics :=
  let* o := Eff.lift (getRelevantOntology tool) in
  let* c := Eff.lift (inferCategories tool) in
  let* k := Eff.lift (extractCapabilities tool) in
  let* e := Eff.lift (analyzeSideEffects tool) in
  let* i := Eff.lift (isIdempotent tool) in
  let* d := Eff.lift (isDeterministic tool) in
  Eff.ret {| ontology := o; categories := c; capabilities := k;
             side_effects := e; idempotent := i; deterministic := d |}.

(** The two assignments are made on the object of the caller, one after
    the other, and that object is what [this.tools] then refers to. *)
Definition registerTool (tool : ref) : Eff State unit :=
  let* t := deref tool in
  Eff.lift (validateLegacyCompatibility t) ;;;
  let* sem := enrichSemantics t in
  Eff.modify (assign tool (with_semantics sem)) ;;;
  let* t := deref tool in
  let* perf := Eff.lift (initializeMetrics (name t)) in
  Eff.modify (assign tool (with_performance perf)) ;;;
  let* t := deref tool in
  Eff.modify (set_tool (name t) tool).

(** The loop of [composeWorkflow] over the execution order, with the steps
    pushed so far. *)
Fixpoint compose_steps (order : list string) (steps : list WorkflowStep)
    : Eff State (list WorkflowStep) :=
  match order with
  | [] => Eff.ret steps
  | toolName :: rest =>
      let* this := Eff.get in
      let tool := get_tool this toolName in
      let* i := Eff.lift (inferInputMappings tool steps) in
      let* o := Eff.lift (inferOutputMappings tool) in
      let* c := Eff.lift (generateConditions tool) in
      let* r := Eff.lift (generateRetryPolicy tool) in
      compose_steps rest
        (steps ++ [{| tool := toolName; inputs := i; outputs := o;
                      conditions := c; retry_policy := r |}])
  end.

(** [date_now] and [random] are the readings used by
    [generateWorkflowId]. *)
Definition composeWorkflow (date_now random : string) (tools : list string)
    (goal : string) : Eff State ToolWorkflow :=
  let* dependencyGraph := Eff.lift (buildDependencyGraph tools) in
  let* executionOrder := Eff.lift (topologicalSort dependencyGraph) in
  let* steps := compose_steps executionOrder [] in
  let workflow :=
    {| workflow_id := generateWorkflowId date_now random;
       workflow_name := "Auto-generated workflow for: " +:+ goal;
       workflow_description :=
         "Automatically composed workflow to achieve: " +:+ goal;
       steps := steps;
       error_handling := {| strategy := "rollback_on_failure";
                            max_retries := 3;
                            timeout_seconds := 300 |};
       rollback_strategy := {| automatic := true;
                               preserve_intermediate_results := false |} |} in
  Eff.modify (set_workflow workflow) ;;;
  Eff.ret workflow.

End Methods.

(** Every registered name refers to an object, which carries that name, has
    an input schema, and has its semantics and metrics filled in. *)
Definition well_formed (s : State) : Prop :=
  ∀ k tool, this_tools s !! k = Some tool →
    ∃ t, objects s !! tool = Some t ∧
      k = name t ∧ name t ≠ "" ∧ is_Some (inputSchema t) ∧
      is_Some (semantics t) ∧ is_Some (performance t).

End IntelligentToolRegistry.

(** ** Human-centric interface *)

Module HumanInterface.

Record ConsentRequest := {
  request_id_of : string;               (* [id] *)
  operation : string;
  permissions_requested : list string;
  data_access : list string
}.

Record ConsentResponse := {
  request_id : string;
  granted : bool;
  conditions : list string;
  timestamp : string
}.

Section Methods.
(** The state of the explanation engine and of the consent manager. *)
Variable S : Type.
Variable HumanExplanation : Type.
Variable TimeEstimate : Type.
Variable RiskAssessment : Type.
(** [this.explanationEngine.generateExplanation(operation)] *)
Variable generateExplanation : ConsentRequest → Eff S HumanExplanation.
(** [this.estimateTime] and [this.assessRisk]: called by [createConsentUI],
    their bodies are not part of the class as published. *)
Variable estimateTime : ConsentRequest → completion TimeEstimate.
Variable assessRisk : ConsentRequest → completion RiskAssessment.
(** [this.consentManager.recordConsent(operation, response)] *)
Variable recordConsent : ConsentRequest → ConsentResponse → Eff S unit.

(** The object built by [createConsentUI]; [requestId] is read by
    [waitForUserConsent] and set nowhere. *)
Record ConsentUI := {
  title : string;
  explanation : HumanExplanation;
  permissions : list string;
  dataAccess : list string;
  actions : list string;
  timeEstimate : TimeEstimate;
  riskAssessment : RiskAssessment;
  requestId : option string
}.

Local Open Scope eff_scope.

Definition createConsentUI (request : ConsentRequest)
    (explanation : HumanExplanation) : Eff S ConsentUI :=
  let* t := Eff.lift (estimateTime request) in
  let* r := Eff.lift (assessRisk request) in
  Eff.ret {| title := "Permission Request: " +:+ operation request;
             explanation := explanation;
             permissions := permissions_requested request;
             dataAccess := data_access request;
             actions := ["approve"; "deny"; "customize"];
             timeEstimate := t;
             riskAssessment := r;
             requestId := None |}.

(** [x || 'mock'] on an optional string: [undefined] and [''] are falsy. *)
Definition or_mock (x : option string) : string :=
  match x with
  | Some s => if String.eqb s "" then "mock" else s
  | None => "mock"
  end.

(** The response resolved by the timer; [now] is the reading of
    [new Date().toISOString()] when it fires. *)
Definition waitForUserConsent (now : string) (ui : ConsentUI)
    : Eff S ConsentResponse :=
  Eff.ret {| request_id := or_mock (requestId ui);
             granted := true;
             conditions := [];
             timestamp := now |}.

Definition requestConsent (now : string) (operation : ConsentRequest)
    : Eff S ConsentResponse :=
  let* explanation := generateExplanation operation in
  let* consentUI := createConsentUI operation explanation in
  let* response := waitForUserConsent now consentUI in
  recordConsent operation response ;;;
  Eff.ret response.

End Methods.
End HumanInterface.

(** ** The server *)

Module EnhancedMCPServerImpl.
Import SecurityFramework.

(** The response message: [{ jsonrpc, id, result?, error? }]. *)
Record Response (EnhancedError : Type) := {
  jsonrpc : string;
  response_id : option string;
  result : option string;
  error : option EnhancedError
}.
Arguments jsonrpc {_} _.
Arguments response_id {_} _.
Arguments result {_} _.
Arguments error {_} _.

Section Methods.
(** The rest of the server: registries, error handler, handlers' data. *)
Variable App : Type.
Variable EnhancedError : Type.

Record State := {
  securityFramework : SecurityFramework.State;
  app : App
}.

Variable JSON_stringify : EnhancedMessage → completion string.
Variable crypto_createVerify : string → completion Verify.
Variable getPermissions :
  option string → gmap string (list Permission) → completion (list Permission).
(** [this.errorHandler.handleError(error, context)] *)
Variable handleError : Error.t → OperationContext → Eff State EnhancedError.
(** The four handlers that [processEnhancedMessage] routes to; their bodies
    are not part of the class as published. *)
Variable handleToolsList : EnhancedMessage → Eff State (Response EnhancedError).
Variable handleToolsCall : EnhancedMessage → Eff State (Response EnhancedError).
Variable handleResourcesList :
  EnhancedMessage → Eff State (Response EnhancedError).
Variable handleLegacyMessage :
  EnhancedMessage → Eff State (Response EnhancedError).

(** A method of the security framework, run on the server's state. *)
Definition on_security {A} (m : Eff SecurityFramework.State A) : Eff State A :=
  λ s, let '(c, sf) := m (securityFramework s) in
       (c, {| securityFramework := sf; app := app s |}).

(** [{ ...message, context: { sessionId, timestamp, correlationId }, ... }]:
    the fields of the message are copied and [context] is replaced;
    [session] and [correlation] are the generated ids, [now] the clock
    reading. *)
Definition enhanceMessage (session correlation now : string)
    (message : EnhancedMessage) : EnhancedMessage :=
  {| id := id message;
     method := method message;
     params := params message;
     signature := signature message;
     context := Some {| sessionId := session;
                        userId := None;
                        timestamp := now;
                        correlationId := correlation;
                        parentOperation := None |} |}.

Definition method_is (message : EnhancedMessage) (m : string) : bool :=
  match method message with
  | Some m' => String.eqb m' m
  | None => false
  end.

Definition processEnhancedMessage (message : EnhancedMessage)
    : Eff State (Response EnhancedError) :=
  if method_is message "tools/list" then handleToolsList message
  else if method_is message "tools/call" then handleToolsCall message
  else if method_is message "resources/list" then handleResourcesList message
  else handleLegacyMessage message.

Local Open Scope eff_scope.

(** [audit_now] is the clock reading in the [catch] block of
    [authenticateRequest]. *)
Definition handleMessage (session correlation now audit_now : string)
    (message : EnhancedMessage) : Eff State (Response EnhancedError) :=
  let enhancedMessage := enhanceMessage session correlation now message in
  Eff.try_catch
    (on_security
       (authenticateRequest JSON_stringify crypto_createVerify getPermissions
          audit_now enhancedMessage) ;;;
     processEnhancedMessage enhancedMessage)
    (λ error,
       let* enhancedError :=
         handleError error
           {| sessionId := session; userId := None; timestamp := now;
              correlationId := correlation; parentOperation := None |} in
       Eff.ret {| jsonrpc := "2.0";
                  response_id := id message;
                  result := None;
                  error := Some enhancedError |}).

End Methods.
End EnhancedMCPServerImpl.

(** ** The file analysis workflow: automatic recovery *)

Module SecureFileAnalysisWorkflow.
Import EnhancedErrorHandler.

Section Methods.
Variable executeFallback : RecoveryStrategy → Eff World bool.
Variable rollbackToCheckpoint : RecoveryStrategy → Eff World bool.

(** The loop of [attemptRecovery] over [error.recovery.automatic]; the
    [catch] block only writes to the console. *)
Fixpoint attemptRecovery (automatic : list RecoveryStrategy) (w : World)
    : option (completion bool * World) :=
  match automatic with
  | [] => Some (Return false, w)
  | recovery :: rest =>
      match EnhancedErrorHandler.attemptRecovery executeFallback
              rollbackToCheckpoint recovery w with
      | None => None
      | Some (Return success, w1) =>
          if success then Some (Return true, w1) else attemptRecovery rest w1
      | Some (Throw recoveryError, w1) => attemptRecovery rest w1
      end
  end.

End Methods.
End SecureFileAnalysisWorkflow.

(** ** Error reports *)

Module ErrorReporting.
Import EnhancedErrorHandler.

Record ErrorClassification (Category Severity : Type) := {
  category : Category;
  severity : Severity;
  transient : bool;
  user_actionable : bool
}.
Arguments category {_ _} _.
Arguments severity {_ _} _.
Arguments transient {_ _} _.
Arguments user_actionable {_ _} _.

Record ErrorContext (SystemState : Type) := {
  error_id : string;
  timestamp : string;
  operation : string;
  user_action : string;
  system_state : SystemState;
  stack_trace : option (list string);
  related_errors : list string
}.
Arguments error_id {_} _.
Arguments timestamp {_} _.
Arguments operation {_} _.
Arguments user_action {_} _.
Arguments system_state {_} _.
Arguments stack_trace {_} _.
Arguments related_errors {_} _.

Record EnhancedError
    (SystemState Recovery Category Severity Impacts : Type) := {
  code : Z;
  message : string;
  context : ErrorContext SystemState;
  recovery : Recovery;
  classification : ErrorClassification Category Severity;
  impacts : Impacts
}.
Arguments code {_ _ _ _ _} _.
Arguments message {_ _ _ _ _} _.
Arguments context {_ _ _ _ _} _.
Arguments recovery {_ _ _ _ _} _.
Arguments classification {_ _ _ _ _} _.
Arguments impacts {_ _ _ _ _} _.

(** JSON-RPC error codes by the name of the error. *)
Definition mapErrorToCode (error : Error.t) : Z :=
  if String.eqb (Error.name error) "ValidationError" then -32602
  else if String.eqb (Error.name error) "NotFoundError" then -32601
  else if String.eqb (Error.name error) "PermissionError" then -32000
  else -32603.

(** [`err_${Date.now()}_${Math.random().toString(36).substr(2, 9)}`] *)
Definition generateErrorId (date_now random : string) : string :=
  "err_" +:+ date_now +:+ "_" +:+ random.

Section Methods.
Variable SystemState Recovery Category Severity Impacts : Type.
(** The collaborators of [handleError] and [classifyError]; their bodies
    are not part of the class as published. *)
Variable captureSystemState : Eff World SystemState.
Variable generateRecoveryOptions :
  Error.t → SecurityFramework.OperationContext → Eff World Recovery.
Variable determineCategory : Error.t → completion Category.
Variable determineSeverity : Error.t → completion Severity.
Variable isTransient : Error.t → completion bool.
Variable isUserActionable : Error.t → completion bool.
Variable assessImpacts :
  Error.t → SecurityFramework.OperationContext → Eff World Impacts.
Variable updateCircuitBreaker : string → Error.t → Eff World unit.
(** [error.stack?.split('\n')] *)
Variable stack_lines : Error.t → option (list string).

Local Open Scope eff_scope.

Definition classifyError (error : Error.t)
    : Eff World (ErrorClassification Category Severity) :=
  let* c := Eff.lift (determineCategory error) in
  let* s := Eff.lift (determineSeverity error) in
  let* t := Eff.lift (isTransient error) in
  let* u := Eff.lift (isUserActionable error) in
  Eff.ret {| category := c; severity := s; transient := t;
             user_actionable := u |}.

(** [date_now], [random] and [iso_now] are the readings of the clock and of
    the random generator. *)
Definition handleError (date_now random iso_now : string) (error : Error.t)
    (context : SecurityFramework.OperationContext)
    : Eff World
        (EnhancedError SystemState Recovery Category Severity Impacts) :=
  let code := mapErrorToCode error in
  let error_id := generateErrorId date_now random in
  let* system_state := captureSystemState in
  let* recovery := generateRecoveryOptions error context in
  let* classification := classifyError error in
  let* impacts := assessImpacts error context in
  let enhancedError :=
    {| code := code;
       message := Error.message error;
       context := {| error_id := error_id;
                     timestamp := iso_now;
                     operation := SecurityFramework.correlationId context;
                     user_action := "unknown";
                     system_state := system_state;
                     stack_trace := stack_lines error;
                     related_errors := [] |};
       recovery := recovery;
       classification := classification;
       impacts := impacts |} in
  updateCircuitBreaker (SecurityFramework.correlationId context) error ;;;
  Eff.ret enhancedError.

End Methods.
End ErrorReporting.

Module MoreExamples.
Import Heap EnhancedErrorHandler.

(** [{ onDone: <function> }] *)
Definition heap_with_callback : heap :=
  {[ (1%positive) := CObject [("onDone", VRef 2%positive)];
     (2%positive) := CFunction ]}.

Definition callback_world : World :=
  {| this_circuitBreakers := ∅; this_checkpoints := ∅;
     heap_of := heap_with_callback; trace := [] |}.

(** [{ tag: Symbol("t") }] *)
Definition heap_with_symbol : heap :=
  {[ (1%positive) := CObject [("tag", VPrim (PSymbol "t"))] ]}.

Definition symbol_world : World :=
  {| this_circuitBreakers := ∅; this_checkpoints := ∅;
     heap_of := heap_with_symbol; trace := [] |}.

(** The world after a first checkpoint of the two objects of
    [Examples.live_heap]. *)
Definition checkpointed_world : World :=
  match createCheckpoint "1700000000000" "k3j9x2m1q"
          "2023-11-14T22:13:20.000Z" "op-7" (VRef 1%positive)
          Examples.live_world with
  | Some (_, w) => w
  | None => Examples.live_world
  end.

Definition calculator_tool : IntelligentToolRegistry.EnhancedTool :=
  {| IntelligentToolRegistry.name := "calculator";
     IntelligentToolRegistry.description := "Perform basic calculations";
     IntelligentToolRegistry.inputSchema := Some "{}";
     IntelligentToolRegistry.semantics := None;
     IntelligentToolRegistry.performance := None |}.

Definition nameless_tool : IntelligentToolRegistry.EnhancedTool :=
  {| IntelligentToolRegistry.name := "";
     IntelligentToolRegistry.description := "no name";
     IntelligentToolRegistry.inputSchema := Some "{}";
     IntelligentToolRegistry.semantics := None;
     IntelligentToolRegistry.performance := None |}.

Definition math_semantics : IntelligentToolRegistry.ToolSemantics :=
  {| IntelligentToolRegistry.ontology :=
       "https://schema.org/MathematicalOperation";
     IntelligentToolRegistry.categories := ["math"];
     IntelligentToolRegistry.capabilities := ["arithmetic"];
     IntelligentToolRegistry.side_effects := [];
     IntelligentToolRegistry.idempotent := true;
     IntelligentToolRegistry.deterministic := true |}.

Definition registered_calculator : IntelligentToolRegistry.EnhancedTool :=
  {| IntelligentToolRegistry.name := "calculator";
     IntelligentToolRegistry.description := "Perform basic calculations";
     IntelligentToolRegistry.inputSchema := Some "{}";
     IntelligentToolRegistry.semantics := Some math_semantics;
     IntelligentToolRegistry.performance := Some "metrics" |}.

Definition registered_search : IntelligentToolRegistry.EnhancedTool :=
  {| IntelligentToolRegistry.name := "search";
     IntelligentToolRegistry.description := "Search the documents";
     IntelligentToolRegistry.inputSchema := Some "{}";
     IntelligentToolRegistry.semantics := Some math_semantics;
     IntelligentToolRegistry.performance := Some "metrics" |}.

(** No tool is registered; the callers hold a calculator (object 1) and a
    tool without a name (object 2). *)
Definition empty_registry : IntelligentToolRegistry.State :=
  {| IntelligentToolRegistry.this_tools := ∅;
     IntelligentToolRegistry.this_workflows := ∅;
     IntelligentToolRegistry.objects :=
       {[ (1%positive) := calculator_tool; (2%positive) := nameless_tool ]} |}.

(** The calculator (object 1) and the search tool (object 2) are
    registered. *)
Definition busy_registry : IntelligentToolRegistry.State :=
  {| IntelligentToolRegistry.this_tools :=
       {[ "calculator" := 1%positive; "search" := 2%positive ]};
     IntelligentToolRegistry.this_workflows := ∅;
     IntelligentToolRegistry.objects :=
       {[ (1%positive) := registered_calculator;
          (2%positive) := registered_search ]} |}.

(** Object 1 was registered as [calc]; its owner has since renamed it
    [calculator]. *)
Definition renamed_registry : IntelligentToolRegistry.State :=
  {| IntelligentToolRegistry.this_tools := {[ "calc" := 1%positive ]};
     IntelligentToolRegistry.this_workflows := ∅;
     IntelligentToolRegistry.objects :=
       {[ (1%positive) := registered_calculator ]} |}.

Definition text_semantics : IntelligentToolRegistry.ToolSemantics :=
  {| IntelligentToolRegistry.ontology := "https://schema.org/Text";
     IntelligentToolRegistry.categories := ["text"];
     IntelligentToolRegistry.capabilities := [];
     IntelligentToolRegistry.side_effects := ["network"];
     IntelligentToolRegistry.idempotent := false;
     IntelligentToolRegistry.deterministic := false |}.

Definition upload_request : HumanInterface.ConsentRequest :=
  {| HumanInterface.request_id_of := "workflow_1_cloud_upload";
     HumanInterface.operation := "cloud_storage_upload";
     HumanInterface.permissions_requested := ["google_drive"];
     HumanInterface.data_access := ["analysis_report"] |}.

(** A consent manager that keeps the list of the recorded responses. *)
Definition record_in_list
    : HumanInterface.ConsentRequest → HumanInterface.ConsentResponse
      → Eff (list HumanInterface.ConsentResponse) () :=
  λ _ r log, (Return tt, log ++ [r]).

Definition explain
    : HumanInterface.ConsentRequest
      → Eff (list HumanInterface.ConsentResponse) string :=
  λ _, Eff.ret "Save your analysis report to Google Drive".

Definition server_state : EnhancedMCPServerImpl.State () :=
  {| EnhancedMCPServerImpl.securityFramework := Examples.alice_state;
     EnhancedMCPServerImpl.app := tt |}.

(** An error handler that answers with the message of the error. *)
Definition report_error
    : Error.t → SecurityFramework.OperationContext
      → Eff (EnhancedMCPServerImpl.State ()) string :=
  λ e _, Eff.ret (Error.message e).

Definition answer (what : string)
    : SecurityFramework.EnhancedMessage
      → Eff (EnhancedMCPServerImpl.State ())
          (EnhancedMCPServerImpl.Response string) :=
  λ m, Eff.ret {| EnhancedMCPServerImpl.jsonrpc := "2.0";
                  EnhancedMCPServerImpl.response_id :=
                    SecurityFramework.id m;
                  EnhancedMCPServerImpl.result := Some what;
                  EnhancedMCPServerImpl.error := None |}.

(** [Examples.signed_message] without its context. *)
Definition signed_message_no_context : SecurityFramework.EnhancedMessage :=
  {| SecurityFramework.id := Some "2";
     SecurityFramework.method := Some "tools/call";
     SecurityFramework.params := None;
     SecurityFramework.signature := Some Examples.a_signature;
     SecurityFramework.context := None |}.

(** A retry of an operation whose first two calls fail. *)
Definition recovering_retry : EnhancedErrorHandler.RecoveryStrategy :=
  {| EnhancedErrorHandler.type := "retry";
     EnhancedErrorHandler.maxAttempts := None;
     EnhancedErrorHandler.baseDelay := None;
     EnhancedErrorHandler.backoffStrategy := Some "linear";
     EnhancedErrorHandler.operation := Examples.fails_twice |}.

End MoreExamples.

(* ===================================================================== *)
(** * Part II: properties *)
(* ===================================================================== *)

(** ** Security framework *)

Module SecurityFrameworkProps.
Import SecurityFramework SecurityFrameworkSpec.

Lemma existsb_is_execute perms :
  existsb (λ p, existsb is_execute (actions p)) perms = true
  ↔ grants execute perms.
Proof.
  rewrite existsb_exists. split.
  - intros (p & Hp & Ha). apply existsb_exists in Ha as (a & Ha & Hx).
    exists p, a. rewrite !list_elem_of_In. repeat split; try done.
    unfold is_execute in Hx. by destruct (type a).
  - intros (p & a & Hp & Ha & Ht). exists p.
    rewrite <- list_elem_of_In. split; [done|].
    apply existsb_exists. exists a. rewrite <- list_elem_of_In.
    split; [done|]. unfold is_execute. by rewrite Ht.
Qed.

Lemma existsb_is_write_or_delete perms :
  existsb (λ p, existsb is_write_or_delete (actions p)) perms = true
  ↔ grants write perms ∨ grants delete perms.
Proof.
  rewrite existsb_exists. split.
  - intros (p & Hp & Ha). apply existsb_exists in Ha as (a & Ha & Hx).
    unfold is_write_or_delete in Hx.
    destruct (type a) eqn:Ht; try done; [left|right];
      exists p, a; rewrite !list_elem_of_In; done.
  - intros [(p & a & Hp & Ha & Ht)|(p & a & Hp & Ha & Ht)];
      exists p; rewrite <- list_elem_of_In; (split; [done|]);
      apply existsb_exists; exists a; rewrite <- list_elem_of_In;
      (split; [done|]); unfold is_write_or_delete; by rewrite Ht.
Qed.

Lemma calculateRiskLevel_policy perms :
  (grants execute perms → calculateRiskLevel perms = critical) ∧
  (¬ grants execute perms → grants write perms ∨ grants delete perms →
     calculateRiskLevel perms = high) ∧
  (¬ grants execute perms → ¬ grants write perms → ¬ grants delete perms →
     calculateRiskLevel perms = medium).
Proof.
  unfold calculateRiskLevel.
  destruct (existsb (λ p, existsb is_execute (actions p)) perms) eqn:Hx.
  { apply existsb_is_execute in Hx.
    repeat split; intros; solve [done | tauto]. }
  assert (¬ grants execute perms) as Hnx.
  { rewrite <- existsb_is_execute. congruence. }
  destruct (existsb (λ p, existsb is_write_or_delete (actions p)) perms)
    eqn:Hw.
  { apply existsb_is_write_or_delete in Hw.
    repeat split; intros; solve [done | tauto]. }
  assert (¬ (grants write perms ∨ grants delete perms)) as Hnw.
  { rewrite <- existsb_is_write_or_delete. congruence. }
  repeat split; intros; solve [done | tauto].
Qed.

Section Props.
Variable JSON_stringify : EnhancedMessage → completion string.
Variable crypto_createVerify : string → completion Verify.
Variable getPermissions :
  option string → gmap string (list Permission) → completion (list Permission).
Variable initialize : SandboxConfiguration → completion unit.

Local Abbreviation verifySignature :=
  (verifySignature JSON_stringify crypto_createVerify).
Local Abbreviation authenticateRequest :=
  (authenticateRequest JSON_stringify crypto_createVerify getPermissions).
Local Abbreviation createSandbox := (createSandbox initialize).

(** [verifySignature] leaves the state of the framework alone. *)
Lemma verifySignature_state sig message this :
  (verifySignature sig message this).2 = this.
Proof.
  unfold SecurityFramework.verifySignature, Eff.bind, Eff.lift.
  destruct (crypto_createVerify (algorithm sig)); [|done].
  by destruct (JSON_stringify message).
Qed.

(** C1. A request without a signature is authenticated with the single
    permission [read:public], risk level [medium] and audit required; no
    error is raised and the state, audit log included, is left as it was. *)
Theorem authenticateRequest_unsigned now message this :
  signature message = None →
  authenticateRequest now message this = (Return public_read_only, this).
Proof.
  intros Hsig. unfold SecurityFramework.authenticateRequest.
  rewrite Hsig. reflexivity.
Qed.

(** C2, as the code has it.  When the signature is present and its
    verification fails (the verifier answers [false], or throws),
    [authenticateRequest] throws and appends exactly one entry to the audit
    log; the entries already there, the permissions and the sandboxes are
    unchanged.  The error is not an [AuthError]: when the verifier answered
    [false] it is the plain [Error('Invalid signature')], whose name is
    [Error]; when the verification threw, it is the error of the
    verification. *)
Theorem authenticateRequest_invalid_signature now message sig this :
  signature message = Some sig →
  (verifySignature sig message this).1 ≠ Return true →
  ∃ e entry this',
    authenticateRequest now message this = (Throw e, this') ∧
    this_auditLog this' = this_auditLog this ++ [entry] ∧
    this_permissions this' = this_permissions this ∧
    this_sandboxes this' = this_sandboxes this ∧
    event entry = "authentication_failed" ∧
    details_error entry = Error.message e ∧
    details_context entry = context message ∧
    ((verifySignature sig message this).1 = Return false →
       e = Error.new "Invalid signature" ∧ Error.name e = "Error") ∧
    (∀ e0, (verifySignature sig message this).1 = Throw e0 → e = e0).
Proof.
  intros Hsig Hbad. unfold SecurityFramework.authenticateRequest.
  rewrite Hsig. unfold Eff.try_catch, Eff.bind at 1.
  pose proof (verifySignature_state sig message this) as Hst.
  destruct (verifySignature sig message this) as [[[]|e] s]; simpl in *;
    subst s; try done.
  - eexists _, _, _. do 7 (split; [reflexivity|]).
    split; [done|]. intros e0 [=].
  - eexists _, _, _. do 7 (split; [reflexivity|]).
    split; [intros [=]|]. by intros e0 [= ->].
Qed.

(** C8. On a request whose signature verifies and whose permissions are
    resolved to [perms], the risk level of the result is [critical] when
    some permission has an [execute] action, otherwise [high] when some
    permission has a [write] or [delete] action, otherwise [medium]. *)
Theorem authenticateRequest_riskLevel now message sig this perms :
  signature message = Some sig →
  (verifySignature sig message this).1 = Return true →
  getPermissions (context message ≫= userId) (this_permissions this)
    = Return perms →
  ∃ r,
    authenticateRequest now message this = (Return r, this) ∧
    (grants execute perms → riskLevel r = critical) ∧
    (¬ grants execute perms → grants write perms ∨ grants delete perms →
       riskLevel r = high) ∧
    (¬ grants execute perms → ¬ grants write perms → ¬ grants delete perms →
       riskLevel r = medium).
Proof.
  intros Hsig Hok Hperms. unfold SecurityFramework.authenticateRequest.
  rewrite Hsig. unfold Eff.try_catch, Eff.bind at 1.
  pose proof (verifySignature_state sig message this) as Hst.
  destruct (verifySignature sig message this) as [c s]; simpl in *.
  subst s c. simpl. unfold Eff.bind, Eff.get, Eff.lift. rewrite Hperms.
  eexists. split; [reflexivity|]. simpl.
  apply calculateRiskLevel_policy.
Qed.

(** C10. Whatever the message, a result that [authenticateRequest] returns
    has [authenticated = true]; failures are thrown. *)
Theorem authenticateRequest_returns_authenticated now message this r this' :
  authenticateRequest now message this = (Return r, this') →
  authenticated r = true.
Proof.
  unfold SecurityFramework.authenticateRequest.
  destruct (signature message) as [sig|].
  - unfold Eff.try_catch, Eff.bind at 1.
    destruct (verifySignature sig message this) as [[[]|e] s]; simpl.
    + unfold Eff.bind, Eff.get, Eff.lift.
      destruct (getPermissions _ _); simpl; intros [= <- _]; done.
    + intros [=].
    + intros [=].
  - intros [= <- _]. reflexivity.
Qed.

(** C6, as the code has it.  [createSandbox] has no duplicate check: for an
    id that is already registered it initializes the new sandbox, puts it in
    the registry in place of the old one and returns the id; nothing else in
    the state changes.  When the initialization throws, that error is thrown
    and the state, the registered sandbox included, is unchanged. *)
Theorem createSandbox_registered_id config this old :
  this_sandboxes this !! config_id config = Some old →
  match initialize config with
  | Return _ =>
      ∃ this',
        createSandbox config this = (Return (config_id config), this') ∧
        this_sandboxes this' !! config_id config
          = Some {| sandbox_config := config |} ∧
        (∀ k, k ≠ config_id config →
              this_sandboxes this' !! k = this_sandboxes this !! k) ∧
        this_permissions this' = this_permissions this ∧
        this_auditLog this' = this_auditLog this
  | Throw e => createSandbox config this = (Throw e, this)
  end.
Proof.
  intros _. unfold SecurityFramework.createSandbox, Eff.bind, Eff.lift.
  destruct (initialize config) as [[]|e]; [|done].
  eexists. split; [reflexivity|]. simpl. repeat split.
  - apply lookup_insert_eq.
  - intros k Hk. by rewrite lookup_insert_ne.
Qed.

End Props.

(** C9.  [destroySandbox] never throws; on an id that is not registered it
    leaves the state as it was; and after any call a second call on the same
    id returns without error and changes nothing. *)
Theorem destroySandbox_idempotent sandboxId this :
  (destroySandbox sandboxId this).1 = Return tt ∧
  (this_sandboxes this !! sandboxId = None →
     destroySandbox sandboxId this = (Return tt, this)) ∧
  destroySandbox sandboxId (destroySandbox sandboxId this).2
    = (Return tt, (destroySandbox sandboxId this).2).
Proof.
  unfold destroySandbox.
  destruct (this_sandboxes this !! sandboxId) as [sb|] eqn:Hsb; simpl.
  - repeat split; [intros [=]|]. by rewrite lookup_delete_eq.
  - repeat split. by rewrite Hsb.
Qed.

(** *** The theorems at concrete inputs *)

Import Examples.

Lemma authenticateRequest_unsigned_witness :
  signature unsigned_message = None ∧
  authenticateRequest stringify verifier_accepts lookup_permissions
    "2026-01-01T00:00:00.000Z" unsigned_message alice_state
  = (Return public_read_only, alice_state).
Proof.
  split; [reflexivity|].
  apply authenticateRequest_unsigned. reflexivity.
Defined.

Lemma authenticateRequest_invalid_signature_witness :
  ∃ e entry this',
    authenticateRequest stringify verifier_rejects lookup_permissions
      "2026-01-01T00:00:00.000Z" signed_message alice_state = (Throw e, this') ∧
    this_auditLog this' = this_auditLog alice_state ++ [entry] ∧
    this_permissions this' = this_permissions alice_state ∧
    this_sandboxes this' = this_sandboxes alice_state ∧
    event entry = "authentication_failed" ∧
    details_error entry = Error.message e ∧
    details_context entry = context signed_message ∧
    ((verifySignature stringify verifier_rejects a_signature signed_message
        alice_state).1 = Return false →
       e = Error.new "Invalid signature" ∧ Error.name e = "Error") ∧
    (∀ e0, (verifySignature stringify verifier_rejects a_signature
              signed_message alice_state).1 = Throw e0 → e = e0).
Proof.
  apply (authenticateRequest_invalid_signature stringify verifier_rejects
           lookup_permissions "2026-01-01T00:00:00.000Z" signed_message
           a_signature alice_state).
  - reflexivity.
  - simpl. discriminate.
Defined.

Lemma authenticateRequest_riskLevel_witness :
  ∃ r,
    authenticateRequest stringify verifier_accepts lookup_permissions
      "2026-01-01T00:00:00.000Z" signed_message alice_state
    = (Return r, alice_state) ∧
    (grants execute alice_permissions → riskLevel r = critical) ∧
    (¬ grants execute alice_permissions →
       grants write alice_permissions ∨ grants delete alice_permissions →
       riskLevel r = high) ∧
    (¬ grants execute alice_permissions → ¬ grants write alice_permissions →
       ¬ grants delete alice_permissions → riskLevel r = medium).
Proof.
  apply (authenticateRequest_riskLevel stringify verifier_accepts
           lookup_permissions "2026-01-01T00:00:00.000Z" signed_message
           a_signature alice_state alice_permissions).
  - reflexivity.
  - reflexivity.
  - vm_compute. reflexivity.
Defined.

Lemma authenticateRequest_returns_authenticated_witness :
  ∃ r,
    authenticateRequest stringify verifier_accepts lookup_permissions
      "2026-01-01T00:00:00.000Z" signed_message alice_state
    = (Return r, alice_state) ∧
    permissions r = ["files"; "tools"] ∧
    authenticated r = true.
Proof.
  eexists. split; [vm_compute; reflexivity|]. split; [reflexivity|].
  apply (authenticateRequest_returns_authenticated stringify verifier_accepts
           lookup_permissions "2026-01-01T00:00:00.000Z" signed_message
           alice_state _ alice_state).
  vm_compute. reflexivity.
Defined.

Lemma createSandbox_registered_id_witness :
  ∃ this',
    createSandbox initialize_ok vm_config alice_state
      = (Return "sb-1", this') ∧
    this_sandboxes this' !! "sb-1" = Some {| sandbox_config := vm_config |} ∧
    (∀ k, k ≠ "sb-1" →
          this_sandboxes this' !! k = this_sandboxes alice_state !! k) ∧
    this_permissions this' = this_permissions alice_state ∧
    this_auditLog this' = this_auditLog alice_state.
Proof.
  apply (createSandbox_registered_id initialize_ok vm_config alice_state
           {| sandbox_config := container_config |}).
  vm_compute. reflexivity.
Defined.

(** C2, as worded: on a signed message that the verifier rejects, the
    error thrown is [Error('Invalid signature')], of name [Error]; it is
    not an [AuthError]. *)
Lemma authenticateRequest_no_AuthError :
  signature signed_message = Some a_signature ∧
  (verifySignature stringify verifier_rejects a_signature signed_message
     alice_state).1 = Return false ∧
  (authenticateRequest stringify verifier_rejects lookup_permissions
     "2026-01-01T00:00:00.000Z" signed_message alice_state).1
    = Throw {| Error.name := "Error"; Error.message := "Invalid signature" |} ∧
  ¬ raises_AuthError
      (authenticateRequest stringify verifier_rejects lookup_permissions
         "2026-01-01T00:00:00.000Z" signed_message alice_state).
Proof.
  split; [reflexivity|]. split; [reflexivity|]. split; [reflexivity|].
  intros (e & Hthrow & Hname). simpl in Hthrow.
  injection Hthrow as <-. discriminate Hname.
Qed.

(** C6, as worded: with the id [sb-1] registered for a container, creating
    a VM sandbox under the same id returns the id and the registry then
    holds the VM sandbox; no error is thrown. *)
Lemma createSandbox_duplicate_not_rejected :
  this_sandboxes alice_state !! config_id vm_config
    = Some {| sandbox_config := container_config |} ∧
  createSandbox initialize_ok vm_config alice_state
    = (Return "sb-1",
       set_sandbox "sb-1" {| sandbox_config := vm_config |} alice_state) ∧
  this_sandboxes
    (set_sandbox "sb-1" {| sandbox_config := vm_config |} alice_state)
    !! "sb-1" = Some {| sandbox_config := vm_config |} ∧
  ¬ rejects_duplicates initialize_ok.
Proof.
  split; [vm_compute; reflexivity|].
  split; [reflexivity|].
  split; [vm_compute; reflexivity|].
  intros Hrej.
  destruct (Hrej vm_config alice_state {| sandbox_config := container_config |})
    as (e & this' & Hthrow & _).
  - vm_compute. reflexivity.
  - discriminate Hthrow.
Qed.

Lemma destroySandbox_idempotent_witness :
  (destroySandbox "sb-1" alice_state).1 = Return tt ∧
  (this_sandboxes alice_state !! "sb-1" = None →
     destroySandbox "sb-1" alice_state = (Return tt, alice_state)) ∧
  destroySandbox "sb-1" (destroySandbox "sb-1" alice_state).2
    = (Return tt, (destroySandbox "sb-1" alice_state).2).
Proof. apply (destroySandbox_idempotent "sb-1" alice_state). Defined.

End SecurityFrameworkProps.

(** ** Enhanced error handling: retry with backoff *)

Module RetryProps.
Import Heap EnhancedErrorHandler EnhancedErrorHandlerSpec.

Lemma calculateBackoffDelay_claimed attempt baseDelay backoff :
  calculateBackoffDelay attempt baseDelay backoff
  = claimed_delay backoff baseDelay attempt.
Proof.
  unfold calculateBackoffDelay, claimed_delay.
  destruct backoff as [s|]; [|by repeat case_decide].
  destruct (String.eqb_spec s "exponential") as [->|Hne].
  { by rewrite decide_True. }
  rewrite decide_False by congruence.
  destruct (String.eqb_spec s "linear") as [->|Hnl].
  { by rewrite decide_True. }
  by rewrite decide_False by congruence.
Qed.

Lemma invocations_app t1 t2 :
  invocations (t1 ++ t2) = (invocations t1 + invocations t2)%nat.
Proof. unfold invocations. by rewrite List.filter_app, length_app. Qed.

Lemma invocations_expected_trace backoff b attempt n :
  invocations (expected_trace backoff b attempt n) = S n.
Proof.
  revert attempt. induction n as [|n IH]; intros attempt; [done|].
  simpl. change (invocations (Invoked :: Slept ?d :: ?t))
    with (S (invocations t)). by rewrite IH.
Qed.

Lemma invocations_after_failure w ms :
  invocations (trace (log (Slept ms) (log Invoked w)))
  = S (invocations (trace w)).
Proof.
  simpl. rewrite !invocations_app. unfold invocations at 2 3. simpl. lia.
Qed.

(** One run of the loop: [d] failing attempts, each followed by its sleep,
    then an attempt that either succeeds or is the last one allowed. *)
Lemma retry_loop_run s m b : ∀ (d fuel : nat) (attempt : Z) (w : World),
  attempt + Z.of_nat d ≤ m →
  (d < fuel)%nat →
  (∀ k, (k < d)%nat → fails (operation s (invocations (trace w) + k))) →
  ∀ last,
    operation s (invocations (trace w) + d) = last →
    (fails last → attempt + Z.of_nat d = m) →
    retry_loop fuel s m b attempt w
    = Some (match last with Return _ => Return true | Throw e => Throw e end,
            with_trace
              (trace w ++ expected_trace (backoffStrategy s) b attempt d) w).
Proof.
  induction d as [|d IH]; intros fuel attempt w Hle Hfuel Hfail last Hlast Hm.
  - destruct fuel as [|fuel]; [lia|]. simpl.
    destruct (Z.leb_spec attempt m); [|lia].
    rewrite Nat.add_0_r in Hlast. rewrite Hlast.
    destruct last as [[]|e]; [done|].
    destruct (Z.eqb_spec attempt m) as [_|Hne]; [done|].
    exfalso. apply Hne. rewrite <- Hm by (by eexists). lia.
  - destruct fuel as [|fuel]; [lia|]. simpl.
    destruct (Z.leb_spec attempt m); [|lia].
    destruct (Hfail 0%nat ltac:(lia)) as [e He].
    rewrite Nat.add_0_r in He. rewrite He.
    destruct (Z.eqb_spec attempt m) as [Heq|_]; [lia|].
    rewrite calculateBackoffDelay_claimed.
    rewrite (IH fuel (attempt + 1) _ ltac:(lia) ltac:(lia)) with (last := last).
    + f_equal. f_equal. simpl. by rewrite <- !app_assoc.
    + intros k Hk. rewrite invocations_after_failure.
      replace (S (invocations (trace w)) + k)%nat
        with (invocations (trace w) + S k)%nat by lia.
      apply Hfail. lia.
    + rewrite invocations_after_failure, <- Hlast. f_equal. lia.
    + intros Hf. specialize (Hm Hf). lia.
Qed.

(** The loop is left within [maxAttempts + 1] iterations, whatever the
    operation does: [retryWithBackoff] always has a result. *)
Lemma retry_loop_total s m b : ∀ (fuel : nat) (attempt : Z) (w : World),
  m - attempt + 1 < Z.of_nat fuel →
  is_Some (retry_loop fuel s m b attempt w).
Proof.
  induction fuel as [|fuel IH]; intros attempt w Hfuel; simpl.
  - destruct (Z.leb_spec attempt m); [lia|by eexists].
  - destruct (Z.leb_spec attempt m); [|by eexists].
    destruct (operation s _) as [[]|e]; [by eexists|].
    destruct (Z.eqb_spec attempt m); [by eexists|].
    apply IH. lia.
Qed.

Lemma retryWithBackoff_total s w : is_Some (retryWithBackoff s w).
Proof. unfold retryWithBackoff. apply retry_loop_total. lia. Qed.

Section Props.
Variable executeFallback : RecoveryStrategy → Eff World bool.
Variable rollbackToCheckpoint : RecoveryStrategy → Eff World bool.

Local Abbreviation attemptRecovery :=
  (attemptRecovery executeFallback rollbackToCheckpoint).

(** With [maxAttempts < 1] the loop body never runs: the operation is not
    called and [false] is returned. *)
Lemma retry_loop_skipped s w :
  type s = "retry" →
  or_default (maxAttempts s) 3 < 1 →
  attemptRecovery s w = Some (Return false, w).
Proof.
  intros Htype Hm. unfold EnhancedErrorHandler.attemptRecovery.
  rewrite Htype. simpl. unfold retryWithBackoff. simpl.
  destruct (Z.leb_spec 1 (or_default (maxAttempts s) 3)); [lia|done].
Qed.

(** C4, as the code has it.  Take a strategy of type [retry], let
    [maxAttempts] be [strategy.maxAttempts], or 3 when that is absent or 0,
    and [baseDelay] be [strategy.baseDelay], or 1000 when that is absent or
    0.  Suppose first that [maxAttempts >= 1].
    - When every attempt fails, the operation is called exactly
      [maxAttempts] times, each failed attempt but the last is followed by a
      sleep of [baseDelay * 2^(attempt-1)] (exponential), [baseDelay *
      attempt] (linear) or [baseDelay] (any other backoff), and the failure
      of the last attempt is thrown.
    - When attempt [j+1] is the first to succeed, [true] is returned right
      after it: [j+1] calls, [j] sleeps, nothing after the success.
    When [maxAttempts] is negative, the operation is never called and
    [false] is returned. *)
Theorem retry_attempts_and_backoff s w :
  type s = "retry" →
  let m := or_default (maxAttempts s) 3 in
  let b := or_default (baseDelay s) 1000 in
  let called := invocations (trace w) in
  (1 ≤ m →
   ((∀ k, (k < Z.to_nat m)%nat → fails (operation s (called + k))) →
    ∃ e w',
      operation s (called + (Z.to_nat m - 1)) = Throw e ∧
      attemptRecovery s w = Some (Throw e, w') ∧
      w' = with_trace
             (trace w ++ expected_trace (backoffStrategy s) b 1
                           (Z.to_nat m - 1)) w ∧
      Z.of_nat (invocations (trace w')) = Z.of_nat called + m) ∧
   (∀ j, (j < Z.to_nat m)%nat →
         (∀ k, (k < j)%nat → fails (operation s (called + k))) →
         operation s (called + j) = Return tt →
         ∃ w',
           attemptRecovery s w = Some (Return true, w') ∧
           w' = with_trace
                  (trace w ++ expected_trace (backoffStrategy s) b 1 j) w ∧
           invocations (trace w') = (called + S j)%nat)) ∧
  (m < 0 → attemptRecovery s w = Some (Return false, w)).
Proof.
  intros Htype m b called. split; [intros Hm; split|].
  - intros Hfail.
    destruct (Hfail (Z.to_nat m - 1)%nat ltac:(lia)) as [e He].
    exists e. eexists. split; [exact He|].
    unfold EnhancedErrorHandler.attemptRecovery. rewrite Htype. simpl.
    unfold retryWithBackoff. fold m b.
    rewrite (retry_loop_run s m b (Z.to_nat m - 1) (S (Z.to_nat m)) 1 w
               ltac:(lia) ltac:(lia) (λ k Hk, Hfail k ltac:(lia))
               (Throw e) He ltac:(intros; lia)).
    split; [done|]. split; [done|]. simpl.
    rewrite invocations_app, invocations_expected_trace.
    fold called. lia.
  - intros j Hj Hfail Hok. eexists.
    unfold EnhancedErrorHandler.attemptRecovery. rewrite Htype. simpl.
    unfold retryWithBackoff. fold m b.
    assert (fails (Return tt) → 1 + Z.of_nat j = m) as Hlast.
    { intros [e He]. done. }
    rewrite (retry_loop_run s m b j (S (Z.to_nat m)) 1 w
               ltac:(lia) ltac:(lia) Hfail (Return tt) Hok Hlast).
    split; [done|]. split; [done|]. simpl.
    by rewrite invocations_app, invocations_expected_trace.
  - intros Hm. apply retry_loop_skipped; [done|]. fold m. lia.
Qed.

End Props.

(** *** The theorems at concrete inputs *)

Import Examples.

Lemma retry_attempts_and_backoff_witness :
  ∃ e w',
    always_fails 2 = Throw e ∧
    attemptRecovery no_recovery no_recovery exponential_retry empty_world
      = Some (Throw e, w') ∧
    trace w' = [Invoked; Slept 100; Invoked; Slept 200; Invoked].
Proof.
  destruct (retry_attempts_and_backoff no_recovery no_recovery exponential_retry
              empty_world) as [Hretry _]; [reflexivity|].
  destruct Hretry as [Hall _]; [vm_compute; discriminate|].
  destruct Hall as (e & w' & He & Hrun & Hw & _).
  - intros k _. eexists. reflexivity.
  - exists e, w'. split; [exact He|]. split; [exact Hrun|].
    rewrite Hw. reflexivity.
Defined.

(** C4, as worded: with [maxAttempts = -1] and an operation that always
    fails, [attemptRecovery] returns [false]; the operation is never called
    and nothing is thrown. *)
Lemma retry_with_negative_maxAttempts :
  attemptRecovery no_recovery no_recovery negative_retry empty_world
    = Some (Return false, empty_world) ∧
  (∀ k, fails (operation negative_retry k)) ∧
  ¬ retries_then_rethrows (attemptRecovery no_recovery no_recovery)
      negative_retry empty_world.
Proof.
  split; [reflexivity|]. split.
  - intros k. eexists. reflexivity.
  - intros Hclaim. destruct Hclaim as (e & w' & Hrun & _).
    + intros k. eexists. reflexivity.
    + discriminate Hrun.
Qed.

End RetryProps.

(** ** Cross-system collaboration: lock discipline *)

Module CollaborationProps.
Import CollaborationManager CollaborationManagerSpec.

Lemma released_resources_app t1 t2 :
  released_resources (t1 ++ t2)
  = released_resources t1 ++ released_resources t2.
Proof. apply omap_app. Qed.

Lemma released_resources_Acquired rs :
  released_resources (map Acquired rs) = [].
Proof. induction rs as [|r rs IH]; [done|]. simpl. exact IH. Qed.

(** A request that is granted comes back as the lease. *)
Lemma lock_acquire_request now request t lk t' :
  lock_acquire now request t = (Return lk, t') → lk = request.
Proof.
  unfold lock_acquire. destruct (existsb _ t); [done|]. by intros [= <- _].
Qed.

Section Props.
Variable Ext : Type.
Variable OperationResult : Type.
Variable clock : nat → Z.
Variable publish :
  SystemEvent → list ResourceLock * Ext
  → completion unit * (list ResourceLock * Ext).
Variable executeWithCoordination :
  CollaborativeOperation → list ResourceLock * Ext
  → completion OperationResult * (list ResourceLock * Ext).
Variable systemId : string.

Local Abbreviation World := (World Ext).
Local Abbreviation lock_table := (lock_table Ext).
Local Abbreviation steps := (steps Ext).
Local Abbreviation ext := (ext Ext).
Local Abbreviation clock_reads := (clock_reads Ext).
Local Abbreviation lock_request := (lock_request systemId).
Local Abbreviation acquireLocks := (acquireLocks Ext clock systemId).
Local Abbreviation acquireLocks_from := (acquireLocks_from Ext clock systemId).

(** One turn of the loop of [acquireLocks]: three readings of the clock,
    and the answer of the lock manager. *)
Lemma acquire_turn resource (w : World) :
  Eff.bind (Date_now Ext clock)
    (λ acquired_at,
       Eff.bind (Date_now Ext clock)
         (λ now,
            distributedLock_acquire Ext clock
              (lock_request acquired_at now resource))) w
  = let request :=
      lock_request (clock (clock_reads w)) (clock (S (clock_reads w)))
        resource in
    let answer :=
      lock_acquire (clock (S (S (clock_reads w)))) request (lock_table w) in
    (answer.1,
     {| CollaborationManager.lock_table := answer.2;
        CollaborationManager.steps :=
          steps w ++ [match answer.1 with
                      | Return _ => Acquired resource
                      | Throw _ => Refused resource
                      end];
        CollaborationManager.ext := ext w;
        CollaborationManager.clock_reads := S (S (S (clock_reads w))) |}).
Proof.
  unfold distributedLock_acquire, Eff.bind, Date_now. simpl.
  by destruct (lock_acquire _ _ _) as [[lk|e] t].
Qed.

Lemma acquireLocks_from_step locks resource rest (w : World) :
  acquireLocks_from locks (resource :: rest) w
  = match Eff.bind (Date_now Ext clock)
            (λ acquired_at,
               Eff.bind (Date_now Ext clock)
                 (λ now,
                    distributedLock_acquire Ext clock
                      (lock_request acquired_at now resource))) w with
    | (Return lock, w1) => acquireLocks_from (locks ++ [lock]) rest w1
    | (Throw e, w1) => (Throw e, w1)
    end.
Proof.
  simpl. unfold Eff.bind, Date_now. simpl.
  by destruct (distributedLock_acquire _ _ _ _) as [[lk|e] w1].
Qed.

(** The loop of [acquireLocks]: when it returns, it has requested the
    resources one by one in the order of the array, all granted. *)
Lemma acquireLocks_from_returns : ∀ rs acc (w : World) locks w1,
  acquireLocks_from acc rs w = (Return locks, w1) →
  map resource_id locks = map resource_id acc ++ rs ∧
  steps w1 = steps w ++ map Acquired rs ∧
  ext w1 = ext w.
Proof.
  induction rs as [|r rs IH]; intros acc w locks w1.
  - simpl. intros [= <- <-]. by rewrite !app_nil_r.
  - rewrite acquireLocks_from_step, acquire_turn. cbv zeta.
    destruct (lock_acquire _ _ (lock_table w)) as [[lk|e] t'] eqn:Hacq;
      simpl; [|done].
    apply lock_acquire_request in Hacq as ->.
    intros (Hlocks & Hsteps & Hext)%IH. simpl in *.
    split; [by rewrite Hlocks, map_app, <- app_assoc|].
    split; [by rewrite Hsteps, <- app_assoc|done].
Qed.

Lemma acquireLocks_from_throws : ∀ rs acc (w : World) e w',
  acquireLocks_from acc rs w = (Throw e, w') →
  ∃ granted r rest,
    rs = granted ++ r :: rest ∧
    steps w' = steps w ++ map Acquired granted ++ [Refused r].
Proof.
  induction rs as [|r rs IH]; intros acc w e w'; [done|].
  rewrite acquireLocks_from_step, acquire_turn. cbv zeta.
  destruct (lock_acquire _ _ (lock_table w)) as [[lk|e0] t']; simpl.
  - intros (granted & r' & rest & -> & Hsteps)%IH.
    exists (r :: granted), r', rest. split; [done|].
    rewrite Hsteps. simpl. by rewrite <- app_assoc.
  - intros [= <- <-]. by exists [], r, rs.
Qed.

(** C7, as the code has it.  [acquireLocks] requests the locks one at a
    time in the order in which the resources are declared: when it returns,
    the locks it holds are those of the declared resources, acquired in
    that order; when a request is refused, the resources declared before it
    have been acquired in that order and none after it was requested. *)
Theorem acquireLocks_declared_order resources w :
  match acquireLocks resources w with
  | (Return locks, w') =>
      map resource_id locks = resources ∧
      steps w' = steps w ++ map Acquired resources
  | (Throw e, w') =>
      ∃ granted r rest,
        resources = granted ++ r :: rest ∧
        steps w' = steps w ++ map Acquired granted ++ [Refused r]
  end.
Proof.
  unfold CollaborationManager.acquireLocks.
  destruct (acquireLocks_from [] resources w) as [[locks|e] w'] eqn:Hrun.
  - by apply acquireLocks_from_returns in Hrun as (-> & Hsteps & _).
  - by apply acquireLocks_from_throws in Hrun.
Qed.

End Props.

(** *** At concrete inputs *)

Import Examples.

(** The three paths of the [try] block on which the locks are released:
    the execution throws, the completion event cannot be published, and
    everything goes well. *)
Example coordinateOperation_execution_fails :
  coordinateOperation () string ticking quiet_bus run_fails "instance-1"
    "evt_1" "evt_2" op_b_a idle
  = (Throw (Error.new "execution failed"),
     {| lock_table := [];
        steps := [Acquired "b"; Acquired "a";
                  Published "operation_started"; Executed;
                  Released "b"; Released "a"];
        ext := tt;
        clock_reads := 7 |}).
Proof. reflexivity. Qed.

Example coordinateOperation_publish_fails :
  coordinateOperation () string ticking bus_down_at_completion run_ok
    "instance-1" "evt_1" "evt_2" op_b_a idle
  = (Throw (Error.new "bus unavailable"),
     {| lock_table := [];
        steps := [Acquired "b"; Acquired "a";
                  Published "operation_started"; Executed;
                  Published "operation_completed";
                  Released "b"; Released "a"];
        ext := tt;
        clock_reads := 8 |}).
Proof. reflexivity. Qed.

Example coordinateOperation_completes :
  coordinateOperation () string ticking quiet_bus run_ok "instance-1"
    "evt_1" "evt_2" op_b_a idle
  = (Return "done",
     {| lock_table := [];
        steps := [Acquired "b"; Acquired "a";
                  Published "operation_started"; Executed;
                  Published "operation_completed";
                  Released "b"; Released "a"];
        ext := tt;
        clock_reads := 8 |}).
Proof. reflexivity. Qed.

(** C5, where the code fails it.  The coordinator is asked for [a] and [b]
    while [instance-2] holds [b]: [a] is granted, [b] is refused, and
    [acquireLocks] throws before the [try] block is entered, so that the
    [finally] does not run: [coordinateOperation] throws the refusal, the
    lease on [a] stays in the lock table until it expires, and no lock has
    been released. *)
Theorem coordinateOperation_leaks_granted_lock :
  coordinateOperation () string ticking quiet_bus run_ok "instance-1"
    "evt_1" "evt_2" op_a_b b_held_elsewhere
  = (Throw lock_conflict_error,
     {| lock_table :=
          [lock_request "instance-1" 1000 1001 "a"; lease_of_instance_2];
        steps := [Acquired "a"; Refused "b"];
        ext := tt;
        clock_reads := 6 |}) ∧
  acquired_resources [Acquired "a"; Refused "b"] = ["a"] ∧
  released_resources [Acquired "a"; Refused "b"] = [] ∧
  ¬ releases_what_it_acquired b_held_elsewhere
      (coordinateOperation () string ticking quiet_bus run_ok "instance-1"
         "evt_1" "evt_2" op_a_b b_held_elsewhere).2.
Proof.
  split; [reflexivity|]. split; [reflexivity|]. split; [reflexivity|].
  intros (run & Hrun & Hperm). simpl in Hrun. subst run.
  by apply Permutation_nil_cons in Hperm.
Qed.

(** Inside the [finally]: the execution has outlasted the lease on [b],
    which [instance-2] now holds.  The release of [b] fails, its error
    replaces the result of the operation, and the release of [a] is not
    attempted. *)
Example coordinateOperation_release_fails :
  coordinateOperation () string slow_run quiet_bus run_outlasts_lease
    "instance-1" "evt_1" "evt_2" op_b_a idle
  = (Throw not_holder_error,
     {| lock_table :=
          [later_lease_of_instance_2;
           lock_request "instance-1" 1003 1004 "a"];
        steps := [Acquired "b"; Acquired "a";
                  Published "operation_started"; Executed;
                  Published "operation_completed";
                  ReleaseFailed "b"];
        ext := tt;
        clock_reads := 8 |}).
Proof. reflexivity. Qed.

(** C7, as worded: declared as [b, a], the resources are locked as [b, a],
    which is not the lexicographic order. *)
Lemma acquireLocks_not_lexicographic :
  (∃ locks w',
     acquireLocks () ticking "instance-1" ["b"; "a"] idle
       = (Return locks, w') ∧
     acquired_resources (steps () w') = ["b"; "a"]) ∧
  ¬ lexicographic ["b"; "a"] ∧
  ¬ acquires_in_lexicographic_order (Ext := ()) ticking "instance-1".
Proof.
  assert (¬ lexicographic ["b"; "a"]) as Hnot.
  { intros Hs. apply Sorted_inv in Hs as [_ Hhd].
    apply HdRel_inv in Hhd. discriminate Hhd. }
  split; [|split; [exact Hnot|]].
  - eexists _, _. split; reflexivity.
  - intros Hclaim.
    destruct (Hclaim ["b"; "a"] idle _ _ eq_refl) as (acquired & Heq & Hs).
    simpl in Heq. by subst acquired.
Qed.

End CollaborationProps.

(** ** Checkpoints: the structured clone and the object heap *)

Module CheckpointProps.
Import Heap HeapSpec EnhancedErrorHandler.

(** *** Copies are stable *)

Lemma rename_mono mem mem' v :
  mem ⊆ mem' → covered mem v →
  rename mem' v = rename mem v ∧ covered mem' v.
Proof.
  intros Hsub Hcov. destruct v as [p|l]; [done|]. simpl in *.
  destruct Hcov as [l' Hl]. rewrite Hl.
  by rewrite (lookup_weaken _ _ _ _ Hl Hsub).
Qed.

Lemma rename_fields_mono mem mem' fs :
  mem ⊆ mem' → Forall (λ kv, covered mem kv.2) fs →
  map (rename_field mem') fs = map (rename_field mem) fs ∧
  Forall (λ kv, covered mem' kv.2) fs.
Proof.
  intros Hsub. induction 1 as [|[k v] fs Hv _ [IHm IHc]]; [done|].
  destruct (rename_mono mem mem' v Hsub Hv) as [Hr Hc]. simpl in *.
  split; [|by constructor].
  unfold rename_field at 1 3. simpl. by rewrite Hr, IHm.
Qed.

Lemma copied_mono src mem h mem' h' l l' :
  copied src mem h l l' → mem ⊆ mem' → h' !! l' = h !! l' →
  copied src mem' h' l l'.
Proof.
  intros (fs & Hsrc & Hcopy & Hcov) Hsub Hsame. exists fs.
  destruct (rename_fields_mono mem mem' fs Hsub Hcov) as [Hm Hc].
  split; [done|]. split; [|done]. by rewrite Hsame, Hm.
Qed.

Lemma append_field_lookup target k v h pre :
  h !! target = Some (CObject pre) →
  append_field target k v h = <[target := CObject (pre ++ [(k, v)])]> h.
Proof. intros Ht. unfold append_field. by rewrite Ht. Qed.

(** *** The loop over the properties *)

Lemma clone_fields_ok src rec :
  (∀ v st r, rec v st = Done r → clone_ok src st v r) →
  ∀ fs target pre mem h mem' h',
    h !! target = Some (CObject pre) →
    clone_fields rec target fs (mem, h) = Done (mem', h') →
    mem ⊆ mem' ∧
    (∀ l, l ∈ dom h → l ≠ target → h' !! l = h !! l) ∧
    h' !! target = Some (CObject (pre ++ map (rename_field mem') fs)) ∧
    Forall (λ kv, covered mem' kv.2) fs ∧
    (∀ l l', mem' !! l = Some l' → mem !! l = None →
             (l' ∉ dom h) ∧ copied src mem' h' l l').
Proof.
  intros Hrec. induction fs as [|[k v] fs IH];
    intros target pre mem h mem' h' Htarget Hrun; simpl in Hrun.
  - injection Hrun as <- <-. rewrite app_nil_r.
    repeat split; try done; intros; congruence.
  - destruct (rec v (mem, h)) as [[v1 [mem1 h1]]| |] eqn:Hv; try done.
    apply Hrec in Hv as (Hsub1 & Hframe1 & Hcov1 & Hv1 & Hnew1).
    simpl in *.
    assert (h1 !! target = Some (CObject pre)) as Htarget1.
    { rewrite Hframe1; [done|]. by apply elem_of_dom_2 in Htarget. }
    rewrite (append_field_lookup _ _ _ _ _ Htarget1) in Hrun.
    apply (IH target (pre ++ [(k, v1)])) in Hrun
      as (Hsub2 & Hframe2 & Htarget2 & Hcov2 & Hnew2);
      [|by rewrite lookup_insert_eq].
    destruct (rename_mono mem1 mem' v Hsub2 Hcov1) as [Hren Hcov].
    assert (∀ l, l ∈ dom h → l ∈ dom h1) as Hdom1.
    { intros l Hl. apply elem_of_dom. rewrite Hframe1 by done.
      by apply elem_of_dom. }
    split; [by transitivity mem1|]. split; [|split; [|split]].
    + intros l Hl Hne. rewrite Hframe2.
      * rewrite lookup_insert_ne by done. by apply Hframe1.
      * rewrite dom_insert_L. apply elem_of_union. right. by apply Hdom1.
      * done.
    + rewrite Htarget2, <- app_assoc. simpl.
      unfold rename_field at 2. simpl. by rewrite Hren, <- Hv1.
    + by constructor.
    + intros l l' Hl Hnone.
      destruct (mem1 !! l) as [l1|] eqn:Hl1.
      * assert (l1 = l') as ->.
        { pose proof (lookup_weaken _ _ _ _ Hl1 Hsub2). congruence. }
        destruct (Hnew1 l l' Hl1 Hnone) as [Hfresh Hcopied].
        split; [done|].
        apply (copied_mono src mem1 h1); [done..|].
        assert (l' ≠ target) as Hne.
        { intros ->. apply Hfresh. by apply elem_of_dom_2 in Htarget. }
        destruct Hcopied as (fs0 & _ & Hat & _).
        rewrite Hframe2; [by rewrite lookup_insert_ne| |done].
        rewrite dom_insert_L. apply elem_of_union. right.
        by apply elem_of_dom_2 in Hat.
      * destruct (Hnew2 l l' Hl Hl1) as [Hfresh Hcopied].
        split; [|done]. intros Hin. apply Hfresh.
        rewrite dom_insert_L. apply elem_of_union. right. by apply Hdom1.
Qed.

(** *** The algorithm *)

Lemma clone_spec src : ∀ fuel v st r,
  clone fuel src v st = Done r → clone_ok src st v r.
Proof.
  induction fuel as [|fuel IH]; intros v [mem h] [v' [mem' h']];
    destruct v as [p|l]; simpl.
  - destruct (is_symbol p) eqn:Hp; [done|].
    intros [= <- <- <-]. unfold clone_ok. simpl.
    repeat split; try done; intros; congruence.
  - destruct (mem !! l) as [l1|] eqn:Hl.
    + intros [= <- <- <-]. unfold clone_ok. simpl. rewrite Hl.
      repeat split; try done; intros; congruence.
    + by destruct (src !! l) as [[fs|]|].
  - destruct (is_symbol p) eqn:Hp; [done|].
    intros [= <- <- <-]. unfold clone_ok. simpl.
    repeat split; try done; intros; congruence.
  - destruct (mem !! l) as [l1|] eqn:Hl.
    + intros [= <- <- <-]. unfold clone_ok. simpl. rewrite Hl.
      repeat split; try done; intros; congruence.
    + destruct (src !! l) as [[fs|]|] eqn:Hsrc; try done.
      destruct (clone_fields _ _ _ _) as [[mem2 h2]| |] eqn:Hfields; try done.
      intros [= <- <- <-].
      pose proof (is_fresh (dom h)) as Hfresh.
      apply (clone_fields_ok src _ IH fs _ []) in Hfields
        as (Hsub & Hframe & Htarget & Hcov & Hnew);
        [|by rewrite lookup_insert_eq].
      simpl in Htarget.
      assert (mem2 !! l = Some (fresh (dom h))) as Hl2.
      { apply (lookup_weaken _ _ _ _ (lookup_insert_eq mem l _) Hsub). }
      unfold clone_ok. simpl. rewrite Hl2.
      split; [|split; [|split; [|split]]]; try done.
      * transitivity (<[l := fresh (dom h)]> mem); [|done].
        by apply insert_subseteq.
      * intros x Hx. rewrite Hframe.
        -- apply lookup_insert_ne. intros <-. done.
        -- rewrite dom_insert_L. apply elem_of_union. by right.
        -- intros ->. done.
      * intros a a' Ha Hnone. destruct (decide (a = l)) as [->|Hne].
        -- assert (a' = fresh (dom h)) as -> by congruence.
           split; [done|]. by exists fs.
        -- destruct (Hnew a a' Ha) as [Hfr Hcopied].
           { by rewrite lookup_insert_ne. }
           split; [|done]. intros Hin. apply Hfr.
           rewrite dom_insert_L. apply elem_of_union. by right.
Qed.

(** *** What a reader of the copy sees *)

Lemma observe_copy src mem h :
  (∀ l l', mem !! l = Some l' → copied src mem h l l') →
  ∀ n v, covered mem v → observe n h (rename mem v) = observe n src v.
Proof.
  intros Hall. induction n as [|n IH]; intros [p|l] Hcov; try done.
  - destruct Hcov as [l' Hl]. simpl. by rewrite Hl.
  - destruct Hcov as [l' Hl]. simpl. rewrite Hl. simpl.
    destruct (Hall l l' Hl) as (fs & -> & -> & Hfs).
    f_equal. rewrite map_map.
    induction Hfs as [|[k v] fs Hv _ IHfs]; [done|].
    simpl in *. by rewrite IH, IHfs.
Qed.

Lemma reachable_copy src mem h :
  (∀ l l', mem !! l = Some l' → copied src mem h l l') →
  ∀ v' x, reachable h v' x →
  ∀ v, covered mem v → v' = rename mem v → ∃ l, mem !! l = Some x.
Proof.
  intros Hall v' x Hreach.
  induction Hreach as [l0|l0 fs k fv x Hat Hin _ IH]; intros [p|l] Hcov Heq;
    try done; destruct Hcov as [l' Hl]; simpl in Heq; rewrite Hl in Heq;
    injection Heq as ->.
  - by exists l.
  - destruct (Hall l l' Hl) as (fs0 & _ & Hcopy & Hfs).
    rewrite Hat in Hcopy. injection Hcopy as ->.
    apply list_elem_of_fmap in Hin as ([k0 v0] & Hkv & Hin0).
    injection Hkv as -> ->.
    apply (IH v0); [|done].
    rewrite Forall_forall in Hfs. by apply (Hfs _ Hin0).
Qed.

Lemma reachable_source src mem h :
  (∀ l l', mem !! l = Some l' → copied src mem h l l') →
  ∀ v x, reachable src v x → covered mem v → x ∈ dom src.
Proof.
  intros Hall v x Hreach.
  induction Hreach as [l0|l0 fs k fv x Hat Hin _ IH]; intros [l' Hl];
    destruct (Hall _ _ Hl) as (fs0 & Hsrc & _ & Hfs).
  - by apply elem_of_dom_2 in Hsrc.
  - rewrite Hat in Hsrc. injection Hsrc as ->. apply IH.
    rewrite Forall_forall in Hfs. by apply (Hfs _ Hin).
Qed.

(** *** Fuel *)

Lemma clone_fields_fuel (src : heap)
    (rec : value → memory * heap → outcome (value * (memory * heap)))
    (N : nat) :
  (∀ v st, (size (dom src ∖ dom st.1) < N)%nat → rec v st ≠ OutOfFuel) →
  (∀ v st r, rec v st = Done r → st.1 ⊆ r.2.1) →
  ∀ fs target mem h,
    (size (dom src ∖ dom mem) < N)%nat →
    clone_fields rec target fs (mem, h) ≠ OutOfFuel.
Proof.
  intros Hfuel Hmono. induction fs as [|[k v] fs IH];
    intros target mem h Hsize; simpl; [done|].
  destruct (rec v (mem, h)) as [[v1 [mem1 h1]]| |] eqn:Hv; [|done|].
  - apply IH. apply Hmono in Hv. simpl in Hv.
    eapply Nat.le_lt_trans; [|exact Hsize].
    apply subseteq_size. apply subseteq_dom in Hv.
    intros x [Hx Hnot]%elem_of_difference. apply elem_of_difference.
    split; [done|]. intros Hin. apply Hnot. by apply Hv.
  - by apply Hfuel in Hv.
Qed.

(** One unit of fuel for every object of [src] that has no copy yet is
    enough. *)
Lemma clone_fuel_enough (src : heap) : ∀ fuel v (st : memory * heap),
  (size (dom src ∖ dom st.1) < fuel)%nat →
  clone fuel src v st ≠ OutOfFuel.
Proof.
  induction fuel as [|fuel IH]; intros v [mem h] Hsize; [lia|].
  destruct v as [p|l]; simpl in *; [by destruct (is_symbol p)|].
  destruct (mem !! l) as [l1|] eqn:Hl; [done|].
  destruct (src !! l) as [[fs|]|] eqn:Hsrc; try done.
  destruct (clone_fields _ _ _ _) as [[mem2 h2]| |] eqn:Hfields; try done.
  exfalso. revert Hfields. apply (clone_fields_fuel src _ fuel); [done| |].
  - intros v st r Hr. by apply clone_spec in Hr as [Hsub _].
  - assert (dom src ∖ dom (<[l := fresh (dom h)]> mem)
            ⊂ dom src ∖ dom mem) as Hlt%subset_size; [|lia].
    split.
    + intros x [Hx Hnot]%elem_of_difference. apply elem_of_difference.
      split; [done|]. intros Hin. apply Hnot.
      rewrite dom_insert_L. apply elem_of_union. by right.
    + intros Hsub. specialize (Hsub l).
      rewrite !elem_of_difference, dom_insert_L in Hsub.
      destruct Hsub as [_ Hnot].
      * split; [by apply elem_of_dom_2 in Hsrc|]. by apply not_elem_of_dom.
      * apply Hnot. apply elem_of_union. left. by apply elem_of_singleton.
Qed.

(** [structuredClone] always completes: it returns a copy or throws a
    [DataCloneError]. *)
Lemma structuredClone_total v h : is_Some (structuredClone v h).
Proof.
  unfold structuredClone.
  pose proof (clone_fuel_enough h (S (size h)) v (∅, h)) as Hfuel.
  destruct (clone _ _ _ _) as [[v' [mem' h']]| |]; [by eexists..|].
  exfalso. apply Hfuel; [|done]. simpl.
  rewrite dom_empty_L, difference_empty_L, size_dom. lia.
Qed.

(** The result of [structuredClone]: the caller's objects are as they were,
    and the value returned is the copy of the input under a memory whose
    entries are all copies at new addresses. *)
Lemma structuredClone_returns v h v' h' :
  structuredClone v h = Some (Return v', h') →
  ∃ mem,
    covered mem v ∧ v' = rename mem v ∧
    (∀ l, l ∈ dom h → h' !! l = h !! l) ∧
    (∀ l l', mem !! l = Some l' → l' ∉ dom h) ∧
    (∀ l l', mem !! l = Some l' → copied h mem h' l l').
Proof.
  unfold structuredClone.
  destruct (clone _ _ _ _) as [[v1 [mem1 h1]]| |] eqn:Hclone; try done.
  intros [= <- <-].
  apply clone_spec in Hclone as (_ & Hframe & Hcov & Hv & Hnew).
  simpl in *. exists mem1. repeat split; try done.
  - intros l l' Hl. by apply (Hnew l l' Hl).
  - intros l l' Hl. by apply (Hnew l l' Hl).
Qed.

(** *** Mutations of the caller's objects *)

Lemma mutated_outside_refl h0 h1 : mutated_outside h0 h1 h1.
Proof. by intros l _ _. Qed.

Lemma mutated_outside_write h0 h1 h2 l k v :
  mutated_outside h0 h1 h2 → l ∈ dom h0 →
  mutated_outside h0 h1 (write l k v h2).
Proof.
  intros Hout Hl x Hx1 Hx0. unfold write.
  destruct (h2 !! l) as [[fs|]|]; try by apply Hout.
  rewrite lookup_insert_ne; [by apply Hout|]. by intros ->.
Qed.

Lemma mutated_outside_alloc h0 h1 h2 l c :
  mutated_outside h0 h1 h2 → l ∉ dom h1 →
  mutated_outside h0 h1 (<[l := c]> h2).
Proof.
  intros Hout Hl x Hx1 Hx0.
  rewrite lookup_insert_ne; [by apply Hout|]. by intros ->.
Qed.

(** *** [createCheckpoint] *)

Lemma createCheckpoint_total date_now random iso_now operationId state w :
  is_Some (createCheckpoint date_now random iso_now operationId state w).
Proof.
  unfold createCheckpoint.
  destruct (structuredClone_total state (heap_of w)) as [[[v|e] h] ->];
    by eexists.
Qed.

(** C3.  When [createCheckpoint(operationId, state)] returns an id, the
    checkpoint stored under that id has a snapshot that shares no object
    with the heap of the caller: every object it reaches was allocated by
    the call.  The call leaves the caller's objects as they were, and
    whatever is done afterwards to objects that existed before the call
    (those reachable from [state] are among them) or to objects allocated
    later, a reader of the snapshot sees, to any depth, what a reader of
    [state] saw at the time of the call; in particular after any assignment
    [obj[k] = v] to an object reachable from [state]. *)
Theorem createCheckpoint_snapshot_independent
    date_now random iso_now operationId state w cid w' :
  createCheckpoint date_now random iso_now operationId state w
    = Some (Return cid, w') →
  ∃ cp,
    this_checkpoints w' !! cid = Some cp ∧
    operation_id cp = operationId ∧
    (∀ l, l ∈ dom (heap_of w) → heap_of w' !! l = heap_of w !! l) ∧
    (∀ l, reachable (heap_of w') (state_snapshot cp) l →
          l ∉ dom (heap_of w)) ∧
    (∀ l, reachable (heap_of w) state l → l ∈ dom (heap_of w)) ∧
    (∀ h2, mutated_outside (heap_of w) (heap_of w') h2 →
           ∀ n, observe n h2 (state_snapshot cp)
                = observe n (heap_of w) state) ∧
    (∀ l k v n, reachable (heap_of w) state l →
                observe n (write l k v (heap_of w')) (state_snapshot cp)
                = observe n (heap_of w) state).
Proof.
  unfold createCheckpoint.
  destruct (structuredClone state (heap_of w)) as [[[snap|e] h']|] eqn:Hclone;
    try done.
  intros [= <- <-].
  apply structuredClone_returns in Hclone
    as (mem & Hcov & -> & Hframe & Hfresh & Hcopied).
  eexists. split; [apply lookup_insert_eq|]. simpl.
  assert (∀ l, reachable (heap_of w) state l → l ∈ dom (heap_of w)) as Hold.
  { intros l Hl. by apply (reachable_source _ mem h' Hcopied state). }
  assert (∀ h2, mutated_outside (heap_of w) h' h2 →
            ∀ n, observe n h2 (rename mem state)
                 = observe n (heap_of w) state) as Hsame.
  { intros h2 Hout n. apply observe_copy; [|done].
    intros l l' Hl. apply (copied_mono _ mem h'); [by apply Hcopied|done|].
    destruct (Hcopied l l' Hl) as (fs & _ & Hat & _).
    apply Hout; [by apply elem_of_dom_2 in Hat|by apply (Hfresh l)]. }
  repeat split; try done.
  - intros l Hreach.
    destruct (reachable_copy _ mem h' Hcopied _ _ Hreach state Hcov eq_refl)
      as [l0 Hl0].
    by apply (Hfresh l0).
  - intros l k v n Hreach. apply Hsame.
    apply mutated_outside_write; [apply mutated_outside_refl|by apply Hold].
Qed.

(** *** The theorem at a concrete input *)

Import Examples.

(** A checkpoint of two objects that point to each other; then
    [state.items.first = "z"].  The snapshot still shows ["a"]; the live
    state does not. *)
Lemma createCheckpoint_snapshot_independent_witness :
  ∃ cp w',
    createCheckpoint "1700000000000" "k3j9x2m1q" "2023-11-14T22:13:20.000Z"
      "op-7" (VRef 1%positive) live_world
      = Some (Return "cp_1700000000000_k3j9x2m1q", w') ∧
    this_checkpoints w' !! "cp_1700000000000_k3j9x2m1q" = Some cp ∧
    observe 3
      (write 2%positive "first" (VPrim (PString "z")) (heap_of w')) (state_snapshot cp)
    = observe 3 live_heap (VRef 1%positive) ∧
    observe 3 (write 2%positive "first" (VPrim (PString "z")) (heap_of w')) (VRef 1%positive)
    ≠ observe 3 live_heap (VRef 1%positive).
Proof.
  destruct (createCheckpoint "1700000000000" "k3j9x2m1q"
              "2023-11-14T22:13:20.000Z" "op-7" (VRef 1%positive) live_world)
    as [[c w']|] eqn:Hrun; [|vm_compute in Hrun; discriminate].
  assert (c = Return "cp_1700000000000_k3j9x2m1q") as ->.
  { vm_compute in Hrun. by injection Hrun as <- _. }
  destruct (createCheckpoint_snapshot_independent _ _ _ _ _ _ _ _ Hrun)
    as (cp & Hcp & _ & Hold & _ & _ & _ & Hwrite).
  exists cp, w'. split; [done|]. split; [exact Hcp|]. split.
  - apply Hwrite. eapply reach_field; [| |apply reach_here].
    + reflexivity.
    + apply list_elem_of_In. right. left. reflexivity.
  - vm_compute in Hrun. injection Hrun as <-. vm_compute. discriminate.
Defined.

End CheckpointProps.

(** ** Security framework: execution in a sandbox, audit trail, risk *)

Module SecurityFrameworkMore.
Import SecurityFramework SecurityFrameworkSpec SandboxExecution.

Lemma risk_of_flags perms :
  calculateRiskLevel perms
  = if existsb (λ p, existsb is_execute (actions p)) perms then critical
    else if existsb (λ p, existsb is_write_or_delete (actions p)) perms
         then high else medium.
Proof. reflexivity. Qed.

(** X1.  [calculateRiskLevel] never answers [low]; the risk of two permission
    lists put together is the higher of their risks, so that adding
    permissions never lowers the risk; and the risk does not depend on the
    order of the permissions. *)
Theorem calculateRiskLevel_join perms1 perms2 :
  calculateRiskLevel perms1 ≠ low ∧
  calculateRiskLevel (perms1 ++ perms2)
    = risk_max (calculateRiskLevel perms1) (calculateRiskLevel perms2) ∧
  (risk_rank (calculateRiskLevel perms1)
     ≤ risk_rank (calculateRiskLevel (perms1 ++ perms2)))%nat ∧
  calculateRiskLevel (perms2 ++ perms1) = calculateRiskLevel (perms1 ++ perms2).
Proof.
  rewrite !risk_of_flags, !existsb_app.
  destruct (existsb (λ p, existsb is_execute (actions p)) perms1),
    (existsb (λ p, existsb is_execute (actions p)) perms2),
    (existsb (λ p, existsb is_write_or_delete (actions p)) perms1),
    (existsb (λ p, existsb is_write_or_delete (actions p)) perms2);
    simpl; repeat split; try done; unfold risk_max; simpl; lia.
Qed.

Section Props.
Variable JSON_stringify : EnhancedMessage → completion string.
Variable crypto_createVerify : string → completion Verify.
Variable getPermissions :
  option string → gmap string (list Permission) → completion (list Permission).
Variable initialize : SandboxConfiguration → completion unit.
Variable Result : Type.
Variable sandbox_execute :
  SandboxEnvironment → Eff State Result → Eff State Result.

Local Abbreviation verifySignature :=
  (verifySignature JSON_stringify crypto_createVerify).
Local Abbreviation authenticateRequest :=
  (authenticateRequest JSON_stringify crypto_createVerify getPermissions).
Local Abbreviation createSandbox := (createSandbox initialize).
Local Abbreviation executeInSandbox :=
  (executeInSandbox Result sandbox_execute).

Lemma verifySignature_pure sig message this :
  (verifySignature sig message this).2 = this.
Proof.
  unfold SecurityFramework.verifySignature, Eff.bind, Eff.lift.
  destruct (crypto_createVerify (algorithm sig)); [|done].
  by destruct (JSON_stringify message).
Qed.

(** X2.  An id that [createSandbox] has just returned is known to
    [executeInSandbox], which hands the operation to the sandbox built from
    that configuration; an id that is not registered makes it throw
    [Sandbox <id> not found], the operation is not run and the state is
    unchanged. *)
Theorem executeInSandbox_after_createSandbox config operation this :
  (∀ sandboxId this1,
     createSandbox config this = (Return sandboxId, this1) →
     executeInSandbox sandboxId operation this1
     = sandbox_execute {| sandbox_config := config |} operation this1) ∧
  (∀ sandboxId,
     this_sandboxes this !! sandboxId = None →
     executeInSandbox sandboxId operation this
     = (Throw (Error.new ("Sandbox " +:+ sandboxId +:+ " not found")), this)).
Proof.
  split.
  - intros sandboxId this1.
    unfold SecurityFramework.createSandbox, Eff.bind, Eff.lift.
    destruct (initialize config) as [[]|e]; [|done].
    intros [= <- <-]. unfold SandboxExecution.executeInSandbox. simpl.
    by rewrite lookup_insert_eq.
  - intros sandboxId Hnone. unfold SandboxExecution.executeInSandbox.
    by rewrite Hnone.
Qed.

(** X3.  Whatever the message, [authenticateRequest] touches nothing but the
    audit log, and the log only grows: a returned result leaves the state
    as it was; a thrown error comes from a signed message and has added
    exactly one [authentication_failed] entry, with the message of that
    error and the context of the request, at the end of the log. *)
Theorem authenticateRequest_audit_trail now message this :
  match authenticateRequest now message this with
  | (Return _, this') => this' = this
  | (Throw e, this') =>
      signature message ≠ None ∧
      this' = push_audit {| entry_timestamp := now;
                            event := "authentication_failed";
                            details_error := Error.message e;
                            details_context := context message |} this
  end.
Proof.
  unfold SecurityFramework.authenticateRequest.
  destruct (signature message) as [sig|]; [|done].
  unfold Eff.try_catch, Eff.bind at 1.
  pose proof (verifySignature_pure sig message this) as Hst.
  destruct (verifySignature sig message this) as [[[]|e] s]; simpl in *;
    subst s; try done.
  unfold Eff.bind, Eff.get, Eff.lift.
  by destruct (getPermissions _ _).
Qed.

(** X4.  The [catch] block also covers the permission lookup: when the signature
    verifies but [getPermissions] throws, that error is thrown on and
    logged as an authentication failure. *)
Theorem authenticateRequest_lookup_failure now message sig this e :
  signature message = Some sig →
  (verifySignature sig message this).1 = Return true →
  getPermissions (context message ≫= userId) (this_permissions this)
    = Throw e →
  authenticateRequest now message this
  = (Throw e,
     push_audit {| entry_timestamp := now;
                   event := "authentication_failed";
                   details_error := Error.message e;
                   details_context := context message |} this).
Proof.
  intros Hsig Hok Hperms. unfold SecurityFramework.authenticateRequest.
  rewrite Hsig. unfold Eff.try_catch, Eff.bind at 1.
  pose proof (verifySignature_pure sig message this) as Hst.
  destruct (verifySignature sig message this) as [c s]; simpl in *.
  subst s c. simpl. unfold Eff.bind, Eff.get, Eff.lift. by rewrite Hperms.
Qed.

(** X5.  On a verified request the result lists the resources of the resolved
    permissions, in their order, and requires an audit exactly when one of
    these permissions does; nothing is logged. *)
Theorem authenticateRequest_verified now message sig this perms :
  signature message = Some sig →
  (verifySignature sig message this).1 = Return true →
  getPermissions (context message ≫= userId) (this_permissions this)
    = Return perms →
  ∃ r,
    authenticateRequest now message this = (Return r, this) ∧
    permissions r = map resource perms ∧
    (requiresAudit r = true ↔ ∃ p, p ∈ perms ∧ auditRequired p = true).
Proof.
  intros Hsig Hok Hperms. unfold SecurityFramework.authenticateRequest.
  rewrite Hsig. unfold Eff.try_catch, Eff.bind at 1.
  pose proof (verifySignature_pure sig message this) as Hst.
  destruct (verifySignature sig message this) as [c s]; simpl in *.
  subst s c. simpl. unfold Eff.bind, Eff.get, Eff.lift. rewrite Hperms.
  eexists. split; [reflexivity|]. simpl. split; [done|].
  rewrite existsb_exists. split.
  - intros (p & Hp & Ha). exists p. by rewrite list_elem_of_In.
  - intros (p & Hp & Ha). exists p. by rewrite <- list_elem_of_In.
Qed.

End Props.

(** *** At concrete inputs *)

Import Examples.

Lemma authenticateRequest_lookup_failure_witness :
  authenticateRequest stringify verifier_accepts
    (λ _ _, Throw (Error.new "permission store unavailable"))
    "2026-01-01T00:00:00.000Z" signed_message alice_state
  = (Throw (Error.new "permission store unavailable"),
     push_audit {| entry_timestamp := "2026-01-01T00:00:00.000Z";
                   event := "authentication_failed";
                   details_error := "permission store unavailable";
                   details_context := Some a_context |} alice_state).
Proof.
  apply (authenticateRequest_lookup_failure stringify verifier_accepts
           (λ _ _, Throw (Error.new "permission store unavailable"))
           "2026-01-01T00:00:00.000Z" signed_message a_signature alice_state);
    reflexivity.
Defined.

Lemma authenticateRequest_verified_witness :
  ∃ r,
    authenticateRequest stringify verifier_accepts lookup_permissions
      "2026-01-01T00:00:00.000Z" signed_message alice_state
    = (Return r, alice_state) ∧
    permissions r = map resource alice_permissions ∧
    (requiresAudit r = true
     ↔ ∃ p, p ∈ alice_permissions ∧ auditRequired p = true).
Proof.
  apply (authenticateRequest_verified stringify verifier_accepts
           lookup_permissions "2026-01-01T00:00:00.000Z" signed_message
           a_signature alice_state alice_permissions).
  - reflexivity.
  - reflexivity.
  - vm_compute. reflexivity.
Defined.

Lemma executeInSandbox_after_createSandbox_witness :
  (∀ sandboxId this1,
     createSandbox initialize_ok vm_config alice_state
       = (Return sandboxId, this1) →
     executeInSandbox string (λ _ op, op) sandboxId (Eff.ret "ran") this1
     = (Return "ran", this1)) ∧
  (∀ sandboxId,
     this_sandboxes alice_state !! sandboxId = None →
     executeInSandbox string (λ _ op, op) sandboxId (Eff.ret "ran") alice_state
     = (Throw (Error.new ("Sandbox " +:+ sandboxId +:+ " not found")),
        alice_state)).
Proof.
  exact (executeInSandbox_after_createSandbox initialize_ok string
           (λ _ op, op) vm_config (Eff.ret "ran") alice_state).
Defined.

End SecurityFrameworkMore.

(** ** Retry with backoff: outcomes and time spent *)

Module RetryMore.
Import Heap EnhancedErrorHandler EnhancedErrorHandlerSpec RetryAccounting.
Import RetryProps.

Lemma first_success (f : nat → completion unit) (n : nat) :
  (∀ k, (k < n)%nat → fails (f k)) ∨
  (∃ j, (j < n)%nat ∧ (∀ k, (k < j)%nat → fails (f k)) ∧ f j = Return tt).
Proof.
  induction n as [|n [Hall|(j & Hj & Hbefore & Hok)]].
  - left. intros k Hk. lia.
  - destruct (f n) as [[]|e] eqn:Hn.
    + right. exists n. split; [lia|]. by split.
    + left. intros k Hk. destruct (decide (k = n)) as [->|Hne].
      * by exists e.
      * apply Hall. lia.
  - right. exists j. split; [lia|]. by split.
Qed.

Lemma with_trace_same w : with_trace (trace w ++ []) w = w.
Proof. destruct w. unfold with_trace. simpl. by rewrite app_nil_r. Qed.

(** X6.  [retryWithBackoff] always ends, in one of three ways, and changes
    nothing but the record of calls.  It returns [true] right after the
    first call of the operation that returns, if that is among the first
    [maxAttempts] calls; it throws the error of call number [maxAttempts]
    when these calls all fail ([maxAttempts >= 1]); it returns [false]
    only when [maxAttempts < 1], without having called the operation.  The
    operation is never called more than [maxAttempts] times. *)
Theorem retryWithBackoff_outcomes s w :
  let m := or_default (maxAttempts s) 3 in
  let b := or_default (baseDelay s) 1000 in
  let called := invocations (trace w) in
  ∃ c t,
    retryWithBackoff s w = Some (c, with_trace (trace w ++ t) w) ∧
    (invocations t ≤ Z.to_nat m)%nat ∧
    match c with
    | Return true =>
        ∃ j, (j < Z.to_nat m)%nat ∧
             t = expected_trace (backoffStrategy s) b 1 j ∧
             operation s (called + j) = Return tt ∧
             (∀ k, (k < j)%nat → fails (operation s (called + k)))
    | Return false => m < 1 ∧ t = []
    | Throw e =>
        1 ≤ m ∧
        t = expected_trace (backoffStrategy s) b 1 (Z.to_nat m - 1) ∧
        operation s (called + (Z.to_nat m - 1)) = Throw e ∧
        (∀ k, (k < Z.to_nat m)%nat → fails (operation s (called + k)))
    end.
Proof.
  intros m b called. unfold retryWithBackoff. fold m b.
  destruct (Z.lt_ge_cases m 1) as [Hsmall|Hm].
  { exists (Return false), []. rewrite with_trace_same. simpl.
    destruct (Z.leb_spec 1 m); [lia|]. repeat split; try done.
    unfold invocations. simpl. lia. }
  destruct (first_success (λ k, operation s (called + k)) (Z.to_nat m))
    as [Hall|(j & Hj & Hbefore & Hok)].
  - destruct (Hall (Z.to_nat m - 1)%nat ltac:(lia)) as [e He].
    exists (Throw e), (expected_trace (backoffStrategy s) b 1 (Z.to_nat m - 1)).
    rewrite (retry_loop_run s m b (Z.to_nat m - 1) (S (Z.to_nat m)) 1 w
               ltac:(lia) ltac:(lia) (λ k Hk, Hall k ltac:(lia))
               (Throw e) He ltac:(intros; lia)).
    split; [done|]. rewrite invocations_expected_trace.
    split; [lia|]. by repeat split.
  - assert (fails (Return tt) → 1 + Z.of_nat j = m) as Hlast.
    { intros [e He]. done. }
    exists (Return true), (expected_trace (backoffStrategy s) b 1 j).
    rewrite (retry_loop_run s m b j (S (Z.to_nat m)) 1 w
               ltac:(lia) ltac:(lia) Hbefore (Return tt) Hok Hlast).
    split; [done|]. rewrite invocations_expected_trace.
    split; [lia|]. exists j. by repeat split.
Qed.

(** *** Delays *)

Lemma pow2_gt_lin n : 0 ≤ n → n + 1 ≤ 2 ^ n.
Proof. intros Hn. pose proof (Z.pow_gt_lin_r 2 n ltac:(lia) Hn). lia. Qed.

Lemma pow2_step a : 1 ≤ a → 2 ^ a = 2 * 2 ^ (a - 1).
Proof.
  intros Ha. replace a with (Z.succ (a - 1)) at 1 by lia.
  apply Z.pow_succ_r. lia.
Qed.

(** X7.  With a delay [baseDelay >= 0], from the first attempt on: the constant
    delay is [baseDelay], the linear delay is at least that, the
    exponential delay at least the linear one; and with every strategy the
    delay after attempt [attempt + 1] is at least the delay after attempt
    [attempt].  The exponential delay doubles from one attempt to the
    next. *)
Theorem calculateBackoffDelay_order attempt baseDelay backoff :
  0 ≤ baseDelay → 1 ≤ attempt →
  calculateBackoffDelay attempt baseDelay None = baseDelay ∧
  baseDelay ≤ calculateBackoffDelay attempt baseDelay (Some "linear") ∧
  calculateBackoffDelay attempt baseDelay (Some "linear")
    ≤ calculateBackoffDelay attempt baseDelay (Some "exponential") ∧
  calculateBackoffDelay attempt baseDelay backoff
    ≤ calculateBackoffDelay (attempt + 1) baseDelay backoff ∧
  calculateBackoffDelay (attempt + 1) baseDelay (Some "exponential")
    = 2 * calculateBackoffDelay attempt baseDelay (Some "exponential").
Proof.
  intros Hb Ha.
  pose proof (pow2_gt_lin (attempt - 1) ltac:(lia)) as Hlin.
  pose proof (pow2_step attempt Ha) as Hstep.
  assert (0 < 2 ^ (attempt - 1)) as Hpos by (apply Z.pow_pos_nonneg; lia).
  rewrite !calculateBackoffDelay_claimed. unfold claimed_delay.
  repeat case_decide; try done;
    replace (attempt + 1 - 1) with attempt by lia;
    repeat split; try done; try nia.
Qed.

Lemma slept_app t1 t2 : slept (t1 ++ t2) = slept t1 + slept t2.
Proof.
  induction t1 as [|[|ms] t1 IH]; simpl; [done|done|]. rewrite IH. lia.
Qed.

Lemma slept_exponential b : ∀ (n : nat) (a : Z),
  1 ≤ a →
  slept (expected_trace (Some "exponential") b a n)
  = b * 2 ^ (a - 1) * (2 ^ Z.of_nat n - 1).
Proof.
  induction n as [|n IH]; intros a Ha.
  - simpl. lia.
  - cbn [expected_trace slept]. rewrite IH by lia.
    unfold claimed_delay. rewrite decide_True by done.
    replace (a + 1 - 1) with a by lia.
    rewrite (pow2_step a Ha), Nat2Z.inj_succ, Z.pow_succ_r by lia. lia.
Qed.

Lemma slept_linear b : ∀ (n : nat) (a : Z),
  2 * slept (expected_trace (Some "linear") b a n)
  = b * Z.of_nat n * (2 * a + Z.of_nat n - 1).
Proof.
  induction n as [|n IH]; intros a.
  - simpl. lia.
  - cbn [expected_trace slept].
    unfold claimed_delay. rewrite decide_False by done.
    rewrite decide_True by done.
    rewrite Z.mul_add_distr_l, IH, Nat2Z.inj_succ. lia.
Qed.

Lemma slept_constant backoff b : ∀ (n : nat) (a : Z),
  backoff ≠ Some "exponential" → backoff ≠ Some "linear" →
  slept (expected_trace backoff b a n) = b * Z.of_nat n.
Proof.
  induction n as [|n IH]; intros a Hne Hnl.
  - simpl. lia.
  - cbn [expected_trace slept].
    unfold claimed_delay. rewrite !decide_False by done.
    rewrite IH, Nat2Z.inj_succ by done. lia.
Qed.

(** X8.  When all [maxAttempts >= 1] attempts fail, the time slept before the
    error is thrown is [baseDelay * (2^(maxAttempts-1) - 1)] with the
    exponential backoff, [baseDelay * maxAttempts * (maxAttempts-1) / 2]
    with the linear one, and [baseDelay * (maxAttempts-1)] otherwise. *)
Theorem retryWithBackoff_time_slept s w :
  let m := or_default (maxAttempts s) 3 in
  let b := or_default (baseDelay s) 1000 in
  1 ≤ m →
  (∀ k, (k < Z.to_nat m)%nat →
        fails (operation s (invocations (trace w) + k))) →
  ∃ e w',
    retryWithBackoff s w = Some (Throw e, w') ∧
    (backoffStrategy s = Some "exponential" →
       slept (trace w') = slept (trace w) + b * (2 ^ (m - 1) - 1)) ∧
    (backoffStrategy s = Some "linear" →
       2 * slept (trace w') = 2 * slept (trace w) + b * m * (m - 1)) ∧
    (backoffStrategy s ≠ Some "exponential" →
     backoffStrategy s ≠ Some "linear" →
       slept (trace w') = slept (trace w) + b * (m - 1)).
Proof.
  intros m b Hm Hall. unfold retryWithBackoff. fold m b.
  destruct (Hall (Z.to_nat m - 1)%nat ltac:(lia)) as [e He].
  exists e. eexists.
  rewrite (retry_loop_run s m b (Z.to_nat m - 1) (S (Z.to_nat m)) 1 w
             ltac:(lia) ltac:(lia) (λ k Hk, Hall k ltac:(lia))
             (Throw e) He ltac:(intros; lia)).
  split; [reflexivity|]. simpl. rewrite !slept_app.
  assert (Z.of_nat (Z.to_nat m - 1) = m - 1) as Hn by lia.
  split; [|split].
  - intros ->. rewrite slept_exponential, Hn by lia. simpl. lia.
  - intros ->. pose proof (slept_linear b (Z.to_nat m - 1) 1) as Hl.
    rewrite Hn in Hl. nia.
  - intros Hne Hnl. rewrite slept_constant, Hn by done. done.
Qed.

(** *** At concrete inputs *)

Import Examples.

Lemma calculateBackoffDelay_order_witness :
  calculateBackoffDelay 3 100 None = 100 ∧
  100 ≤ calculateBackoffDelay 3 100 (Some "linear") ∧
  calculateBackoffDelay 3 100 (Some "linear")
    ≤ calculateBackoffDelay 3 100 (Some "exponential") ∧
  calculateBackoffDelay 3 100 (Some "fixed")
    ≤ calculateBackoffDelay (3 + 1) 100 (Some "fixed") ∧
  calculateBackoffDelay (3 + 1) 100 (Some "exponential")
    = 2 * calculateBackoffDelay 3 100 (Some "exponential").
Proof.
  apply (calculateBackoffDelay_order 3 100 (Some "fixed")); lia.
Defined.

Lemma retryWithBackoff_time_slept_witness :
  ∃ e w',
    retryWithBackoff exponential_retry empty_world = Some (Throw e, w') ∧
    slept (trace w') = 300.
Proof.
  destruct (retryWithBackoff_time_slept exponential_retry empty_world)
    as (e & w' & Hrun & Hexp & _).
  - vm_compute. discriminate.
  - intros k _. eexists. reflexivity.
  - exists e, w'. split; [exact Hrun|]. rewrite Hexp; reflexivity.
Defined.

Lemma retryWithBackoff_outcomes_witness :
  ∃ c t,
    retryWithBackoff exponential_retry empty_world
    = Some (c, with_trace (trace empty_world ++ t) empty_world) ∧
    (invocations t ≤ 3)%nat.
Proof.
  destruct (retryWithBackoff_outcomes exponential_retry empty_world)
    as (c & t & Hrun & Hle & _).
  exists c, t. by split.
Defined.

End RetryMore.

(** ** Checkpoints: refusal, earlier checkpoints, isolation *)

Module CheckpointMore.
Import Heap HeapSpec EnhancedErrorHandler CheckpointStore.
Import CheckpointProps.

(** *** When the clone is refused *)

Lemma clone_fields_error (src : heap)
    (rec : value → memory * heap → outcome (value * (memory * heap)))
    target :
  (∀ v st, rec v st = DataCloneError → reaches_uncloneable src v) →
  ∀ fs st,
    clone_fields rec target fs st = DataCloneError →
    ∃ k v, (k, v) ∈ fs ∧ reaches_uncloneable src v.
Proof.
  intros Hrec. induction fs as [|[k v] fs IH]; intros st; simpl; [done|].
  destruct (rec v st) as [[v1 [mem1 h1]]| |] eqn:Hv; [| |done].
  - intros (k' & v' & Hin & Hbad)%IH. exists k', v'.
    split; [by apply elem_of_cons; right|done].
  - intros _. exists k, v. split; [by apply elem_of_cons; left|].
    by apply Hrec in Hv.
Qed.

Lemma holds_field (h : heap) l fs k v v' :
  h !! l = Some (CObject fs) → (k, v) ∈ fs → holds h v v' →
  holds h (VRef l) v'.
Proof.
  intros Hat Hin [->|(x & fs' & k' & Hreach & Hx & Hin')]; right.
  - exists l, fs, k. split; [constructor|done].
  - exists x, fs', k'. split; [by eapply reach_field|done].
Qed.

Lemma clone_error (src : heap) : ∀ fuel v (st : memory * heap),
  clone fuel src v st = DataCloneError → reaches_uncloneable src v.
Proof.
  assert (∀ v, uncloneable src v → reaches_uncloneable src v) as Hhere.
  { intros v Hv. exists v. split; [by left|done]. }
  induction fuel as [|fuel IH]; intros [p|l] [mem h]; simpl.
  - destruct (is_symbol p) eqn:Hp; [|done]. intros _. by apply Hhere.
  - destruct (mem !! l); [done|].
    destruct (src !! l) as [[fs|]|] eqn:Hsrc; [done| |]; intros _;
      apply Hhere; [by right|by left].
  - destruct (is_symbol p) eqn:Hp; [|done]. intros _. by apply Hhere.
  - destruct (mem !! l); [done|].
    destruct (src !! l) as [[fs|]|] eqn:Hsrc.
    + destruct (clone_fields _ _ _ _) as [[mem2 h2]| |] eqn:Hfs; try done.
      intros _.
      apply (clone_fields_error src _ _ (IH)) in Hfs
        as (k & v & Hin & v' & Hholds & Hbad).
      exists v'. split; [|done]. by eapply holds_field.
    + intros _. apply Hhere. by right.
    + intros _. apply Hhere. by left.
Qed.

(** Every object that a copied value reaches has a copy. *)
Lemma reachable_covered src mem h :
  (∀ l l', mem !! l = Some l' → copied src mem h l l') →
  ∀ v x, reachable src v x → covered mem v → is_Some (mem !! x).
Proof.
  intros Hall v x Hreach.
  induction Hreach as [l0|l0 fs k fv x Hat Hin _ IH]; intros [l' Hl].
  - by exists l'.
  - destruct (Hall _ _ Hl) as (fs0 & Hsrc & _ & Hfs).
    rewrite Hat in Hsrc. injection Hsrc as ->. apply IH.
    rewrite Forall_forall in Hfs. by apply (Hfs _ Hin).
Qed.

Lemma covered_cloneable src mem h v :
  (∀ l l', mem !! l = Some l' → copied src mem h l l') →
  covered mem v → ¬ uncloneable src v.
Proof.
  intros Hall Hcov Hbad. destruct v as [p|l]; simpl in *; [congruence|].
  destruct Hcov as [l' Hl]. destruct (Hall _ _ Hl) as (fs & Hsrc & _).
  rewrite Hsrc in Hbad. by destruct Hbad.
Qed.

(** X9.  [createCheckpoint] always completes, cyclic state included.  On a
    state made of primitives, symbols, plain objects and functions it throws
    exactly when [state] is, or reaches through properties, a symbol or a
    function (or an address where there is no object): the error is a
    [DataCloneError] and nothing is stored or changed.  In every other case
    it stores a checkpoint and returns its id. *)
Theorem createCheckpoint_refusal date_now random iso_now operationId state w :
  (reaches_uncloneable (heap_of w) state →
     createCheckpoint date_now random iso_now operationId state w
     = Some (Throw data_clone_error, w)) ∧
  (¬ reaches_uncloneable (heap_of w) state →
     ∃ w',
       createCheckpoint date_now random iso_now operationId state w
       = Some (Return (generateCheckpointId date_now random), w')).
Proof.
  unfold createCheckpoint.
  destruct (structuredClone_total state (heap_of w)) as [[c h'] Hrun].
  rewrite Hrun. destruct c as [snap|e].
  - assert (¬ reaches_uncloneable (heap_of w) state) as Hgood.
    { intros (v' & Hholds & Hbad).
      apply structuredClone_returns in Hrun
        as (mem & Hcov & _ & _ & _ & Hcopied).
      destruct Hholds as [->|(x & fs & k & Hreach & Hx & Hin)].
      - by apply (covered_cloneable _ mem h' state Hcopied).
      - destruct (reachable_covered _ mem h' Hcopied _ _ Hreach Hcov)
          as [x' Hx'].
        destruct (Hcopied _ _ Hx') as (fs0 & Hsrc & _ & Hfs).
        rewrite Hx in Hsrc. injection Hsrc as <-.
        rewrite Forall_forall in Hfs.
        apply (covered_cloneable _ mem h' v' Hcopied); [|done].
        apply (Hfs _ Hin). }
    split; [done|]. intros _. by eexists.
  - unfold structuredClone in Hrun.
    destruct (clone _ _ _ _) as [[v1 [mem1 h1]]| |] eqn:Hclone; try done.
    injection Hrun as <- <-.
    apply clone_error in Hclone. split; [done|]. by intros [].
Qed.

(** *** Objects that were there before *)

Lemma closed_field h l fs k v :
  closed h (VRef l) → h !! l = Some (CObject fs) → (k, v) ∈ fs →
  closed h v.
Proof. intros Hcl Hat Hin x Hx. apply Hcl. by eapply reach_field. Qed.

Lemma reachable_frame (h h' : heap) :
  (∀ l, l ∈ dom h → h' !! l = h !! l) →
  ∀ v x, reachable h' v x → closed h v → reachable h v x.
Proof.
  intros Hframe v x Hreach.
  induction Hreach as [l0|l0 fs k fv x Hat Hin _ IH]; intros Hcl;
    [constructor|].
  rewrite Hframe in Hat by (apply Hcl; constructor).
  eapply reach_field; [done..|]. apply IH. by eapply closed_field.
Qed.

Lemma observe_frame (h h' : heap) :
  (∀ l, l ∈ dom h → h' !! l = h !! l) →
  ∀ n v, closed h v → observe n h' v = observe n h v.
Proof.
  intros Hframe. induction n as [|n IH]; intros [p|l] Hcl; try done.
  simpl. rewrite Hframe by (apply Hcl; constructor).
  destruct (h !! l) as [[fs|]|] eqn:Hat; try done.
  f_equal. apply map_ext_in. intros [k v] Hin. simpl. f_equal.
  apply IH. apply (closed_field h l fs k); [done..|].
  by apply list_elem_of_In.
Qed.

Lemma createCheckpoint_returns date_now random iso_now operationId state
    w cid w' :
  createCheckpoint date_now random iso_now operationId state w
    = Some (Return cid, w') →
  ∃ snapshot mem,
    cid = generateCheckpointId date_now random ∧
    w' = store_checkpoint {| id := cid; timestamp := iso_now;
                             operation_id := operationId;
                             state_snapshot := snapshot;
                             dependencies := [] |} (heap_of w') w ∧
    covered mem state ∧ snapshot = rename mem state ∧
    (∀ l, l ∈ dom (heap_of w) → heap_of w' !! l = heap_of w !! l) ∧
    (∀ l l', mem !! l = Some l' → l' ∉ dom (heap_of w)) ∧
    (∀ l l', mem !! l = Some l' → copied (heap_of w) mem (heap_of w') l l').
Proof.
  unfold createCheckpoint.
  destruct (structuredClone state (heap_of w)) as [[[snap|e] h']|] eqn:Hclone;
    try done.
  intros [= <- <-].
  apply structuredClone_returns in Hclone
    as (mem & Hcov & -> & Hframe & Hfresh & Hcopied).
  by exists (rename mem state), mem.
Qed.

(** X10.  A successful [createCheckpoint] leaves the circuit breakers and the
    record of calls alone and keeps every checkpoint stored under another
    id: it is still stored, unchanged, and when its snapshot reaches
    existing objects only, a reader sees in it what it saw before.  The id
    is [cp_<time>_<random>]; whatever was stored under that id, the new
    checkpoint is what is stored there afterwards. *)
Theorem createCheckpoint_keeps_earlier date_now random iso_now operationId
    state w cid w' :
  createCheckpoint date_now random iso_now operationId state w
    = Some (Return cid, w') →
  cid = "cp_" +:+ date_now +:+ "_" +:+ random ∧
  this_circuitBreakers w' = this_circuitBreakers w ∧
  trace w' = trace w ∧
  dom (this_checkpoints w') = {[cid]} ∪ dom (this_checkpoints w) ∧
  (∀ i cp,
     i ≠ cid → this_checkpoints w !! i = Some cp →
     this_checkpoints w' !! i = Some cp ∧
     (closed (heap_of w) (state_snapshot cp) →
      ∀ n, observe n (heap_of w') (state_snapshot cp)
           = observe n (heap_of w) (state_snapshot cp))) ∧
  (∃ cp,
     this_checkpoints w' !! cid = Some cp ∧
     id cp = cid ∧ timestamp cp = iso_now ∧
     operation_id cp = operationId ∧ dependencies cp = []).
Proof.
  intros (snapshot & mem & -> & -> & _ & _ & Hframe & _)%createCheckpoint_returns.
  simpl in *. split; [done|]. split; [done|]. split; [done|].
  split; [apply dom_insert_L|]. split.
  - intros i cp Hne Hcp. split; [by rewrite lookup_insert_ne|].
    intros Hcl n. by apply observe_frame.
  - eexists. split; [apply lookup_insert_eq|done].
Qed.

(** X11.  The checkpoint store stays isolated: when the stored snapshots reach
    existing objects only and no object is reached by two of them, the same
    holds after [createCheckpoint], whatever the state that is saved. *)
Theorem createCheckpoint_isolated date_now random iso_now operationId
    state w cid w' :
  isolated w →
  createCheckpoint date_now random iso_now operationId state w
    = Some (Return cid, w') →
  isolated w'.
Proof.
  intros [Hclosed Hapart]
    (snapshot & mem & -> & -> & Hcov & -> & Hframe & Hfresh & Hcopied)
      %createCheckpoint_returns.
  set (h' := heap_of (store_checkpoint _ _ _)) in *. simpl in h'.
  assert (∀ l, l ∈ dom (heap_of w) → l ∈ dom h') as Hdom.
  { intros l Hl. apply elem_of_dom. rewrite Hframe by done.
    by apply elem_of_dom. }
  assert (∀ x, reachable h' (rename mem state) x →
               (x ∉ dom (heap_of w)) ∧ (x ∈ dom h')) as Hnew.
  { intros x Hx.
    destruct (reachable_copy _ mem h' Hcopied _ _ Hx state Hcov eq_refl)
      as [l Hl].
    split; [by apply (Hfresh l)|].
    destruct (Hcopied l x Hl) as (fs & _ & Hat & _).
    by apply elem_of_dom_2 in Hat. }
  assert (∀ i cp x,
            this_checkpoints w !! i = Some cp →
            reachable h' (state_snapshot cp) x →
            reachable (heap_of w) (state_snapshot cp) x) as Hold.
  { intros i cp x Hcp Hx.
    by apply (reachable_frame (heap_of w) h' Hframe _ _ Hx), (Hclosed i). }
  split.
  - intros i cp. simpl. fold h'.
    destruct (decide (i = generateCheckpointId date_now random)) as [->|Hne].
    + rewrite lookup_insert_eq. intros [= <-] x Hx. simpl in Hx.
      by apply Hnew.
    + rewrite lookup_insert_ne by done. intros Hcp x Hx.
      apply Hdom, (Hclosed i cp Hcp), (Hold i cp x Hcp Hx).
  - intros i j cp cq x. simpl. fold h'.
    destruct (decide (i = generateCheckpointId date_now random)) as [->|Hi];
      destruct (decide (j = generateCheckpointId date_now random)) as [->|Hj];
      rewrite ?lookup_insert_eq, ?lookup_insert_ne by done.
    + done.
    + intros [= <-] Hcq _ Hx Hy. simpl in Hx.
      apply (Hnew x Hx). apply (Hclosed j cq Hcq), (Hold j cq x Hcq Hy).
    + intros Hcp [= <-] _ Hx Hy. simpl in Hy.
      apply (Hnew x Hy). apply (Hclosed i cp Hcp), (Hold i cp x Hcp Hx).
    + intros Hcp Hcq Hne Hx Hy.
      apply (Hapart i j cp cq x Hcp Hcq Hne); by eapply Hold.
Qed.

(** *** At concrete inputs *)

Import Examples MoreExamples.

(** An object with a callback cannot be checkpointed. *)
Lemma createCheckpoint_refusal_witness :
  createCheckpoint "1700000000000" "k3j9x2m1q" "2023-11-14T22:13:20.000Z"
    "op-8" (VRef 1%positive) callback_world
  = Some (Throw data_clone_error, callback_world).
Proof.
  apply createCheckpoint_refusal. exists (VRef 2%positive).
  split; [|by right]. right.
  exists 1%positive, [("onDone", VRef 2%positive)], "onDone".
  split; [apply reach_here|]. split; [reflexivity|].
  apply list_elem_of_In. left. reflexivity.
Defined.

(** Nor can an object that holds a symbol, although it reaches no
    function. *)
Example createCheckpoint_symbol :
  createCheckpoint "1700000000000" "k3j9x2m1q" "2023-11-14T22:13:20.000Z"
    "op-9" (VRef 1%positive) symbol_world
  = Some (Throw data_clone_error, symbol_world).
Proof. reflexivity. Qed.

Lemma createCheckpoint_keeps_earlier_witness :
  ∃ w' cp,
    createCheckpoint "1700000000500" "p0o9i8u7y" "2023-11-14T22:13:20.500Z"
      "op-8" (VRef 2%positive) checkpointed_world
    = Some (Return "cp_1700000000500_p0o9i8u7y", w') ∧
    this_checkpoints checkpointed_world !! "cp_1700000000000_k3j9x2m1q"
      = Some cp ∧
    this_checkpoints w' !! "cp_1700000000000_k3j9x2m1q" = Some cp ∧
    size (this_checkpoints w') = 2%nat.
Proof.
  destruct (createCheckpoint "1700000000500" "p0o9i8u7y"
              "2023-11-14T22:13:20.500Z" "op-8" (VRef 2%positive)
              checkpointed_world)
    as [[c w']|] eqn:Hrun; [|vm_compute in Hrun; discriminate].
  assert (c = Return "cp_1700000000500_p0o9i8u7y") as ->.
  { vm_compute in Hrun. by injection Hrun as <- _. }
  destruct (this_checkpoints checkpointed_world
              !! "cp_1700000000000_k3j9x2m1q") as [cp|] eqn:Hcp;
    [|vm_compute in Hcp; discriminate].
  destruct (createCheckpoint_keeps_earlier _ _ _ _ _ _ _ _ Hrun)
    as (_ & _ & _ & _ & Hkept & _).
  destruct (Hkept "cp_1700000000000_k3j9x2m1q" cp ltac:(done) Hcp)
    as [Hstill _].
  exists w', cp. split; [done|]. split; [done|]. split; [exact Hstill|].
  vm_compute in Hrun. injection Hrun as <-. vm_compute. reflexivity.
Defined.

(** A second checkpoint, taken while a first one is in the store: the two
    snapshots are the objects at 3 and at 5, and no object is reached by
    both. *)
Lemma createCheckpoint_isolated_witness :
  isolated checkpointed_world ∧
  ∃ w' cp cq,
    createCheckpoint "1700000000500" "p0o9i8u7y" "2023-11-14T22:13:20.500Z"
      "op-8" (VRef 2%positive) checkpointed_world
    = Some (Return "cp_1700000000500_p0o9i8u7y", w') ∧
    this_checkpoints w' !! "cp_1700000000000_k3j9x2m1q" = Some cp ∧
    this_checkpoints w' !! "cp_1700000000500_p0o9i8u7y" = Some cq ∧
    state_snapshot cp = VRef 3%positive ∧
    state_snapshot cq = VRef 5%positive ∧
    isolated w'.
Proof.
  assert (isolated checkpointed_world) as Hfirst.
  { apply (createCheckpoint_isolated "1700000000000" "k3j9x2m1q"
             "2023-11-14T22:13:20.000Z" "op-7" (VRef 1%positive) live_world
             "cp_1700000000000_k3j9x2m1q" checkpointed_world).
    - split.
      + intros i cp Hcp. simpl in Hcp. by rewrite lookup_empty in Hcp.
      + intros i j cp cq l Hcp. simpl in Hcp. by rewrite lookup_empty in Hcp.
    - vm_compute. reflexivity. }
  split; [exact Hfirst|].
  destruct (createCheckpoint "1700000000500" "p0o9i8u7y"
              "2023-11-14T22:13:20.500Z" "op-8" (VRef 2%positive)
              checkpointed_world)
    as [[c w']|] eqn:Hrun; [|vm_compute in Hrun; discriminate].
  assert (c = Return "cp_1700000000500_p0o9i8u7y") as ->.
  { vm_compute in Hrun. by injection Hrun as <- _. }
  pose proof (createCheckpoint_isolated _ _ _ _ _ checkpointed_world _ _
                Hfirst Hrun) as Hsecond.
  destruct (this_checkpoints w' !! "cp_1700000000000_k3j9x2m1q")
    as [cp|] eqn:Hcp;
    [|vm_compute in Hrun; injection Hrun as <-; vm_compute in Hcp;
      discriminate].
  destruct (this_checkpoints w' !! "cp_1700000000500_p0o9i8u7y")
    as [cq|] eqn:Hcq;
    [|vm_compute in Hrun; injection Hrun as <-; vm_compute in Hcq;
      discriminate].
  exists w', cp, cq. split; [done|]. split; [done|]. split; [done|].
  split; [|split; [|exact Hsecond]].
  - vm_compute in Hrun. injection Hrun as <-. vm_compute in Hcp.
    by injection Hcp as <-.
  - vm_compute in Hrun. injection Hrun as <-. vm_compute in Hcq.
    by injection Hcq as <-.
Defined.

End CheckpointMore.

(** ** Cross-system collaboration: refused locks and failed releases *)

Module CollaborationMore.
Import CollaborationManager CollaborationManagerSpec.
Import CollaborationProps.

Lemma step_with_table {Ext} s (w : World Ext) :
  step Ext s (with_table Ext (lock_table Ext w) w) = step Ext s w.
Proof. by destruct w. Qed.

(** A request leaves the leases on the other resources in the table,
    whether it is granted or refused. *)
Lemma lock_acquire_keeps now request t lk :
  lk ∈ t → resource_id lk ≠ resource_id request →
  lk ∈ (lock_acquire now request t).2.
Proof.
  intros Hin Hother. unfold lock_acquire.
  destruct (existsb _ t); simpl; [done|].
  apply elem_of_cons. right. apply list_elem_of_In, filter_In.
  split; [by apply list_elem_of_In|].
  unfold on_resource. by apply String.eqb_neq in Hother as ->.
Qed.

Lemma lock_acquire_granted now request t lk t' :
  lock_acquire now request t = (Return lk, t') → request ∈ t'.
Proof.
  unfold lock_acquire. destruct (existsb _ t); [done|].
  intros [= _ <-]. by apply elem_of_cons; left.
Qed.

Section Props.
Variable Ext : Type.
Variable OperationResult : Type.
Variable clock : nat → Z.
Variable publish :
  SystemEvent → list ResourceLock * Ext
  → completion unit * (list ResourceLock * Ext).
Variable executeWithCoordination :
  CollaborativeOperation → list ResourceLock * Ext
  → completion OperationResult * (list ResourceLock * Ext).
Variable systemId : string.

Local Abbreviation World := (World Ext).
Local Abbreviation lock_table := (lock_table Ext).
Local Abbreviation steps := (steps Ext).
Local Abbreviation ext := (ext Ext).
Local Abbreviation lock_request := (lock_request systemId).
Local Abbreviation acquireLocks := (acquireLocks Ext clock systemId).
Local Abbreviation acquireLocks_from := (acquireLocks_from Ext clock systemId).
Local Abbreviation releaseLocks := (releaseLocks Ext).
Local Abbreviation coordinateOperation :=
  (coordinateOperation Ext OperationResult clock publish
     executeWithCoordination systemId).

(** The coordinator has a lease on [g] that it built from two successive
    readings of the clock. *)
Local Abbreviation leased t g :=
  (∃ k, lock_request (clock k) (clock (S k)) g ∈ (t : list ResourceLock)).

Lemma acquireLocks_from_refused : ∀ rs held acc (w : World) e w',
  (∀ g, g ∈ held → leased (lock_table w) g) →
  acquireLocks_from acc rs w = (Throw e, w') →
  ∃ granted r rest,
    rs = granted ++ r :: rest ∧
    steps w' = steps w ++ map Acquired granted ++ [Refused r] ∧
    ext w' = ext w ∧
    (∀ g, g ∈ held ++ granted → leased (lock_table w') g).
Proof.
  induction rs as [|r rs IH]; intros held acc w e w' Hheld; [done|].
  rewrite (acquireLocks_from_step Ext clock systemId),
    (acquire_turn Ext clock systemId). cbv zeta.
  set (n := clock_reads Ext w).
  assert (∀ g, g ∈ held →
            leased (lock_acquire (clock (S (S n)))
                      (lock_request (clock n) (clock (S n)) r)
                      (lock_table w)).2 g) as Hkeeps.
  { intros g Hg. destruct (decide (g = r)) as [->|Hne].
    - destruct (lock_acquire (clock (S (S n)))
                  (lock_request (clock n) (clock (S n)) r) (lock_table w))
        as [[lk|e0] t'] eqn:Hacq; simpl.
      + exists n. by apply lock_acquire_granted in Hacq.
      + unfold lock_acquire in Hacq. destruct (existsb _ _); [|done].
        injection Hacq as _ <-. by apply Hheld.
    - destruct (Hheld g Hg) as [k Hk]. exists k.
      by apply lock_acquire_keeps. }
  destruct (lock_acquire (clock (S (S n)))
              (lock_request (clock n) (clock (S n)) r) (lock_table w))
    as [[lk|e0] t'] eqn:Hacq; simpl in *.
  - intros Hrun.
    apply (IH (held ++ [r])) in Hrun
      as (granted & r' & rest & -> & Hsteps & Hext & Htable).
    + exists (r :: granted), r', rest. split; [done|].
      simpl in *. rewrite Hsteps, <- !app_assoc. split; [done|].
      split; [done|]. intros g Hg. apply Htable.
      by rewrite <- app_assoc.
    + intros g [Hg| ->%list_elem_of_singleton]%elem_of_app; simpl.
      * by apply Hkeeps.
      * exists n. by apply lock_acquire_granted in Hacq.
  - intros [= <- <-]. exists [], r, rs. split; [done|]. simpl.
    split; [done|]. split; [done|]. rewrite app_nil_r. exact Hkeeps.
Qed.

(** X12.  When a lock is refused, [acquireLocks] throws before the [try] block is
    entered: [coordinateOperation] throws the same error; no event is
    published and the operation is not executed; and the locks granted
    before the refusal are not released: for each of them a lease of the
    coordinator, as it built it from two successive readings of the clock,
    is still in the lock table. *)
Theorem coordinateOperation_lock_refused evt1 evt2 operation w e w1 :
  acquireLocks (resources operation) w = (Throw e, w1) →
  coordinateOperation evt1 evt2 operation w = (Throw e, w1) ∧
  ∃ granted r rest,
    resources operation = granted ++ r :: rest ∧
    steps w1 = steps w ++ map Acquired granted ++ [Refused r] ∧
    released_resources (steps w1) = released_resources (steps w) ∧
    ext w1 = ext w ∧
    (∀ g, g ∈ granted →
          ∃ k, lock_request (clock k) (clock (S k)) g ∈ lock_table w1).
Proof.
  intros Hacq. split.
  { unfold CollaborationManager.coordinateOperation, Eff.bind at 1.
    by rewrite Hacq. }
  unfold CollaborationManager.acquireLocks in Hacq.
  apply (acquireLocks_from_refused _ []) in Hacq
    as (granted & r & rest & Hrs & Hsteps & Hext & Htable);
    [|by intros g ?%elem_of_nil].
  exists granted, r, rest. split; [done|]. split; [done|].
  split; [|by split].
  rewrite Hsteps, !released_resources_app, released_resources_Acquired.
  simpl. by rewrite app_nil_r.
Qed.

(** X13.  [releaseLocks] stops at the first release that fails: the locks before
    it have been released, in order, the error of that release is thrown,
    and no release is attempted for the locks after it. *)
Theorem releaseLocks_stops_at_failure : ∀ locks w e w',
  releaseLocks locks w = (Throw e, w') →
  ∃ released lk rest w0,
    locks = released ++ lk :: rest ∧
    releaseLocks released w = (Return tt, w0) ∧
    steps w0 = steps w ++ map Released (map resource_id released) ∧
    (lock_release (resource_id lk) (holder lk) (lock_table w0)).1 = Throw e ∧
    w' = step Ext (ReleaseFailed (resource_id lk)) w0.
Proof.
  induction locks as [|lk locks IH]; intros w e w'; simpl; [done|].
  unfold Eff.bind, distributedLock_release.
  destruct (lock_release (resource_id lk) (holder lk) (lock_table w))
    as [[[]|e0] t] eqn:Hrel.
  - intros (released & lk' & rest & w0 & -> & Hrun & Hsteps & Hfail & ->)%IH.
    exists (lk :: released), lk', rest, w0. split; [done|]. simpl.
    unfold Eff.bind, distributedLock_release. rewrite Hrel.
    split; [done|]. split; [|done].
    rewrite Hsteps. simpl. by rewrite <- app_assoc.
  - intros [= <- <-]. exists [], lk, locks, w. simpl.
    split; [done|]. split; [done|]. rewrite app_nil_r. split; [done|].
    rewrite Hrel. split; [done|].
    unfold lock_release in Hrel. destruct (existsb _ _); [done|].
    injection Hrel as _ <-. by rewrite step_with_table.
Qed.

End Props.

(** *** At concrete inputs *)

Import Examples.

Lemma coordinateOperation_lock_refused_witness :
  coordinateOperation () string ticking quiet_bus run_ok "instance-1"
    "evt_1" "evt_2" op_a_a idle
  = (Throw lock_conflict_error,
     (acquireLocks () ticking "instance-1" ["a"; "a"] idle).2) ∧
  ∃ granted r rest,
    ["a"; "a"] = granted ++ r :: rest ∧
    steps () (acquireLocks () ticking "instance-1" ["a"; "a"] idle).2
      = steps () idle ++ map Acquired granted ++ [Refused r] ∧
    released_resources
      (steps () (acquireLocks () ticking "instance-1" ["a"; "a"] idle).2)
      = released_resources (steps () idle) ∧
    ext () (acquireLocks () ticking "instance-1" ["a"; "a"] idle).2
      = ext () idle ∧
    (∀ g, g ∈ granted →
          ∃ k, lock_request "instance-1" (ticking k) (ticking (S k)) g
               ∈ lock_table ()
                   (acquireLocks () ticking "instance-1" ["a"; "a"] idle).2).
Proof.
  apply (coordinateOperation_lock_refused () string ticking quiet_bus run_ok
           "instance-1" "evt_1" "evt_2" op_a_a idle).
  reflexivity.
Defined.

(** Releasing two locks that are not held: the first release fails and the
    second is not attempted. *)
Lemma releaseLocks_stops_at_failure_witness :
  ∃ released lk rest w0,
    map (lock_request "instance-1" 0 0) ["a"; "b"] = released ++ lk :: rest ∧
    releaseLocks () released idle = (Return tt, w0) ∧
    steps () w0 = steps () idle ++ map Released (map resource_id released) ∧
    (lock_release (resource_id lk) (holder lk) (lock_table () w0)).1
      = Throw not_holder_error ∧
    step () (ReleaseFailed "a") idle
      = step () (ReleaseFailed (resource_id lk)) w0.
Proof.
  apply (releaseLocks_stops_at_failure ()
           (map (lock_request "instance-1" 0 0) ["a"; "b"]) idle).
  reflexivity.
Defined.

End CollaborationMore.

(** ** Tool registry *)

Module ToolRegistryProps.
Import IntelligentToolRegistry.

Ltac case_completions :=
  repeat match goal with
  | |- context [match ?c with Return _ => _ | Throw _ => _ end] =>
      let H := fresh "Hc" in destruct c eqn:H; simpl
  end.

Section Props.
Variable getRelevantOntology : EnhancedTool → completion string.
Variable inferCategories : EnhancedTool → completion (list string).
Variable extractCapabilities : EnhancedTool → completion (list string).
Variable analyzeSideEffects : EnhancedTool → completion (list string).
Variable isIdempotent : EnhancedTool → completion bool.
Variable isDeterministic : EnhancedTool → completion bool.
Variable initializeMetrics : string → completion string.
Variable Graph : Type.
Variable buildDependencyGraph : list string → completion Graph.
Variable topologicalSort : Graph → completion (list string).
Variable inferInputMappings :
  option EnhancedTool → list WorkflowStep → completion string.
Variable inferOutputMappings : option EnhancedTool → completion string.
Variable generateConditions : option EnhancedTool → completion (list string).
Variable generateRetryPolicy : option EnhancedTool → completion string.

Local Abbreviation registerTool :=
  (registerTool getRelevantOntology inferCategories extractCapabilities
     analyzeSideEffects isIdempotent isDeterministic initializeMetrics).
Local Abbreviation compose_steps :=
  (compose_steps inferInputMappings inferOutputMappings generateConditions
     generateRetryPolicy).
Local Abbreviation composeWorkflow :=
  (composeWorkflow Graph buildDependencyGraph topologicalSort
     inferInputMappings inferOutputMappings generateConditions
     generateRetryPolicy).

Local Abbreviation enrichSemantics :=
  (enrichSemantics getRelevantOntology inferCategories extractCapabilities
     analyzeSideEffects isIdempotent isDeterministic).

Lemma validateLegacyCompatibility_spec tool :
  (name tool = "" ∨ inputSchema tool = None →
     validateLegacyCompatibility tool
     = Throw (Error.new
         "Tool missing required legacy fields for backwards compatibility")) ∧
  (validateLegacyCompatibility tool = Return tt →
     name tool ≠ "" ∧ is_Some (inputSchema tool)).
Proof.
  unfold validateLegacyCompatibility.
  destruct (String.eqb_spec (name tool) "") as [->|Hname]; simpl.
  { split; [done|]. intros [=]. }
  destruct (inputSchema tool) as [schema|]; simpl.
  - split; [|by eauto]. intros [?|[=]]. done.
  - split; [done|]. intros [=].
Qed.

Lemma alter_at {A} (f : A → A) (m : gmap ref A) i x :
  m !! i = Some x → alter f i m = <[i := f x]> m.
Proof.
  intros Hx. apply map_eq. intros j. destruct (decide (j = i)) as [->|Hne].
  - by rewrite lookup_alter_eq, lookup_insert_eq, Hx.
  - by rewrite lookup_alter_ne, lookup_insert_ne.
Qed.

(** The analyses leave the registry and the objects alone. *)
Lemma enrichSemantics_state t s : (enrichSemantics t s).2 = s.
Proof.
  unfold IntelligentToolRegistry.enrichSemantics, Eff.bind, Eff.lift, Eff.ret.
  by case_completions.
Qed.

(** The five ways through [registerTool]. *)
Lemma registerTool_run tool s :
  registerTool tool s =
  match objects s !! tool with
  | None => (Throw type_error, s)
  | Some t =>
      match validateLegacyCompatibility t with
      | Throw e => (Throw e, s)
      | Return _ =>
          match (enrichSemantics t s).1 with
          | Throw e => (Throw e, s)
          | Return sem =>
              match initializeMetrics (name t) with
              | Throw e =>
                  (Throw e,
                   {| this_tools := this_tools s;
                      this_workflows := this_workflows s;
                      objects := <[tool := with_semantics sem t]> (objects s) |})
              | Return perf =>
                  (Return tt,
                   {| this_tools := <[name t := tool]> (this_tools s);
                      this_workflows := this_workflows s;
                      objects := <[tool := enriched sem perf t]> (objects s) |})
              end
          end
      end
  end.
Proof.
  unfold IntelligentToolRegistry.registerTool, Eff.bind at 1, deref.
  destruct (objects s !! tool) as [t|] eqn:Ht; [|done].
  unfold Eff.bind at 1, Eff.lift.
  destruct (validateLegacyCompatibility t) as [[]|e]; [|done].
  unfold Eff.bind at 1.
  pose proof (enrichSemantics_state t s) as Hs.
  destruct (enrichSemantics t s) as [[sem|e] s1]; simpl in Hs; subst s1;
    [|done].
  simpl. unfold Eff.bind, Eff.modify, Eff.lift, assign. simpl.
  rewrite lookup_alter_eq, Ht. simpl.
  destruct (initializeMetrics (name t)) as [perf|e].
  - simpl. rewrite lookup_alter_eq, lookup_alter_eq, Ht. simpl.
    unfold set_tool. simpl. f_equal. f_equal.
    rewrite (alter_at _ _ _ _ Ht).
    rewrite (alter_at _ _ _ _ (lookup_insert_eq _ _ _)).
    by rewrite insert_insert_eq.
  - by rewrite (alter_at _ _ _ _ Ht).
Qed.

(** X14.  A tool with an empty name or without an input schema is refused
    with the legacy-fields error before anything is changed.  Whenever
    [registerTool] throws, the two maps of the registry are as they were
    and so is every other object; the object of the caller is as it was
    too, except when [enrichSemantics] had returned and [initializeMetrics]
    threw: [tool.semantics] has then been overwritten, also for the entries
    of the registry that refer to that object. *)
Theorem registerTool_failure tool s :
  (∀ t, objects s !! tool = Some t →
        name t = "" ∨ inputSchema t = None →
        registerTool tool s
        = (Throw (Error.new
             "Tool missing required legacy fields for backwards compatibility"),
           s)) ∧
  (∀ e s', registerTool tool s = (Throw e, s') →
     this_tools s' = this_tools s ∧
     this_workflows s' = this_workflows s ∧
     (∀ l, l ≠ tool → objects s' !! l = objects s !! l) ∧
     match objects s !! tool with
     | None => e = type_error ∧ s' = s
     | Some t =>
         match validateLegacyCompatibility t, (enrichSemantics t s).1 with
         | Return _, Return sem =>
             initializeMetrics (name t) = Throw e ∧
             objects s' = <[tool := with_semantics sem t]> (objects s) ∧
             (∀ k, this_tools s !! k = Some tool →
                   get_tool s' k = Some (with_semantics sem t))
         | _, _ => s' = s
         end
     end).
Proof.
  rewrite registerTool_run. split.
  - intros t Ht Hbad. rewrite Ht.
    by rewrite (proj1 (validateLegacyCompatibility_spec t) Hbad).
  - intros e s'. destruct (objects s !! tool) as [t|] eqn:Ht.
    2: { by intros [= <- <-]. }
    destruct (validateLegacyCompatibility t) as [[]|e0].
    2: { by intros [= <- <-]. }
    destruct ((enrichSemantics t s).1) as [sem|e0].
    2: { by intros [= <- <-]. }
    destruct (initializeMetrics (name t)) as [perf|e0]; [done|].
    intros [= <- <-]. simpl.
    split; [done|]. split; [done|].
    split; [by intros l Hl; rewrite lookup_insert_ne|].
    split; [done|]. split; [done|].
    intros k Hk. unfold get_tool. simpl. rewrite Hk. simpl.
    apply lookup_insert_eq.
Qed.

(** X15.  When [registerTool] returns, the registry refers under the name of
    the tool to the very object that was passed, and that object now
    carries the semantics and the metrics just computed, its other fields
    being as they were.  The other names refer to what they referred to,
    the other objects and the workflows are unchanged: a name that referred
    to another object shows the same tool as before, and a name that
    already referred to this object shows the new semantics and metrics.
    The registry is still well formed if it was. *)
Theorem registerTool_success tool s s' :
  registerTool tool s = (Return tt, s') →
  ∃ t sem perf,
    objects s !! tool = Some t ∧
    (enrichSemantics t s).1 = Return sem ∧
    initializeMetrics (name t) = Return perf ∧
    this_tools s' = <[name t := tool]> (this_tools s) ∧
    objects s' = <[tool := enriched sem perf t]> (objects s) ∧
    this_workflows s' = this_workflows s ∧
    get_tool s' (name t) = Some (enriched sem perf t) ∧
    (∀ k, this_tools s !! k = Some tool →
          get_tool s' k = Some (enriched sem perf t)) ∧
    (∀ k, k ≠ name t → this_tools s !! k ≠ Some tool →
          get_tool s' k = get_tool s k) ∧
    (well_formed s → well_formed s').
Proof.
  rewrite registerTool_run.
  destruct (objects s !! tool) as [t|] eqn:Ht; [|done].
  destruct (validateLegacyCompatibility t) as [[]|e0] eqn:Hvalid; [|done].
  apply validateLegacyCompatibility_spec in Hvalid as [Hname Hschema].
  destruct ((enrichSemantics t s).1) as [sem|e0] eqn:Hsem; [|done].
  destruct (initializeMetrics (name t)) as [perf|e0] eqn:Hperf; [|done].
  intros [= <-]. exists t, sem, perf. simpl.
  do 6 (split; [done|]).
  assert (∀ k, (<[name t := tool]> (this_tools s)) !! k = Some tool →
            get_tool
              {| this_tools := <[name t := tool]> (this_tools s);
                 this_workflows := this_workflows s;
                 objects := <[tool := enriched sem perf t]> (objects s) |} k
            = Some (enriched sem perf t)) as Hsame.
  { intros k Hk. unfold get_tool. simpl. rewrite Hk. simpl.
    apply lookup_insert_eq. }
  split; [apply Hsame, lookup_insert_eq|].
  split.
  { intros k Hk. apply Hsame.
    destruct (decide (k = name t)) as [->|Hne];
      [apply lookup_insert_eq|by rewrite lookup_insert_ne]. }
  split.
  { intros k Hne Hother. unfold get_tool. simpl.
    rewrite lookup_insert_ne by done.
    destruct (this_tools s !! k) as [l|]; [|done]. simpl.
    rewrite lookup_insert_ne; [done|]. congruence. }
  intros Hwf k l. simpl.
  destruct (decide (k = name t)) as [->|Hne].
  - rewrite lookup_insert_eq. intros [= <-]. exists (enriched sem perf t).
    rewrite lookup_insert_eq. simpl. by eauto 10.
  - rewrite lookup_insert_ne by done. intros Hk.
    destruct (Hwf k l Hk) as (t0 & Hl & Hrest).
    destruct (decide (l = tool)) as [->|Hl'].
    + rewrite lookup_insert_eq. exists (enriched sem perf t).
      split; [done|]. rewrite Ht in Hl. injection Hl as <-. simpl.
      destruct Hrest as (? & ? & ? & _). by eauto 10.
    + exists t0. by rewrite lookup_insert_ne.
Qed.

Lemma compose_steps_spec : ∀ order acc s,
  (compose_steps order acc s).2 = s ∧
  ∀ steps, (compose_steps order acc s).1 = Return steps →
    ∃ new, steps = acc ++ new ∧ map tool new = order.
Proof.
  induction order as [|toolName order IH]; intros acc s; simpl.
  - split; [done|]. intros steps [= <-]. exists []. by rewrite app_nil_r.
  - unfold Eff.bind, Eff.get, Eff.lift.
    destruct (inferInputMappings (get_tool s toolName) acc) as [i|e];
      [|done].
    destruct (inferOutputMappings (get_tool s toolName)) as [o|e];
      [|done].
    destruct (generateConditions (get_tool s toolName)) as [c|e];
      [|done].
    destruct (generateRetryPolicy (get_tool s toolName)) as [r|e];
      [|done].
    destruct (IH (acc ++ [{| tool := toolName; inputs := i; outputs := o;
                             conditions := c; retry_policy := r |}]) s)
      as [Hs Hsteps].
    split; [done|]. intros steps (new & -> & Hnew)%Hsteps.
    eexists (_ :: new). rewrite <- app_assoc. split; [done|].
    simpl. by rewrite Hnew.
Qed.

(** X16.  A workflow returned by [composeWorkflow] has one step per tool of the
    execution order computed from the dependency graph, in that order,
    whether or not these tools are registered; it carries the id
    [wf_<time>_<random>] and the fixed rollback policy (3 retries, 300
    seconds), and is stored under its id.  The tools are never changed,
    neither the map nor the objects it refers to, and when
    [composeWorkflow] throws nothing is stored. *)
Theorem composeWorkflow_steps date_now random tools goal s :
  match composeWorkflow date_now random tools goal s with
  | (Return wf, s') =>
      (∃ graph order,
         buildDependencyGraph tools = Return graph ∧
         topologicalSort graph = Return order ∧
         map tool (steps wf) = order) ∧
      workflow_id wf = "wf_" +:+ date_now +:+ "_" +:+ random ∧
      error_handling wf = {| strategy := "rollback_on_failure";
                             max_retries := 3; timeout_seconds := 300 |} ∧
      this_workflows s' = <[workflow_id wf := wf]> (this_workflows s) ∧
      this_tools s' = this_tools s ∧
      objects s' = objects s
  | (Throw e, s') => s' = s
  end.
Proof.
  unfold IntelligentToolRegistry.composeWorkflow, Eff.bind at 1 2 3,
    Eff.lift.
  destruct (buildDependencyGraph tools) as [graph|e]; [|done].
  destruct (topologicalSort graph) as [order|e] eqn:Horder; [|done].
  destruct (compose_steps_spec order [] s) as [Hs Hsteps].
  destruct (compose_steps order [] s) as [[steps|e] s1]; simpl in *;
    subst s1; [|done].
  destruct (Hsteps steps eq_refl) as (new & -> & Hnew).
  unfold Eff.bind, Eff.modify, Eff.ret. simpl.
  split; [|done]. by exists graph, order.
Qed.

End Props.

(** *** At concrete inputs *)

Import MoreExamples.

(** The calculator is registered; registering it again while
    [initializeMetrics] is failing throws, and the registered calculator has
    the semantics of the failed call. *)
Lemma registerTool_failure_witness :
  get_tool busy_registry "calculator" = Some registered_calculator ∧
  ∃ s',
    registerTool (λ _, Return "https://schema.org/Text")
      (λ _, Return ["text"]) (λ _, Return []) (λ _, Return ["network"])
      (λ _, Return false) (λ _, Return false)
      (λ _, Throw (Error.new "metrics store unavailable"))
      1%positive busy_registry
    = (Throw (Error.new "metrics store unavailable"), s') ∧
    this_tools s' = this_tools busy_registry ∧
    get_tool s' "calculator"
      = Some (with_semantics text_semantics registered_calculator) ∧
    get_tool s' "search" = get_tool busy_registry "search".
Proof.
  split; [reflexivity|]. eexists. split; [reflexivity|].
  destruct (registerTool_failure (λ _, Return "https://schema.org/Text")
              (λ _, Return ["text"]) (λ _, Return []) (λ _, Return ["network"])
              (λ _, Return false) (λ _, Return false)
              (λ _, Throw (Error.new "metrics store unavailable"))
              1%positive busy_registry) as [_ Hthrows].
  destruct (Hthrows _ _ eq_refl) as (Htools & _ & Hothers & Hobject).
  simpl in Hobject. destruct Hobject as (_ & _ & Hentry).
  split; [exact Htools|]. split; [by apply Hentry|].
  unfold get_tool. rewrite Htools. simpl. by apply Hothers.
Defined.

(** A tool without a name is refused and nothing changes. *)
Example registerTool_nameless :
  registerTool (λ _, Return "ontology") (λ _, Return []) (λ _, Return [])
    (λ _, Return []) (λ _, Return true) (λ _, Return true)
    (λ _, Return "metrics") 2%positive empty_registry
  = (Throw (Error.new
       "Tool missing required legacy fields for backwards compatibility"),
     empty_registry).
Proof. reflexivity. Qed.

(** The search tool is registered again, with other analyses: the registry
    refers to the same object, which has the new semantics; the calculator
    is as it was. *)
Lemma registerTool_success_witness :
  well_formed busy_registry ∧
  ∃ s',
    registerTool (λ _, Return "https://schema.org/Text")
      (λ _, Return ["text"]) (λ _, Return []) (λ _, Return ["network"])
      (λ _, Return false) (λ _, Return false) (λ _, Return "fresh metrics")
      2%positive busy_registry
    = (Return tt, s') ∧
    this_tools s' !! "search" = Some 2%positive ∧
    get_tool s' "search"
      = Some (enriched text_semantics "fresh metrics" registered_search) ∧
    get_tool s' "calculator" = Some registered_calculator ∧
    well_formed s'.
Proof.
  assert (well_formed busy_registry) as Hwf.
  { intros k l Hk. simpl in Hk.
    destruct (decide (k = "calculator")) as [->|Hcalc];
      [|destruct (decide (k = "search")) as [->|Hsearch]].
    - vm_compute in Hk. injection Hk as <-.
      exists registered_calculator. simpl. by eauto 10.
    - vm_compute in Hk. injection Hk as <-.
      exists registered_search. simpl. by eauto 10.
    - rewrite lookup_insert_ne, lookup_singleton_ne in Hk by done. done. }
  split; [exact Hwf|]. eexists. split; [reflexivity|].
  destruct (registerTool_success (λ _, Return "https://schema.org/Text")
              (λ _, Return ["text"]) (λ _, Return []) (λ _, Return ["network"])
              (λ _, Return false) (λ _, Return false)
              (λ _, Return "fresh metrics") 2%positive busy_registry _ eq_refl)
    as (t & sem & perf & Ht & Hsem & Hperf & Htools & _ & _ & Hnew & _
        & Hframe & Hkeeps).
  vm_compute in Ht. injection Ht as <-.
  simpl in Hsem, Hperf. injection Hsem as <-. injection Hperf as <-.
  split; [by rewrite Htools|]. split; [exact Hnew|].
  split; [by rewrite Hframe|]. by apply Hkeeps.
Defined.

(** An object registered as [calc] and since renamed [calculator] is
    registered again: the entry [calc], which refers to the same object,
    changes with it. *)
Example registerTool_alias :
  ∃ s',
    registerTool (λ _, Return "https://schema.org/Text")
      (λ _, Return ["text"]) (λ _, Return []) (λ _, Return ["network"])
      (λ _, Return false) (λ _, Return false) (λ _, Return "fresh metrics")
      1%positive renamed_registry
    = (Return tt, s') ∧
    get_tool renamed_registry "calc" = Some registered_calculator ∧
    get_tool s' "calc"
      = Some (enriched text_semantics "fresh metrics" registered_calculator) ∧
    get_tool s' "calculator" = get_tool s' "calc".
Proof. eexists. split; [reflexivity|]. by vm_compute. Qed.

End ToolRegistryProps.

(** ** Consent *)

Module ConsentProps.
Import HumanInterface.

Section Props.
Variable S : Type.
Variable HumanExplanation : Type.
Variable TimeEstimate : Type.
Variable RiskAssessment : Type.
Variable generateExplanation : ConsentRequest → Eff S HumanExplanation.
Variable estimateTime : ConsentRequest → completion TimeEstimate.
Variable assessRisk : ConsentRequest → completion RiskAssessment.
Variable recordConsent : ConsentRequest → ConsentResponse → Eff S unit.

Local Abbreviation requestConsent :=
  (requestConsent S HumanExplanation TimeEstimate RiskAssessment
     generateExplanation estimateTime assessRisk recordConsent).

(** X17.  Whatever is asked, a response returned by [requestConsent] grants the
    request, without conditions, under the request id [mock] (the consent
    dialog is built without a request id); this response is the one that
    was recorded by the consent manager. *)
Theorem requestConsent_always_grants now operation s response s' :
  requestConsent now operation s = (Return response, s') →
  response = {| request_id := "mock"; granted := true; conditions := [];
                timestamp := now |} ∧
  ∃ s1, recordConsent operation response s1 = (Return tt, s').
Proof.
  unfold HumanInterface.requestConsent, createConsentUI, waitForUserConsent,
    Eff.bind, Eff.lift, Eff.ret.
  destruct (generateExplanation operation s) as [[ex|e] s1]; [|done].
  destruct (estimateTime operation) as [t|e]; [|done].
  destruct (assessRisk operation) as [r|e]; [|done]. simpl.
  destruct (recordConsent operation _ s1) as [[[]|e] s2] eqn:Hrec; [|done].
  intros [= <- <-]. split; [done|]. by exists s1.
Qed.

End Props.

Import MoreExamples.

Lemma requestConsent_always_grants_witness :
  ∃ response,
    requestConsent (list ConsentResponse) string Z string
      explain (λ _, Return 30) (λ _, Return "high") record_in_list
      "2026-01-01T00:00:00.000Z" upload_request []
    = (Return response, [response]) ∧
    granted response = true ∧ request_id response = "mock".
Proof.
  eexists. split; [reflexivity|].
  destruct (requestConsent_always_grants (list ConsentResponse) string Z
              string explain (λ _, Return 30) (λ _, Return "high")
              record_in_list "2026-01-01T00:00:00.000Z" upload_request []
              _ _ eq_refl)
    as [-> _].
  by split.
Defined.

End ConsentProps.

(** ** The server: [handleMessage] *)

Module ServerProps.
Import SecurityFramework SecurityFrameworkSpec EnhancedMCPServerImpl.
Import SecurityFrameworkMore.

Section Props.
Variable App : Type.
Variable EnhancedError : Type.
Variable JSON_stringify : EnhancedMessage → completion string.
Variable crypto_createVerify : string → completion Verify.
Variable handleError :
  Error.t → OperationContext → Eff (State App) EnhancedError.
Variable handleToolsList :
  EnhancedMessage → Eff (State App) (Response EnhancedError).
Variable handleToolsCall :
  EnhancedMessage → Eff (State App) (Response EnhancedError).
Variable handleResourcesList :
  EnhancedMessage → Eff (State App) (Response EnhancedError).
Variable handleLegacyMessage :
  EnhancedMessage → Eff (State App) (Response EnhancedError).

Local Abbreviation verifySignature :=
  (verifySignature JSON_stringify crypto_createVerify).
Local Abbreviation processEnhancedMessage :=
  (processEnhancedMessage App EnhancedError handleToolsList handleToolsCall
     handleResourcesList handleLegacyMessage).
Local Abbreviation handleMessage getPermissions :=
  (handleMessage App EnhancedError JSON_stringify crypto_createVerify
     getPermissions handleError handleToolsList handleToolsCall
     handleResourcesList handleLegacyMessage).

(** The audit entry written for the error [e]. *)
Local Abbreviation entry audit_now e ctx :=
  {| entry_timestamp := audit_now; event := "authentication_failed";
     details_error := Error.message e; details_context := Some ctx |}.

(** Authentication of an enhanced message: the permissions are looked up
    for no user. *)
Lemma authenticate_enhanced getPermissions session correlation now audit_now
    message sf :
  let enhanced := enhanceMessage session correlation now message in
  let ctx := {| sessionId := session; userId := None; timestamp := now;
                correlationId := correlation; parentOperation := None |} in
  authenticateRequest JSON_stringify crypto_createVerify getPermissions audit_now
    enhanced sf
  = match signature message with
    | None => (Return public_read_only, sf)
    | Some sig =>
        match (verifySignature sig enhanced sf).1 with
        | Return true =>
            match getPermissions None (this_permissions sf) with
            | Return perms =>
                (Return {| authenticated := true;
                           permissions := map resource perms;
                           riskLevel := calculateRiskLevel perms;
                           requiresAudit := existsb auditRequired perms |},
                 sf)
            | Throw e => (Throw e, push_audit (entry audit_now e ctx) sf)
            end
        | Return false =>
            (Throw (Error.new "Invalid signature"),
             push_audit (entry audit_now (Error.new "Invalid signature") ctx)
               sf)
        | Throw e => (Throw e, push_audit (entry audit_now e ctx) sf)
        end
    end.
Proof.
  intros enhanced ctx. unfold SecurityFramework.authenticateRequest.
  change (signature enhanced) with (signature message).
  destruct (signature message) as [sig|]; [|done].
  unfold Eff.try_catch, Eff.bind at 1.
  pose proof (verifySignature_pure JSON_stringify crypto_createVerify sig enhanced sf)
    as Hst.
  destruct (verifySignature sig enhanced sf) as [[[]|e] s]; simpl in *;
    subst s; try done.
  unfold Eff.bind, Eff.get, Eff.lift.
  by destruct (getPermissions None (this_permissions sf)).
Qed.

(** X18.  [handleMessage] replaces the context of the message by one that it
    generates, which names no user: two messages that differ only in their
    context are handled alike, and the permission lookup is only ever made
    for the undefined user.  The authentication result is then dropped:
    with two permission stores whose lookup for that user returns, whatever
    the permissions, the message is handled alike. *)
Theorem handleMessage_ignores_user getPermissions getPermissions'
    session correlation now audit_now message message' s :
  (id message' = id message → method message' = method message →
   params message' = params message →
   signature message' = signature message →
   handleMessage getPermissions session correlation now audit_now message' s
   = handleMessage getPermissions session correlation now audit_now message s)
  ∧
  ((∀ table, getPermissions' None table = getPermissions None table) →
   handleMessage getPermissions' session correlation now audit_now message s
   = handleMessage getPermissions session correlation now audit_now message s)
  ∧
  ((∀ table, ∃ perms, getPermissions None table = Return perms) →
   (∀ table, ∃ perms, getPermissions' None table = Return perms) →
   handleMessage getPermissions' session correlation now audit_now message s
   = handleMessage getPermissions session correlation now audit_now message s).
Proof.
  split; [|split].
  - intros Hid Hmethod Hparams Hsig.
    unfold EnhancedMCPServerImpl.handleMessage.
    assert (enhanceMessage session correlation now message'
            = enhanceMessage session correlation now message) as ->.
    { unfold enhanceMessage. by rewrite Hid, Hmethod, Hparams, Hsig. }
    by rewrite Hid.
  - intros Hsame. unfold EnhancedMCPServerImpl.handleMessage,
      Eff.try_catch, Eff.bind at 1 3, on_security.
    rewrite !authenticate_enhanced. by rewrite Hsame.
  - intros Hret Hret'. unfold EnhancedMCPServerImpl.handleMessage,
      Eff.try_catch, Eff.bind at 1 3, on_security.
    rewrite !authenticate_enhanced.
    destruct (signature message) as [sig|]; [|done].
    destruct (verifySignature sig _ _).1 as [[]|e]; try done.
    destruct (Hret (this_permissions (securityFramework App s)))
      as [perms ->].
    by destruct (Hret' (this_permissions (securityFramework App s)))
      as [perms' ->].
Qed.

(** X19.  A message whose signature does not verify never reaches a handler:
    one audit entry is written, the error (the plain [Error('Invalid
    signature')] when the verifier answered [false]) goes to [handleError],
    and the answer is the error response [{ jsonrpc: "2.0", id, error }]
    with the id of the message (or what [handleError] throws). *)
Theorem handleMessage_invalid_signature getPermissions
    session correlation now audit_now message sig s :
  signature message = Some sig →
  (verifySignature sig (enhanceMessage session correlation now message)
     (securityFramework App s)).1 ≠ Return true →
  let ctx := {| sessionId := session; userId := None; timestamp := now;
                correlationId := correlation; parentOperation := None |} in
  ∃ e,
    ((verifySignature sig (enhanceMessage session correlation now message)
        (securityFramework App s)).1 = Return false →
     e = Error.new "Invalid signature") ∧
    handleMessage getPermissions session correlation now audit_now message s
    = Eff.bind (handleError e ctx)
        (λ enhancedError,
           Eff.ret {| jsonrpc := "2.0"; response_id := id message;
                      result := None; error := Some enhancedError |})
        {| securityFramework :=
             push_audit (entry audit_now e ctx) (securityFramework App s);
           app := app App s |}.
Proof.
  intros Hsig Hbad ctx.
  unfold EnhancedMCPServerImpl.handleMessage,
    Eff.try_catch, Eff.bind at 1, on_security.
  rewrite authenticate_enhanced, Hsig.
  destruct (verifySignature sig _ _).1 as [[]|e]; try done.
  - by exists (Error.new "Invalid signature").
  - exists e. by split.
Qed.

(** X20.  If [handleError] returns, so does [handleMessage], for every message:
    its answer is the response of the handler that the method selects, or
    the error response with the id of the message. *)
Theorem handleMessage_answers getPermissions
    session correlation now audit_now message s :
  (∀ e ctx s0, ∃ enhancedError s1,
     handleError e ctx s0 = (Return enhancedError, s1)) →
  ∃ response s',
    handleMessage getPermissions session correlation now audit_now message s
    = (Return response, s') ∧
    ((∃ s0, processEnhancedMessage
              (enhanceMessage session correlation now message) s0
            = (Return response, s')) ∨
     (jsonrpc response = "2.0" ∧ response_id response = id message ∧
      result response = None ∧ is_Some (error response))).
Proof.
  intros Hhandled.
  unfold EnhancedMCPServerImpl.handleMessage,
    Eff.try_catch, Eff.bind at 1, on_security.
  destruct (authenticateRequest _ _ _ _ _ _) as [[r|e] sf].
  - destruct (processEnhancedMessage _ _) as [[response|e] s1] eqn:Hrun.
    + exists response, s1. split; [done|]. left. by eexists.
    + unfold Eff.bind, Eff.ret.
      destruct (Hhandled e
                  {| sessionId := session; userId := None; timestamp := now;
                     correlationId := correlation; parentOperation := None |}
                  s1) as (ee & s2 & ->).
      eexists _, _. split; [done|]. right. simpl. by eauto.
  - unfold Eff.bind, Eff.ret.
    destruct (Hhandled e
                {| sessionId := session; userId := None; timestamp := now;
                   correlationId := correlation; parentOperation := None |}
                {| securityFramework := sf; app := app App s |})
      as (ee & s2 & ->).
    eexists _, _. split; [done|]. right. simpl. by eauto.
Qed.

End Props.

(** *** At concrete inputs *)

Import Examples MoreExamples.

Lemma handleMessage_invalid_signature_witness :
  ∃ e,
    ((verifySignature stringify verifier_rejects a_signature
        (enhanceMessage "sess_1" "corr_1" "t0" signed_message)
        (securityFramework () server_state)).1 = Return false →
     e = Error.new "Invalid signature") ∧
    handleMessage () string stringify verifier_rejects lookup_permissions
      report_error (answer "tools") (answer "called") (answer "resources")
      (answer "legacy") "sess_1" "corr_1" "t0" "t1" signed_message
      server_state
    = Eff.bind
        (report_error e
           {| sessionId := "sess_1"; userId := None; timestamp := "t0";
              correlationId := "corr_1"; parentOperation := None |})
        (λ enhancedError,
           Eff.ret {| jsonrpc := "2.0"; response_id := id signed_message;
                      result := None; error := Some enhancedError |})
        {| securityFramework :=
             push_audit
               {| entry_timestamp := "t1"; event := "authentication_failed";
                  details_error := Error.message e;
                  details_context :=
                    Some {| sessionId := "sess_1"; userId := None;
                            timestamp := "t0"; correlationId := "corr_1";
                            parentOperation := None |} |}
               (securityFramework () server_state);
           app := app () server_state |}.
Proof.
  apply (handleMessage_invalid_signature () string stringify verifier_rejects
           report_error (answer "tools") (answer "called")
           (answer "resources") (answer "legacy") lookup_permissions
           "sess_1" "corr_1" "t0" "t1" signed_message a_signature
           server_state).
  - reflexivity.
  - simpl. discriminate.
Defined.

Lemma handleMessage_answers_witness :
  ∃ response s',
    handleMessage () string stringify verifier_accepts lookup_permissions
      report_error (answer "tools") (answer "called") (answer "resources")
      (answer "legacy") "sess_1" "corr_1" "t0" "t1" unsigned_message
      server_state
    = (Return response, s') ∧
    ((∃ s0, processEnhancedMessage () string (answer "tools")
              (answer "called") (answer "resources") (answer "legacy")
              (enhanceMessage "sess_1" "corr_1" "t0" unsigned_message) s0
            = (Return response, s')) ∨
     (jsonrpc response = "2.0" ∧
      response_id response = id unsigned_message ∧
      result response = None ∧ is_Some (error response))).
Proof.
  apply (handleMessage_answers () string stringify verifier_accepts
           report_error (answer "tools") (answer "called")
           (answer "resources") (answer "legacy") lookup_permissions
           "sess_1" "corr_1" "t0" "t1" unsigned_message server_state).
  intros e ctx s0. by eexists _, _.
Defined.

Lemma handleMessage_ignores_user_witness :
  handleMessage () string stringify verifier_accepts lookup_permissions
    report_error (answer "tools") (answer "called") (answer "resources")
    (answer "legacy") "sess_1" "corr_1" "t0" "t1" signed_message_no_context
    server_state
  = handleMessage () string stringify verifier_accepts lookup_permissions
      report_error (answer "tools") (answer "called") (answer "resources")
      (answer "legacy") "sess_1" "corr_1" "t0" "t1" signed_message
      server_state.
Proof.
  destruct (handleMessage_ignores_user () string stringify verifier_accepts
              report_error (answer "tools") (answer "called")
              (answer "resources") (answer "legacy") lookup_permissions
              lookup_permissions "sess_1" "corr_1" "t0" "t1" signed_message
              signed_message_no_context server_state) as [Hcontext _].
  apply Hcontext; reflexivity.
Defined.

End ServerProps.

(** ** The workflow: automatic recovery *)

Module WorkflowRecoveryProps.
Import EnhancedErrorHandler RetryProps.

Section Props.
Variable executeFallback : RecoveryStrategy → Eff World bool.
Variable rollbackToCheckpoint : RecoveryStrategy → Eff World bool.

Local Abbreviation attemptOne :=
  (EnhancedErrorHandler.attemptRecovery executeFallback rollbackToCheckpoint).
Local Abbreviation attemptRecovery :=
  (SecureFileAnalysisWorkflow.attemptRecovery executeFallback
     rollbackToCheckpoint).

Lemma attemptOne_total strategy w : is_Some (attemptOne strategy w).
Proof.
  unfold EnhancedErrorHandler.attemptRecovery.
  destruct (String.eqb _ "retry"); [apply retryWithBackoff_total|].
  destruct (String.eqb _ "fallback"); [by eexists|].
  destruct (String.eqb _ "rollback"); by eexists.
Qed.

(** X21.  The recovery loop of the workflow never throws and always ends.  It
    answers [true] only when some strategy answered [true]: the strategies
    before that one were tried and each answered [false] or threw, an
    error being dropped like a [false], and those after it are not tried.
    With no strategy it answers [false] and does nothing. *)
Theorem workflow_attemptRecovery_outcome : ∀ automatic w,
  ∃ b w',
    attemptRecovery automatic w = Some (Return b, w') ∧
    (automatic = [] → b = false ∧ w' = w) ∧
    (b = true →
     ∃ before recovery after w1,
       automatic = before ++ recovery :: after ∧
       attemptRecovery before w = Some (Return false, w1) ∧
       attemptOne recovery w1 = Some (Return true, w')).
Proof.
  induction automatic as [|recovery rest IH]; intros w.
  - by exists false, w.
  - destruct (attemptOne_total recovery w) as [[c w1] Hone].
    destruct (IH w1) as (b & w' & Hrun & _ & Htrue).
    assert (c ≠ Return true →
            ∀ l, attemptRecovery (recovery :: l) w = attemptRecovery l w1)
      as Hskip.
    { intros Hc l. simpl. rewrite Hone. by destruct c as [[]|e]. }
    assert (c = Return true ∨ c ≠ Return true) as [->|Hc].
    { destruct c as [[]|e]; [by left|by right|by right]. }
    + exists true, w1. simpl. rewrite Hone.
      split; [done|]. split; [done|]. intros _.
      by exists [], recovery, rest, w.
    + exists b, w'. rewrite (Hskip Hc). split; [done|]. split; [done|].
      intros (before & r & after & w0 & -> & Hbefore & Hr)%Htrue.
      exists (recovery :: before), r, after, w0.
      split; [done|]. split; [|done]. by rewrite (Hskip Hc).
Qed.

End Props.

(** *** At concrete inputs *)

Import Examples MoreExamples.

(** A retry that gives up after three failures, then a retry that gets
    through: the error of the first is dropped and the answer is [true]. *)
Lemma workflow_attemptRecovery_outcome_witness :
  ∃ w',
    SecureFileAnalysisWorkflow.attemptRecovery no_recovery no_recovery
      [exponential_retry; recovering_retry] empty_world
    = Some (Return true, w') ∧
    invocations (trace w') = 4%nat.
Proof.
  destruct (workflow_attemptRecovery_outcome no_recovery no_recovery
              [exponential_retry; recovering_retry] empty_world)
    as (b & w' & Hrun & _ & _).
  exists w'. vm_compute in Hrun. injection Hrun as Hb Hw.
  rewrite <- Hw. split; [|reflexivity].
  vm_compute. by rewrite Hb.
Defined.

End WorkflowRecoveryProps.

(** ** Error reports *)

Module ErrorReportingProps.
Import EnhancedErrorHandler ErrorReporting.

Section Props.
Variable SystemState Recovery Category Severity Impacts : Type.
Variable captureSystemState : Eff World SystemState.
Variable generateRecoveryOptions :
  Error.t → SecurityFramework.OperationContext → Eff World Recovery.
Variable determineCategory : Error.t → completion Category.
Variable determineSeverity : Error.t → completion Severity.
Variable isTransient : Error.t → completion bool.
Variable isUserActionable : Error.t → completion bool.
Variable assessImpacts :
  Error.t → SecurityFramework.OperationContext → Eff World Impacts.
Variable updateCircuitBreaker : string → Error.t → Eff World unit.
Variable stack_lines : Error.t → option (list string).

Local Abbreviation handleError :=
  (handleError SystemState Recovery Category Severity Impacts
     captureSystemState generateRecoveryOptions determineCategory
     determineSeverity isTransient isUserActionable assessImpacts
     updateCircuitBreaker stack_lines).

(** X22.  An error report returned by [handleError] carries the message of the
    error and the correlation id of the context as its operation; its code
    is -32602, -32601 or -32000 for a [ValidationError], [NotFoundError] or
    [PermissionError] and -32603 for any other name, so that a plain
    [Error], such as the one thrown for an invalid signature, is reported
    as an internal error.  The circuit breaker of that correlation id is
    updated last: it is the call that [handleError] returns from. *)
Theorem handleError_report date_now random iso_now error context w report w' :
  handleError date_now random iso_now error context w = (Return report, w') →
  message report = Error.message error ∧
  operation (ErrorReporting.context report)
    = SecurityFramework.correlationId context ∧
  error_id (ErrorReporting.context report)
    = "err_" +:+ date_now +:+ "_" +:+ random ∧
  (Error.name error = "ValidationError" → code report = -32602) ∧
  (Error.name error = "NotFoundError" → code report = -32601) ∧
  (Error.name error = "PermissionError" → code report = -32000) ∧
  (Error.name error ≠ "ValidationError" →
   Error.name error ≠ "NotFoundError" →
   Error.name error ≠ "PermissionError" → code report = -32603) ∧
  (∀ msg, error = Error.new msg → code report = -32603) ∧
  (∃ w0, updateCircuitBreaker (SecurityFramework.correlationId context)
           error w0 = (Return tt, w')).
Proof.
  unfold ErrorReporting.handleError, classifyError, Eff.bind, Eff.lift,
    Eff.ret.
  destruct (captureSystemState w) as [[st|e] w1]; [|done].
  destruct (generateRecoveryOptions error context w1) as [[rec|e] w2]; [|done].
  destruct (determineCategory error) as [c|e]; [|done].
  destruct (determineSeverity error) as [sv|e]; [|done].
  destruct (isTransient error) as [t|e]; [|done].
  destruct (isUserActionable error) as [u|e]; [|done].
  destruct (assessImpacts error context w2) as [[im|e] w3]; [|done].
  destruct (updateCircuitBreaker _ error w3) as [[[]|e] w4] eqn:Hcb; [|done].
  intros [= <- <-]. simpl. unfold mapErrorToCode.
  split; [done|]. split; [done|]. split; [done|].
  split; [by intros ->|]. split; [by intros ->|]. split; [by intros ->|].
  split; [|split; [by intros msg ->|by exists w3]].
  intros Hv Hn Hp.
  destruct (String.eqb_spec (Error.name error) "ValidationError"); [done|].
  destruct (String.eqb_spec (Error.name error) "NotFoundError"); [done|].
  by destruct (String.eqb_spec (Error.name error) "PermissionError").
Qed.

End Props.

Import Examples.

Lemma handleError_report_witness :
  ∃ report w',
    handleError () () () () () (Eff.ret tt) (λ _ _, Eff.ret tt)
      (λ _, Return tt) (λ _, Return tt) (λ _, Return false)
      (λ _, Return false) (λ _ _, Eff.ret tt) (λ _ _, Eff.ret tt)
      (λ _, None) "1700000000000" "a1b2c3d4e" "2023-11-14T22:13:20.000Z"
      (Error.new "Invalid signature") a_context empty_world
    = (Return report, w') ∧
    code report = -32603 ∧ message report = "Invalid signature" ∧
    operation (ErrorReporting.context report) = "corr_1".
Proof.
  eexists _, _. split; [reflexivity|].
  destruct (handleError_report () () () () () (Eff.ret tt)
              (λ _ _, Eff.ret tt) (λ _, Return tt) (λ _, Return tt)
              (λ _, Return false) (λ _, Return false) (λ _ _, Eff.ret tt)
              (λ _ _, Eff.ret tt) (λ _, None) "1700000000000" "a1b2c3d4e"
              "2023-11-14T22:13:20.000Z" (Error.new "Invalid signature")
              a_context empty_world _ _ eq_refl)
    as (Hmsg & Hop & _ & _ & _ & _ & _ & Hcode & _).
  split; [by apply (Hcode "Invalid signature")|]. by split.
Defined.

End ErrorReportingProps.
